(** * pakr: a package resolver on top of a SAT engine

    Shallow embedding of [resolver.go] and of the package model of the
    [pakr] library, with the properties of its specification. *)

From Stdlib Require Import ZArith String Ascii List Lia.
From stdpp Require Import gmap strings sorting.

Set Warnings "-clear-no-such-hyp".

Local Open Scope string_scope.
Local Open Scope list_scope.
Local Open Scope Z_scope.

(** ** Machine integers

    [pigosat.Literal] is an [int32]; Go arithmetic on it wraps around. *)

Abbreviation Literal := Z.

Definition maxInt32 : Z := 2 ^ 31 - 1.
Definition minInt32 : Z := - 2 ^ 31.

Definition wrap32 (z : Z) : Z := (z + 2 ^ 31) mod 2 ^ 32 - 2 ^ 31.
Definition wrap64 (z : Z) : Z := (z + 2 ^ 63) mod 2 ^ 64 - 2 ^ 63.

(** ** The name-id map ([stringIdMap]) *)

Record stringIdMap := {
  i_map : gmap Z string;
  s_map : gmap string Z;
  i : Z
}.

Definition newStringIdMap : stringIdMap :=
  {| i_map := ∅; s_map := ∅; i := 0 |}.

Definition Len (m : stringIdMap) : nat := size (s_map m).

(** [StringToId] returns the id together with the updated map. *)
Definition StringToId (s : string) (m : stringIdMap) : Literal * stringIdMap :=
  if decide (s = "") then (0, m)
  else match s_map m !! s with
       | Some id => (id, m)
       | None =>
           let i' := wrap32 (i m + 1) in
           (i', {| i_map := <[i' := s]> (i_map m);
                   s_map := <[s := i']> (s_map m);
                   i := i' |})
       end.

Definition GetId (s : string) (m : stringIdMap) : option Literal :=
  s_map m !! s.

Definition IdToString (l : Literal) (m : stringIdMap) : string :=
  let l := if l <? 0 then wrap32 (l * -1) else l in
  match i_map m !! l with
  | Some s => s
  | None => ""
  end.

Definition GetString (id : Literal) (m : stringIdMap) : option string :=
  i_map m !! id.

(** Interning a sequence of names, as the loops of the resolver do. *)
Definition internAll (names : list string) (m : stringIdMap) : stringIdMap :=
  foldl (λ m s, (StringToId s m).2) m names.

(** The invariant of the map. *)
Record idmap_wf (m : stringIdMap) : Prop := {
  wf_inverse : ∀ s id, s_map m !! s = Some id ↔ i_map m !! id = Some s;
  wf_dense : ∀ id, is_Some (i_map m !! id) ↔ 1 ≤ id ≤ i m;
  wf_nonempty : s_map m !! "" = None;
  wf_len : Z.of_nat (Len m) = i m;
  wf_size : size (i_map m) = size (s_map m);
  wf_range : 0 ≤ i m ≤ maxInt32
}.

(** ** Errors, panics and the outcome of a call

    A Go call either returns, returns a non-nil [error], or panics.
    Error values are kept as a data type: one constructor per
    [fmt.Errorf] / [errors.New] site, carrying the formatted operands. *)

Inductive error :=
  | ErrVersionListNil (name : string)
  | ErrSolverNotInitialized
  | ErrPackageNotExist (packageName : string)
  | ErrResolveLookup (pkgName : string) (cause : error)
  | ErrClausalCore (cause : string)
  | ErrStrconv (f : string)
  | ErrScanner (cause : string)
  | ErrNoLiterals (line : string)
  | ErrParsingInt (f line : string)
  | ErrUnexpectedLiteral (l : Z) (line : string)
  | ErrUnhandledClause (line : string).

(** Where an index expression went out of range. *)
Inductive site := AtClauses | AtLits | AtRels | AtFields.

Inductive panic :=
  | IndexOutOfRange (at_ : site) (index : Z) (len : nat)
  | MakesliceLenOutOfRange
  | NilDereference
  | PanicError (e : error).

Inductive outcome (A : Type) :=
  | Ret (a : A)
  | Err (e : error)
  | Panic (p : panic).
Arguments Ret {A} a.
Arguments Err {A} e.
Arguments Panic {A} p.

#[global] Instance outcome_ret : MRet outcome := λ A a, Ret a.
#[global] Instance outcome_bind : MBind outcome := λ A B f x,
  match x with
  | Ret a => f a
  | Err e => Err e
  | Panic p => Panic p
  end.

Fixpoint foldM {A S : Type} (f : S → A → outcome S) (s : S) (l : list A) : outcome S :=
  match l with
  | [] => Ret s
  | a :: l => s' ← f s a; foldM f s' l
  end.

(** [make([]T, n)]: a slice of [n] zero values. *)
Definition make {A} (zero : A) (n : Z) : outcome (list A) :=
  if n <? 0 then Panic MakesliceLenOutOfRange else Ret (replicate (Z.to_nat n) zero).

(** [l[idx] = x], with Go's bounds check. *)
Definition store {A} (w : site) (l : list A) (idx : nat) (x : A) : outcome (list A) :=
  if decide (idx < length l)%nat then Ret (<[idx := x]> l)
  else Panic (IndexOutOfRange w (Z.of_nat idx) (length l)).

(** ** Packages, dependencies and the product map *)

(** A value of the [Packager] interface, observed through its three methods. *)
Record Packager := {
  ProductName : string;
  PackageName : string;
  Version : string
}.

#[global] Instance Packager_eq_dec : EqDecision Packager.
Proof. solve_decision. Defined.

Abbreviation Packages := (list Packager).

(** [PackageName] of a [*Package] is [fmt.Sprintf("%s-%s", product, version)]. *)
Definition NewPackage (productName version : string) : Packager :=
  {| ProductName := productName;
     PackageName := productName +:+ "-" +:+ version;
     Version := version |}.

Record Dependency := {
  Target : Packager;
  Requires : list Packages
}.

(** [Packages.Less]: byte-wise comparison of the package names. *)
Definition Less (p q : Packager) : bool := String.ltb (PackageName p) (PackageName q).

(** The order in which [sort.Sort] leaves a slice: no later element is
    [Less] than an earlier one. *)
Definition name_le (p q : Packager) : Prop := String.le (PackageName p) (PackageName q).

#[global] Instance name_le_dec : RelDecision name_le.
Proof. intros p q. unfold name_le. apply _. Defined.

Inductive resolveSort := ResolveSortNone | ResolveSortLow | ResolveSortHigh.

#[global] Instance resolveSort_eq_dec : EqDecision resolveSort.
Proof. solve_decision. Defined.

(** [sort.Sort(flat)] and [sort.Sort(sort.Reverse(flat))].  The library
    sort is not stable; on slices whose names are pairwise distinct every
    sorting algorithm returns the same slice ([sortPackages_unique]). *)
Definition sortSort (flat : Packages) : Packages := merge_sort name_le flat.
Definition sortSortReverse (flat : Packages) : Packages := merge_sort (flip name_le) flat.

(** Go leaves the iteration order of [range] over a map unspecified: it
    is a parameter, any enumeration of the entries of the map. *)
Record MapOrder := {
  range : ∀ A : Type, gmap string A → list (string * A);
  range_perm : ∀ (A : Type) (m : gmap string A), range A m ≡ₚ map_to_list m
}.
Arguments range _ {A} _.

Definition keyOrder : MapOrder :=
  {| range := λ A m, map_to_list m; range_perm := λ A m, reflexivity _ |}.

Record ProductMap := {
  prods : gmap string (gmap string Packager);
  pkgs : gmap string Packager
}.

Definition NewProductMap : ProductMap := {| prods := ∅; pkgs := ∅ |}.

Definition NumProducts (m : ProductMap) : nat := size (prods m).
Definition NumPackages (m : ProductMap) : nat := size (pkgs m).

Definition Add (p : Packager) (m : ProductMap) : ProductMap :=
  let prodName := ProductName p in
  let pkgName := PackageName p in
  let set' := match prods m !! prodName with
              | None => {[pkgName := p]}
              | Some set => <[pkgName := p]> set
              end in
  {| prods := <[prodName := set']> (prods m);
     pkgs := <[pkgName := p]> (pkgs m) |}.

(** [ProductMap.Packages]; [None] is the nil slice of an unknown product. *)
Definition PackagesOf (ord : MapOrder) (productName : string) (m : ProductMap)
    : option Packages :=
  match prods m !! productName with
  | None => None
  | Some set => Some (range ord set).*2
  end.

Definition PackageByName (packageName : string) (m : ProductMap) : error + Packager :=
  match pkgs m !! packageName with
  | Some p => inr p
  | None => inl (ErrPackageNotExist packageName)
  end.

Definition packagesToIds (a : Packages) (idMap : stringIdMap)
    : list Literal * stringIdMap :=
  foldl (λ '(ids, idMap) s,
           let '(id, idMap) := StringToId (PackageName s) idMap in
           (ids ++ [id], idMap))
        ([], idMap) a.

Definition flattenDependencies (ord : MapOrder) (deps : list Dependency) : Packages :=
  let packMap : gmap string Packager :=
    foldl (λ packMap d,
             let packMap := <[PackageName (Target d) := Target d]> packMap in
             foldl (λ packMap verList,
                      foldl (λ packMap ver, <[PackageName ver := ver]> packMap)
                            packMap verList)
                   packMap (Requires d))
          ∅ deps in
  (range ord packMap).*2.

Inductive Relation := Required | Conflicts | Depends | Restricts.

Record PackageRelation := {
  relPackages : Packages;
  Relates : Relation
}.

(** A [PackageRelations] slice holds pointers: [None] is a nil entry. *)
Abbreviation PackageRelations := (list (option PackageRelation)).

(** The rendering methods ([String]) of the package model.  They panic
    on a nil relation and on a relation without packages. *)
Inductive renderPanic :=
  | NilRelation
  | NoPackages (index : Z) (len : nat).

(** [strings.Join]. *)
Fixpoint Join (elems : list string) (sep : string) : string :=
  match elems with
  | [] => ""
  | s :: rest =>
      match rest with
      | [] => s
      | _ :: _ => s +:+ sep +:+ Join rest sep
      end
  end.

(** [Packages.String]. *)
Definition Packages_String (p : Packages) : string :=
  Join (PackageName <$> p) ", ".

(** [PackageRelation.String], on a pointer: [None] is nil.  Every branch
    reads [r.Packages[0]] first. *)
Definition PackageRelation_String (r : option PackageRelation) : renderPanic + string :=
  match r with
  | None => inl NilRelation
  | Some r =>
      match relPackages r with
      | [] => inl (NoPackages 0 0)
      | p :: rest =>
          inr match Relates r with
              | Required => "Package " +:+ PackageName p +:+ " is required"
              | Restricts => "Package " +:+ PackageName p +:+ " is not allowed"
              | Depends =>
                  "Package " +:+ PackageName p +:+ " depends on one of (" +:+
                  Packages_String rest +:+ ")"
              | Conflicts =>
                  "Package " +:+ PackageName p +:+ " conflicts with (" +:+
                  Packages_String rest +:+ ")"
              end
      end
  end.

(** The loop of [PackageRelations.String]: one phrase per entry, in order. *)
Fixpoint phrases (p : PackageRelations) : renderPanic + list string :=
  match p with
  | [] => inr []
  | rel :: p =>
      match PackageRelation_String rel with
      | inl e => inl e
      | inr s =>
          match phrases p with
          | inl e => inl e
          | inr strs => inr (s :: strs)
          end
      end
  end.

Definition newline : string := String "010"%char "".

(** [PackageRelations.String]; [None] is the nil slice. *)
Definition PackageRelations_String (p : option PackageRelations) : renderPanic + string :=
  match p with
  | None => inr ""
  | Some p =>
      match phrases p with
      | inl e => inl e
      | inr strs => inr (Join strs newline)
      end
  end.

(** ** Pairwise conflict clauses *)

(** [big.Int.MulRange]. *)
Fixpoint mulRangeFrom (a : Z) (k : nat) : Z :=
  match k with
  | O => 1
  | S k => a * mulRangeFrom (a + 1) k
  end.

Definition MulRange (a b : Z) : Z :=
  if b <? a then 1
  else if (a <=? 0) && (0 <=? b) then 0
  else mulRangeFrom a (Z.to_nat (b - a + 1)).

(** [numCombos]: big-integer arithmetic, then [Int64()]. *)
Definition numCombos (n : Z) : Z :=
  let t := MulRange 1 n in
  let b1 := MulRange 1 (n - 2) in
  let b2 := 2 in
  wrap64 (t `div` (b1 * b2)).

(** The clause stored for the pair of positions [x], [y]. *)
Definition conflictPair (lits : list Literal) (x y : nat) : list Literal :=
  [wrap32 (- nth x lits 0); wrap32 (- nth y lits 0)].

(** The inner loop: [y] from [x+1] up to [count-1]. *)
Definition conflictRow (lits : list Literal) (count : nat)
    (st : list (list Literal) * nat) (x : nat) : outcome (list (list Literal) * nat) :=
  foldM (λ '(clauses, i) y,
           clauses ← store AtClauses clauses i (conflictPair lits x y);
           Ret (clauses, S i))
        st (seq (S x) (count - S x)).

Definition buildConflictClauses (lits : list Literal) : outcome (list (list Literal)) :=
  let count := length lits in
  if (count <=? 1)%nat then Ret []
  else
    clauses ← make [] (numCombos (Z.of_nat count));
    '(clauses, _) ← foldM (conflictRow lits count) (clauses, O) (seq 0 (count - 1));
    Ret clauses.

(** The pairs [i < j] of a list of literals, both negated, in the order
    of the two loops. *)
Fixpoint pairwise (lits : list Literal) : list (list Literal) :=
  match lits with
  | [] => []
  | a :: rest => ((λ b, [wrap32 (- a); wrap32 (- b)]) <$> rest) ++ pairwise rest
  end.

(** ** The SAT driver

    [pigosat] is an external binding to PicoSAT.  Its state is the
    variable hint, the clauses added so far, the assumptions pushed
    since the last solve and the result of the last solve; the decision
    procedure itself is a parameter of the development. *)

Inductive Status := Unknown | Satisfiable | Unsatisfiable.

#[global] Instance Status_eq_dec : EqDecision Status.
Proof. solve_decision. Defined.

Record Pigosat := {
  adjusted : Z;
  added : list (list Literal);
  assumed : list Literal;
  res : Status
}.

(** [pigosat.New(&Options{EnableTrace: true})]: with these options the
    constructor has no failing path. *)
Definition pigosatNew : Pigosat :=
  {| adjusted := 0; added := []; assumed := []; res := Unknown |}.

Definition Adjust (n : Z) (p : Pigosat) : Pigosat :=
  {| adjusted := n; added := added p; assumed := assumed p; res := res p |}.

Definition AddClauses (clauses : list (list Literal)) (p : Pigosat) : Pigosat :=
  {| adjusted := adjusted p; added := added p ++ clauses;
     assumed := assumed p; res := res p |}.

Definition Assume (lit : Literal) (p : Pigosat) : Pigosat :=
  {| adjusted := adjusted p; added := added p;
     assumed := assumed p ++ [lit]; res := res p |}.

(** A decision procedure: from the state of the driver to a status and,
    when satisfiable, a model indexed by variable (index 0 unused). *)
Abbreviation Engine := (Pigosat → Status * list bool).

(** [Solve] records the status, retracts the assumptions and hands out
    the model only when the status is [Satisfiable]. *)
Definition Solve (picosat_sat : Engine) (p : Pigosat) : Pigosat * (Status * list bool) :=
  let '(status, model) := picosat_sat p in
  let p' := {| adjusted := adjusted p; added := added p; assumed := []; res := status |} in
  (p', (status, if decide (status = Satisfiable) then model else [])).

(** ** The resolver *)

Record Resolver := {
  solver : option Pigosat;
  idMap : stringIdMap;
  prodMap : ProductMap;
  sortMode : resolveSort;
  index : list Dependency;
  requires : Packages;
  solution : Packages;
  conflicts : option PackageRelations
}.

Definition set_solver (s : option Pigosat) (r : Resolver) : Resolver :=
  {| solver := s; idMap := idMap r; prodMap := prodMap r; sortMode := sortMode r;
     index := index r; requires := requires r; solution := solution r;
     conflicts := conflicts r |}.

Definition set_idMap (m : stringIdMap) (r : Resolver) : Resolver :=
  {| solver := solver r; idMap := m; prodMap := prodMap r; sortMode := sortMode r;
     index := index r; requires := requires r; solution := solution r;
     conflicts := conflicts r |}.

Definition set_prodMap (m : ProductMap) (r : Resolver) : Resolver :=
  {| solver := solver r; idMap := idMap r; prodMap := m; sortMode := sortMode r;
     index := index r; requires := requires r; solution := solution r;
     conflicts := conflicts r |}.

Definition set_solution (s : Packages) (r : Resolver) : Resolver :=
  {| solver := solver r; idMap := idMap r; prodMap := prodMap r; sortMode := sortMode r;
     index := index r; requires := requires r; solution := s;
     conflicts := conflicts r |}.

Definition set_conflicts (c : option PackageRelations) (r : Resolver) : Resolver :=
  {| solver := solver r; idMap := idMap r; prodMap := prodMap r; sortMode := sortMode r;
     index := index r; requires := requires r; solution := solution r;
     conflicts := c |}.

(** The state threaded through the loops of [Initialize]. *)
Abbreviation EncState := (stringIdMap * ProductMap * list (list Literal))%type.

(** One requirement group: the clause [-tid, cid1, ..., cidk]. *)
Definition addGroup (tid : Literal) (st : EncState) (constraints : Packages) : EncState :=
  let '(idMap, prodMap, clauses) := st in
  let '(clause, idMap, prodMap) :=
    foldl (λ '(clause, idMap, prodMap) ver,
             let '(cid, idMap) := StringToId (PackageName ver) idMap in
             (clause ++ [cid], idMap, Add ver prodMap))
          ([wrap32 (- tid)], idMap, prodMap) constraints in
  (idMap, prodMap, clauses ++ [clause]).

(** One entry of the index. *)
Definition addDependency (st : EncState) (dep : Dependency) : EncState :=
  let '(idMap, prodMap, clauses) := st in
  let '(tid, idMap) := StringToId (PackageName (Target dep)) idMap in
  let prodMap := Add (Target dep) prodMap in
  foldl (addGroup tid) (idMap, prodMap, clauses) (Requires dep).

(** The preload of the name-id map under a sort mode. *)
Definition preload (ord : MapOrder) (sortMode : resolveSort) (index : list Dependency)
    (idMap : stringIdMap) : stringIdMap :=
  if decide (sortMode ≠ ResolveSortNone) then
    let flat := flattenDependencies ord index in
    let flat := if decide (sortMode = ResolveSortLow)
                then sortSortReverse flat else sortSort flat in
    foldl (λ idMap pack, (StringToId (PackageName pack) idMap).2) idMap flat
  else idMap.

(** The multi-version conflicts of one product. *)
Definition addConflicts (ord : MapOrder) (prodMap : ProductMap)
    (st : stringIdMap * list (list Literal)) (entry : string * gmap string Packager)
    : outcome (stringIdMap * list (list Literal)) :=
  let '(idMap, clauses) := st in
  let name := entry.1 in
  match PackagesOf ord name prodMap with
  | None => Err (ErrVersionListNil name)
  | Some vers =>
      let '(ids, idMap) := packagesToIds vers idMap in
      conflict ← buildConflictClauses ids;
      Ret (idMap, clauses ++ conflict)
  end.

(** [Initialize].  The nil index, which returns early, is the empty
    list. *)
Definition Initialize (ord : MapOrder) (r : Resolver) : outcome Resolver :=
  let solver := pigosatNew in
  let idMap := newStringIdMap in
  let prodMap := NewProductMap in
  match index r with
  | [] => Ret (set_solver (Some solver) (set_idMap idMap (set_prodMap prodMap r)))
  | _ :: _ =>
      let idMap := preload ord (sortMode r) (index r) idMap in
      let '(idMap, prodMap, clauses) :=
        foldl addDependency (idMap, prodMap, []) (index r) in
      '(idMap, clauses) ←
         foldM (addConflicts ord prodMap) (idMap, clauses) (range ord (prods prodMap));
      let solver := AddClauses clauses (Adjust (Z.of_nat (Len idMap)) solver) in
      Ret (set_solver (Some solver) (set_idMap idMap (set_prodMap prodMap r)))
  end.

(** The constructors and setters panic on an initialization error. *)
Definition orPanic (o : outcome Resolver) : outcome Resolver :=
  match o with
  | Err e => Panic (PanicError e)
  | o => o
  end.

Definition NewSortResolver (ord : MapOrder) (requires : Packages)
    (index : list Dependency) (sortMode : resolveSort) : outcome Resolver :=
  orPanic (Initialize ord
    {| solver := None; idMap := newStringIdMap; prodMap := NewProductMap;
       sortMode := sortMode; index := index; requires := requires;
       solution := []; conflicts := None |}).

Definition NewResolver (ord : MapOrder) (requires : Packages)
    (index : list Dependency) : outcome Resolver :=
  NewSortResolver ord requires index ResolveSortNone.

Definition SetRequirements (ord : MapOrder) (requires : Packages) (r : Resolver)
    : outcome Resolver :=
  orPanic (Initialize ord
    {| solver := solver r; idMap := idMap r; prodMap := prodMap r;
       sortMode := sortMode r; index := index r; requires := requires;
       solution := solution r; conflicts := conflicts r |}).

(** [addRequires]: every requirement becomes an assumption. *)
Definition addRequires (requires : Packages) (idMap : stringIdMap) (p : Pigosat)
    : stringIdMap * Pigosat :=
  foldl (λ '(idMap, p) pk,
           let '(tid, idMap) := StringToId (PackageName pk) idMap in
           (idMap, Assume tid p))
        (idMap, p) requires.

Definition SetPackageIndex (ord : MapOrder) (index : list Dependency) (r : Resolver)
    : outcome Resolver :=
  orPanic (Initialize ord
    {| solver := solver r; idMap := idMap r; prodMap := prodMap r;
       sortMode := sortMode r; index := index; requires := requires r;
       solution := solution r; conflicts := conflicts r |}).

(** [RequireTemp]; on a resolver without a driver the call dereferences
    a nil pointer. *)
Definition RequireTemp (p : Packager) (r : Resolver) : outcome Resolver :=
  match solver r with
  | None => Panic NilDereference
  | Some s =>
      let '(tid, idMap) := StringToId (PackageName p) (idMap r) in
      Ret (set_solver (Some (Assume tid s)) (set_idMap idMap r))
  end.

Definition Solution (r : Resolver) : Packages := solution r.

Definition Solved (r : Resolver) : bool :=
  match solver r with
  | None => false
  | Some p => bool_decide (res p = Satisfiable)
  end.

Definition ResolverPackageByName (packageName : string) (r : Resolver) : error + Packager :=
  PackageByName packageName (prodMap r).

(** The loop of [Resolve] over the model, from variable [i] upward. *)
Fixpoint remap (r : Resolver) (i : nat) (model : list bool)
    : Resolver * (bool * option error) :=
  match model with
  | [] => (r, (true, None))
  | b :: model =>
      if b then
        let pkgName := IdToString (wrap32 (Z.of_nat i)) (idMap r) in
        match PackageByName pkgName (prodMap r) with
        | inl err => (r, (false, Some (ErrResolveLookup pkgName err)))
        | inr pkg => remap (set_solution (solution r ++ [pkg]) r) (S i) model
        end
      else remap r (S i) model
  end.

Definition Resolve (picosat_sat : Engine) (r : Resolver)
    : Resolver * (bool * option error) :=
  let r := set_conflicts None (set_solution [] r) in
  match solver r with
  | None => (r, (false, Some ErrSolverNotInitialized))
  | Some p =>
      let '(idMap, p) := addRequires (requires r) (idMap r) p in
      let '(p, (status, model)) := Solve picosat_sat p in
      let r := set_solver (Some p) (set_idMap idMap r) in
      if decide (status ≠ Satisfiable) then (r, (false, None))
      else remap r 1 (drop 1 model)
  end.

(** ** The core interpreter ([cnfToPackageRelations]) *)

(** [strings.Fields] on ASCII text. *)
Definition Fields (line : string) : list string := String.words line.

(** [strconv.ParseInt(s, 10, 32)]: an optional sign, decimal digits, and
    a value that fits 32 bits; anything else is an error. *)
Definition digitOf (c : ascii) : option Z := Z.of_nat <$> Ascii.is_nat c.

Fixpoint parseDigits (s : string) (acc : Z) : option Z :=
  match s with
  | "" => Some acc
  | String c s => d ← digitOf c; parseDigits s (10 * acc + d)
  end.

Definition ParseInt32 (s : string) : option Z :=
  match s with
  | "" => None
  | String c rest =>
      let '(neg, body) :=
        if decide (c = "-"%char) then (true, rest)
        else if decide (c = "+"%char) then (false, rest)
        else (false, s) in
      match body with
      | "" => None
      | _ =>
          n ← parseDigits body 0;
          let v := if (neg : bool) then - n else n in
          if decide (minInt32 ≤ v ≤ maxInt32) then Some v else None
      end
  end.

(** The literals of one clause line: [lits] has one slot less than the
    line has fields, the field ["0"] is skipped, every other field is
    stored at the index of the field. *)
Definition parseLits (line : string) (fields : list string)
    : outcome (list Z * nat) :=
  lits ← make 0 (Z.of_nat (length fields) - 1);
  foldM (λ '(lits, negs) '(i, f),
           if decide (f = "0") then Ret (lits, negs)
           else match ParseInt32 f with
                | None => Err (ErrParsingInt f line)
                | Some parsed =>
                    let negs := if parsed <? 0 then S negs else negs in
                    lits ← store AtLits lits i parsed;
                    Ret (lits, negs)
                end)
        (lits, O) (imap pair fields).

Definition sortInts (lits : list Z) : list Z := merge_sort Z.le lits.

Definition lookupLits (r : Resolver) (line : string) (lits : list Z) : outcome Packages :=
  foldM (λ paks l,
           match ResolverPackageByName (IdToString (wrap32 l) (idMap r)) r with
           | inl _ => Err (ErrUnexpectedLiteral l line)
           | inr p => Ret (paks ++ [p])
           end)
        [] lits.

Definition classify (line : string) (lits : list Z) (negs : nat) : outcome Relation :=
  if decide (length lits = 1%nat) then
    if 0 <? nth 0 lits 0 then Ret Required else Ret Restricts
  else if decide (negs = 1%nat) then Ret Depends
  else if decide (1 < negs)%nat then Ret Conflicts
  else Err (ErrUnhandledClause line).

(** The default branch of the scanner loop, up to the store into [rels]. *)
Definition parseClause (r : Resolver) (line : string) : outcome PackageRelation :=
  let fields := Fields line in
  if decide (length fields = 0%nat) then Err (ErrNoLiterals line)
  else
    '(lits, negs) ← parseLits line fields;
    let lits := sortInts lits in
    paks ← lookupLits r line lits;
    relates ← classify line lits negs;
    Ret {| relPackages := paks; Relates := relates |}.

(** One line of the stream; the state is [rels] and the counter [clause]. *)
Definition scanLine (r : Resolver) (st : PackageRelations * nat) (line : string)
    : outcome (PackageRelations * nat) :=
  let '(rels, clause) := st in
  match line with
  | "" => Ret st
  | String c _ =>
      if decide (c = "c"%char) then Ret st
      else if decide (c = "p"%char) then
        let fields := Fields line in
        match last fields with
        | None => Panic (IndexOutOfRange AtFields (-1) 0)
        | Some f =>
            match ParseInt32 f with
            | None => Err (ErrStrconv f)
            | Some size =>
                rels ← make None size;
                Ret (rels, clause)
            end
        end
      else
        rel ← parseClause r line;
        rels ← store AtRels rels clause (Some rel);
        Ret (rels, S clause)
  end.

(** The stream as the [bufio.Scanner] delivers it: the lines, and the
    error the scanner stopped on, if any. *)
Record Stream := {
  lines : list string;
  scanErr : option string
}.

Definition cnfToPackageRelations (r : Resolver) (stream : Stream)
    : outcome PackageRelations :=
  '(rels, _) ← foldM (scanLine r) ([], O) (lines stream);
  match scanErr stream with
  | Some e => Err (ErrScanner e)
  | None => Ret rels
  end.

(** ** Reporting a failed resolve

    [FailedAssumption], [FailedAssumptions] and [WriteClausalCore] are
    methods of the external driver: they are parameters, functions of
    the state of the driver.  [WriteClausalCore] fills a buffer or
    returns an error; the buffer is read back through a scanner, so it
    is kept as the stream of its lines.  As for [RequireTemp], a call on
    a resolver without a driver dereferences a nil pointer. *)

Abbreviation CoreWriter := (Pigosat → string + Stream).

Definition IsPackageNameConflict (failedAssumption : Pigosat → Literal → bool)
    (packageName : string) (r : Resolver) : outcome bool :=
  match solver r with
  | None => Panic NilDereference
  | Some p =>
      match GetId packageName (idMap r) with
      | None => Ret false
      | Some id => Ret (failedAssumption p id)
      end
  end.

Definition IsPackageConflict (failedAssumption : Pigosat → Literal → bool)
    (p : Packager) (r : Resolver) : outcome bool :=
  match solver r with
  | None => Panic NilDereference
  | Some s =>
      match GetId (PackageName p) (idMap r) with
      | None => Ret false
      | Some id => Ret (failedAssumption s id)
      end
  end.

(** [Resolver.Conflicts]: the slot of a failed assumption holds the
    package registered under its name, or nil ([None]) when the lookup
    fails; the error of the lookup is dropped. *)
Definition ResolverConflicts (failedAssumptions : Pigosat → list Literal) (r : Resolver)
    : outcome (list (option Packager)) :=
  match solver r with
  | None => Panic NilDereference
  | Some p =>
      Ret ((λ id, match PackageByName (IdToString id (idMap r)) (prodMap r) with
                  | inr pak => Some pak
                  | inl _ => None
                  end) <$> failedAssumptions p)
  end.

(** [rels] of [cnfToPackageRelations] is nil until a preamble line
    allocates it. *)
Definition allocates (stream : Stream) : bool :=
  existsb (λ line, match line with
                   | String c _ => bool_decide (c = "p"%char)
                   | "" => false
                   end) (lines stream).

(** [DetailedConflicts] returns the report, nil ([None]) included, and
    caches it in the resolver. *)
Definition DetailedConflicts (writeClausalCore : CoreWriter) (r : Resolver)
    : outcome (Resolver * option PackageRelations) :=
  if Solved r then Ret (r, Some [])
  else
    match conflicts r with
    | Some cached => Ret (r, Some cached)
    | None =>
        match solver r with
        | None => Panic NilDereference
        | Some p =>
            match writeClausalCore p with
            | inl err => Err (ErrClausalCore err)
            | inr buf =>
                pkgs ← cnfToPackageRelations r buf;
                let pkgs := if allocates buf then Some pkgs else None in
                Ret (set_conflicts pkgs r, pkgs)
            end
        end
    end.

(** ** A reference decision procedure

    Modelled from the spec: the SAT engine behind the driver of section
    4.4 is an external library.  This one enumerates the assignments of
    the variables in use and returns the first that satisfies every
    added clause and every assumption. *)

Definition litHolds (model : list bool) (l : Literal) : bool :=
  if 0 <? l then model !!! Z.to_nat l
  else if l <? 0 then negb (model !!! Z.to_nat (- l))
  else false.

Definition clauseHolds (model : list bool) (clause : list Literal) : bool :=
  existsb (litHolds model) clause.

Definition variables (p : Pigosat) : nat :=
  Z.to_nat (foldr Z.max (adjusted p) (Z.abs <$> (concat (added p) ++ assumed p))).

Fixpoint assignments (n : nat) : list (list bool) :=
  match n with
  | O => [[]]
  | S n => (cons true <$> assignments n) ++ (cons false <$> assignments n)
  end.

Definition refSolve : Engine := λ p,
  let candidates := cons false <$> assignments (variables p) in
  match filter (λ model, forallb (clauseHolds model) (added p) &&
                          forallb (litHolds model) (assumed p)) candidates with
  | model :: _ => (Satisfiable, model)
  | [] => (Unsatisfiable, [])
  end.

(** ** Vocabulary of the specification *)

(** The clauses of the rows [xs] of the double loop of
    [buildConflictClauses]. *)
Definition rows (lits : list Literal) (xs : list nat) : list (list Literal) :=
  xs ≫= λ x, conflictPair lits x <$> seq (S x) (length lits - S x).

(** The packages an index refers to, in the order [Initialize] walks
    them: each target, followed by the members of its groups. *)
Definition indexPackages (index : list Dependency) : Packages :=
  index ≫= λ dep, Target dep :: concat (Requires dep).

Definition indexNames (index : list Dependency) : gset string :=
  list_to_set (PackageName <$> indexPackages index).

(** Ids are [int32]: the index mentions at most [maxInt32] names. *)
Definition indexFits (index : list Dependency) : Prop :=
  Z.of_nat (size (indexNames index)) ≤ maxInt32.

(** The id of a package in a map: what [StringToId] answers for its name. *)
Definition idOf (m : stringIdMap) (p : Packager) : Literal :=
  (StringToId (PackageName p) m).1.

(** One clause per requirement group of each dependency, in index order. *)
Definition depClauses (m : stringIdMap) (index : list Dependency) : list (list Literal) :=
  index ≫= λ dep, (λ G, wrap32 (- idOf m (Target dep)) :: (idOf m <$> G)) <$> Requires dep.

(** The at-most-one clauses of the products of a product map. *)
Definition conflictClauses (ord : MapOrder) (m : stringIdMap) (pm : ProductMap)
    : list (list Literal) :=
  range ord (prods pm) ≫= λ entry, pairwise (idOf m <$> (range ord entry.2).*2).

Definition addAll (ps : Packages) (pm : ProductMap) : ProductMap :=
  foldl (λ pm p, Add p pm) pm ps.

(** The entries of a product map are keyed by the names of their
    packages, all of them names of [N]. *)
Record prodmap_ok (N : gset string) (pm : ProductMap) : Prop := {
  ok_pkgs : ∀ name p, pkgs pm !! name = Some p → name ∈ N ∧ PackageName p = name;
  ok_prods : ∀ prod set name p,
    prods pm !! prod = Some set → set !! name = Some p →
    name ∈ N ∧ PackageName p = name ∧ ProductName p = prod ∧
    is_Some (pkgs pm !! name)
}.

(** A package is registered when both lookups of the product map reach
    an entry under its name. *)
Definition registered (ord : MapOrder) (p : Packager) (pm : ProductMap) : Prop :=
  (∃ q, PackageByName (PackageName p) pm = inr q ∧ PackageName q = PackageName p) ∧
  (∃ vers q, PackagesOf ord (ProductName p) pm = Some vers ∧ q ∈ vers ∧
             PackageName q = PackageName p ∧ ProductName q = ProductName p).

(** Both lookups of the product map have an entry under the name of [p]. *)
Definition reg (p : Packager) (pm : ProductMap) : Prop :=
  is_Some (pkgs pm !! PackageName p) ∧
  ∃ set, prods pm !! ProductName p = Some set ∧ is_Some (set !! PackageName p).

(** The map [flattenDependencies] builds from the packages it meets. *)
Definition packMapOf (ps : Packages) : gmap string Packager :=
  foldl (λ packMap p, <[PackageName p := p]> packMap) ∅ ps.

(** The names an index refers to, in ascending byte-wise order. *)
Definition sortedNames (index : list Dependency) : list string :=
  merge_sort String.le (elements (indexNames index)).

(** The names the preload interns, in order. *)
Definition preloadNames (ord : MapOrder) (sortMode : resolveSort)
    (index : list Dependency) : list string :=
  match sortMode with
  | ResolveSortNone => []
  | ResolveSortLow => PackageName <$> sortSortReverse (flattenDependencies ord index)
  | ResolveSortHigh => PackageName <$> sortSort (flattenDependencies ord index)
  end.

(** The clause of a requirement group [G] of the target [T]:
    not T, or one of the members of G. *)
Definition depClause (m : stringIdMap) (T : Packager) (G : Packages) : list Literal :=
  - idOf m T :: (idOf m <$> G).

Definition dependencyClauses (m : stringIdMap) (index : list Dependency)
    : list (list Literal) :=
  index ≫= λ dep, depClause m (Target dep) <$> Requires dep.

(** The pairwise exclusions of a list of ids: [not a or not b] for
    every [a] before [b]. *)
Fixpoint atMostOne (ids : list Literal) : list (list Literal) :=
  match ids with
  | [] => []
  | a :: rest => ((λ b, [- a; - b]) <$> rest) ++ atMostOne rest
  end.

(** The exclusions of every product of a product map, product by
    product in iteration order. *)
Definition atMostOneClauses (ord : MapOrder) (m : stringIdMap) (pm : ProductMap)
    : list (list Literal) :=
  range ord (prods pm) ≫= λ entry,
    atMostOne (idOf m <$> default [] (PackagesOf ord entry.1 pm)).

(** A resolver before its first [Initialize]. *)
Definition rawResolver (requires : Packages) (index : list Dependency)
    (sortMode : resolveSort) : Resolver :=
  {| solver := None; idMap := newStringIdMap; prodMap := NewProductMap;
     sortMode := sortMode; index := index; requires := requires;
     solution := []; conflicts := None |}.

(** The variables a model sets, scanning upward from variable [v]. *)
Fixpoint trueVars (v : nat) (model : list bool) : list nat :=
  match model with
  | [] => []
  | b :: model => if b then v :: trueVars (S v) model else trueVars (S v) model
  end.

(** The name [Resolve] reads back for variable [v]. *)
Definition varName (m : stringIdMap) (v : nat) : string :=
  IdToString (wrap32 (Z.of_nat v)) m.

(** The state of the driver on which [Resolve] runs the engine: the
    requirements have been pushed as assumptions. *)
Definition solverInput (r : Resolver) : option Pigosat :=
  (λ p, (addRequires (requires r) (idMap r) p).2) <$> solver r.

(** Ids are [int32]: the index and the requirements together mention
    at most [maxInt32] names. *)
Definition requestFits (index : list Dependency) (requires : Packages) : Prop :=
  Z.of_nat (size (indexNames index ∪ list_to_set (PackageName <$> requires))) ≤ maxInt32.

(** The package a literal of the core stands for. *)
Definition literalPackage (r : Resolver) (l : Z) : error + Packager :=
  ResolverPackageByName (IdToString (wrap32 l) (idMap r)) r.

(** The number of negative literals of a clause. *)
Definition countNegs (lits : list Z) : nat := length (filter (λ l, l < 0) lits).

(** The branch of the scanner loop a line takes. *)
Inductive lineKind := BlankLine | CommentLine | PreambleLine | ClauseLine.

#[global] Instance lineKind_eq_dec : EqDecision lineKind.
Proof. solve_decision. Defined.

Definition kindOf (line : string) : lineKind :=
  match line with
  | "" => BlankLine
  | String c _ =>
      if decide (c = "c"%char) then CommentLine
      else if decide (c = "p"%char) then PreambleLine
      else ClauseLine
  end.

(** The count a preamble line declares: its last field, as a number. *)
Definition declaredCount (line : string) : option Z :=
  last (Fields line) ≫= ParseInt32.

Definition clauseLines (ls : list string) : list string :=
  filter (λ line, kindOf line = ClauseLine) ls.

(** The core interpreter went out of range on the store into [rels]. *)
Definition storePanic {A} (o : outcome A) : Prop :=
  ∃ index len, o = Panic (IndexOutOfRange AtRels index len).

(** What a model of the external engine is held to: it gives a value to
    the variable of every literal it is asked about, it makes a literal
    of every added clause and every assumption true, and its variables
    are [int32]. *)
Definition litSat (model : list bool) (l : Literal) : bool :=
  if 0 <? l then bool_decide (model !! Z.to_nat l = Some true)
  else if l <? 0 then bool_decide (model !! Z.to_nat (- l) = Some false)
  else false.

Definition clauseSat (model : list bool) (clause : list Literal) : bool :=
  existsb (litSat model) clause.

Definition honours (model : list bool) (p : Pigosat) : bool :=
  forallb (clauseSat model) (added p) && forallb (litSat model) (assumed p) &&
  (Z.of_nat (length model) <=? 2 ^ 31).

(** The value a model gives to the variable of an id. *)
Definition chosen (model : list bool) (id : Literal) : bool :=
  bool_decide (model !! Z.to_nat id = Some true).

(** The invariant of a product map that [Add] has filled from the
    packages [ps]. *)
Record prodmap_inv (ps : Packages) (pm : ProductMap) : Prop := {
  inv_pkgs : ∀ name q, pkgs pm !! name = Some q →
    PackageName q = name ∧ q ∈ ps ∧
    ∃ set, prods pm !! ProductName q = Some set ∧ set !! name = Some q;
  inv_prods : ∀ prod set name q,
    prods pm !! prod = Some set → set !! name = Some q →
    PackageName q = name ∧ ProductName q = prod ∧ q ∈ ps;
  inv_nonempty : ∀ prod set, prods pm !! prod = Some set → set ≠ ∅;
  inv_names : dom (pkgs pm) = list_to_set (PackageName <$> ps);
  inv_products : dom (prods pm) = list_to_set (ProductName <$> ps)
}.

(** The length [rels] has once the lines [ls] are read: the count of
    the last preamble line among them, and 0, the nil slice, when there
    is none. *)
Definition capacity (ls : list string) : nat :=
  match last (filter (λ line, kindOf line = PreambleLine) ls) with
  | None => O
  | Some pline => Z.to_nat (default 0 (declaredCount pline))
  end.

(** Every clause line of [ls] finds its slot: fewer clause lines stand
    before it than [rels] has slots when the line is read. *)
Definition inBounds (ls : list string) : Prop :=
  ∀ (k : nat) cl, ls !! k = Some cl → kindOf cl = ClauseLine →
    (length (clauseLines (take k ls)) < capacity (take k ls))%nat.

(** ** The examples and tests of the library *)

Definition P := NewPackage.

(** [Example_solve]. *)
Definition solveIndex : list Dependency := [
  {| Target := P "A" "1.0.0"; Requires := [[P "B" "1.0.0"]] |};
  {| Target := P "A" "2.0.0"; Requires := [[P "B" "2.0.0"]] |};
  {| Target := P "B" "2.0.0"; Requires := [[P "C" "1.0.0"]] |} ].

(** [Example_conflict]. *)
Definition conflictIndex : list Dependency := [
  {| Target := P "A" "1.0.0"; Requires := [[P "C" "1.0.0"]] |};
  {| Target := P "B" "1.0.0"; Requires := [[P "C" "2.0.0"]] |} ].

(** [TestChooseHighVersions]. *)
Definition highIndex : list Dependency := [
  {| Target := P "A" "2.0.0"; Requires := [[P "B" "2.0.0"; P "B" "1.0.0"]] |};
  {| Target := P "A" "1.0.0"; Requires := [[P "B" "2.0.0"; P "B" "1.0.0"]] |};
  {| Target := P "B" "2.0.0"; Requires := [[P "C" "2.0.0"; P "C" "1.0.0"]] |};
  {| Target := P "B" "1.0.0"; Requires := [[P "C" "2.0.0"; P "C" "1.0.0"]] |};
  {| Target := P "C" "2.0.0"; Requires := [] |};
  {| Target := P "C" "1.0.0"; Requires := [] |} ].

(** The clauses held by the driver of a constructed resolver. *)
Definition formulaOf (o : outcome Resolver) : option (list (list Literal)) :=
  match o with
  | Ret r => added <$> solver r
  | _ => None
  end.

(** The resolver a constructor returns (the raw resolver if it panics). *)
Definition constructed (o : outcome Resolver) : Resolver :=
  match o with
  | Ret r => r
  | _ => rawResolver [] [] ResolveSortNone
  end.

(** [Example_solve]: the resolver, its state after [Resolve], and its
    state after a second [Resolve] with the conflicting extra
    requirement A-1.0.0. *)
Definition solveResolver : Resolver :=
  constructed (NewResolver keyOrder [P "A" "2.0.0"] solveIndex).
Definition solveResolved : Resolver := (Resolve refSolve solveResolver).1.
Definition solveRetried : Resolver :=
  (Resolve refSolve (constructed (RequireTemp (P "A" "1.0.0") solveResolved))).1.

(** [Example_conflict]. *)
Definition conflictResolver : Resolver :=
  constructed (NewResolver keyOrder [P "A" "1.0.0"; P "B" "1.0.0"] conflictIndex).
Definition conflictInput : Pigosat := default pigosatNew (solverInput conflictResolver).

(** A requirement outside the index: Z-1.0.0 is all the index has,
    Q-1.0.0 is required. *)
Definition freeIndex : list Dependency := [
  {| Target := P "Z" "1.0.0"; Requires := [] |} ].
Definition freeResolver : Resolver :=
  constructed (NewResolver keyOrder [P "Q" "1.0.0"] freeIndex).

(** [TestChooseHighVersions]: the resolver under [ResolveSortHigh]. *)
Definition highResolver : Resolver :=
  constructed (NewSortResolver keyOrder [P "A" "2.0.0"] highIndex ResolveSortHigh).

(** [Example_solve]: the state of the driver on which [Resolve] runs the
    engine, and the model the reference procedure finds for it. *)
Definition solveInput : Pigosat := default pigosatNew (solverInput solveResolver).
Definition solveModel : list bool := (refSolve solveInput).2.

(** [Example_conflict]: two relations of its report. *)
Definition dependsAC : PackageRelation :=
  {| relPackages := [P "A" "1.0.0"; P "C" "1.0.0"]; Relates := Depends |}.
Definition conflictsCC : PackageRelation :=
  {| relPackages := [P "C" "2.0.0"; P "C" "1.0.0"]; Relates := Conflicts |}.

(** [Example_conflict] after its failed [Resolve]; a core of it in the
    format the driver writes; and the resolver after [DetailedConflicts]
    has read that core. *)
Definition conflictFailed : Resolver := (Resolve refSolve conflictResolver).1.
Definition conflictCore : CoreWriter := λ _,
  inr {| lines := ["p cnf 4 3"; "-1 2 0"; "-3 4 0"; "-2 -4 0"]; scanErr := None |}.
Definition conflictReported : Resolver :=
  match DetailedConflicts conflictCore conflictFailed with
  | Ret (r, _) => r
  | _ => conflictFailed
  end.

(** * Properties *)

(** ** Machine integers *)

Lemma wrap32_id z : minInt32 ≤ z ≤ maxInt32 → wrap32 z = z.
Proof.
  unfold wrap32, minInt32, maxInt32. intros Hz.
  rewrite Z.mod_small by lia. lia.
Qed.

Lemma wrap64_id z : - 2 ^ 63 ≤ z < 2 ^ 63 → wrap64 z = z.
Proof.
  unfold wrap64. intros Hz. rewrite Z.mod_small by lia. lia.
Qed.

(** ** The name-id map *)

Lemma newStringIdMap_wf : idmap_wf newStringIdMap.
Proof.
  split; simpl.
  - intros s id. by rewrite !lookup_empty.
  - intros id. rewrite lookup_empty. split; [by intros [? ?]|lia].
  - done.
  - done.
  - done.
  - unfold maxInt32. lia.
Qed.

Lemma idmap_wf_fresh m s :
  idmap_wf m → s_map m !! s = None →
  i_map m !! (i m + 1) = None ∧ ∀ s', s_map m !! s' ≠ Some (i m + 1).
Proof.
  intros Hwf Hs.
  assert (i_map m !! (i m + 1) = None) as Hi.
  { apply eq_None_not_Some. rewrite (wf_dense _ Hwf). lia. }
  split; [done|]. intros s' Hs'. apply (wf_inverse _ Hwf) in Hs'. congruence.
Qed.

Lemma StringToId_empty m : StringToId "" m = (0, m).
Proof. reflexivity. Qed.

Lemma StringToId_known m s id :
  s ≠ "" → s_map m !! s = Some id → StringToId s m = (id, m).
Proof. intros Hs Hid. unfold StringToId. rewrite decide_False by done. by rewrite Hid. Qed.

Lemma StringToId_new m s :
  s ≠ "" → s_map m !! s = None →
  StringToId s m =
    (wrap32 (i m + 1),
     {| i_map := <[wrap32 (i m + 1) := s]> (i_map m);
        s_map := <[s := wrap32 (i m + 1)]> (s_map m);
        i := wrap32 (i m + 1) |}).
Proof. intros Hs Hid. unfold StringToId. rewrite decide_False by done. by rewrite Hid. Qed.

(** An interned name keeps its id: [s_map] only ever grows. *)
Lemma StringToId_s_map_mono s m : s_map m ⊆ s_map (StringToId s m).2.
Proof.
  unfold StringToId. case_decide; [done|].
  destruct (s_map m !! s) eqn:E; [done|]. simpl. by apply insert_subseteq.
Qed.

Lemma StringToId_lookup s m :
  s ≠ "" → s_map (StringToId s m).2 !! s = Some (StringToId s m).1.
Proof.
  intros Hs. unfold StringToId. rewrite decide_False by done.
  destruct (s_map m !! s) eqn:E; simpl; [done|]. by rewrite lookup_insert_eq.
Qed.

Lemma internAll_s_map_mono names m : s_map m ⊆ s_map (internAll names m).
Proof.
  revert m. induction names as [|s names IH]; intros m; simpl; [done|].
  etrans; [apply (StringToId_s_map_mono s)|apply IH].
Qed.

Lemma StringToId_wf s m :
  idmap_wf m → Z.of_nat (Len m) < maxInt32 → idmap_wf (StringToId s m).2.
Proof.
  intros Hwf Hcap. destruct (decide (s = "")) as [->|Hne]; [done|].
  destruct (s_map m !! s) as [id|] eqn:E.
  { by rewrite (StringToId_known _ _ id). }
  rewrite StringToId_new by done. simpl.
  pose proof (wf_len _ Hwf) as Hlen. pose proof (wf_range _ Hwf) as Hrange.
  destruct (idmap_wf_fresh m s Hwf E) as [Hi Hs].
  rewrite wrap32_id in * by (unfold minInt32, maxInt32 in *; lia).
  split; simpl.
  - intros s' id'. destruct (decide (s' = s)) as [->|Hs'].
    + rewrite lookup_insert_eq. split.
      * intros [= <-]. by rewrite lookup_insert_eq.
      * intros Hid'. destruct (decide (id' = i m + 1)) as [->|Hd]; [done|].
        rewrite lookup_insert_ne in Hid' by done.
        apply (wf_inverse _ Hwf) in Hid'. congruence.
    + rewrite lookup_insert_ne by done.
      destruct (decide (id' = i m + 1)) as [->|Hd].
      * rewrite lookup_insert_eq. split; [by intros ?%Hs|congruence].
      * rewrite lookup_insert_ne by done. apply (wf_inverse _ Hwf).
  - intros id'. destruct (decide (id' = i m + 1)) as [->|Hd].
    + rewrite lookup_insert_eq. split; [lia|eauto].
    + rewrite lookup_insert_ne by done. rewrite (wf_dense _ Hwf). lia.
  - rewrite lookup_insert_ne by done. apply (wf_nonempty _ Hwf).
  - unfold Len in *. simpl. rewrite map_size_insert_None by done. lia.
  - rewrite !map_size_insert_None by done. by rewrite (wf_size _ Hwf).
  - lia.
Qed.


Lemma StringToId_Len s m : (Len m ≤ Len (StringToId s m).2 ≤ S (Len m))%nat.
Proof.
  unfold StringToId. case_decide; [simpl; lia|].
  destruct (s_map m !! s) eqn:E; simpl; [lia|].
  unfold Len; simpl. rewrite map_size_insert_None by done. lia.
Qed.

Lemma StringToId_i_map_mono s m :
  idmap_wf m → Z.of_nat (Len m) < maxInt32 → i_map m ⊆ i_map (StringToId s m).2.
Proof.
  intros Hwf Hcap. unfold StringToId. case_decide; [done|].
  destruct (s_map m !! s) eqn:E; simpl; [done|].
  destruct (idmap_wf_fresh m s Hwf E) as [Hi _].
  pose proof (wf_len _ Hwf). pose proof (wf_range _ Hwf).
  rewrite wrap32_id by (unfold minInt32, maxInt32 in *; lia).
  by apply insert_subseteq.
Qed.

Lemma idmap_wf_ids m id :
  idmap_wf m → (∃ s, s_map m !! s = Some id) ↔ 1 ≤ id ≤ Z.of_nat (Len m).
Proof.
  intros Hwf. rewrite (wf_len _ Hwf), <-(wf_dense _ Hwf). unfold is_Some.
  split; intros [s Hs]; exists s; by apply (wf_inverse _ Hwf).
Qed.

(** A new name receives the next id. *)
Lemma StringToId_fresh m s :
  idmap_wf m → Z.of_nat (Len m) < maxInt32 → s ≠ "" → s_map m !! s = None →
  idmap_wf (StringToId s m).2 ∧
  (StringToId s m).1 = Z.of_nat (Len m) + 1 ∧
  Len (StringToId s m).2 = S (Len m).
Proof.
  intros Hwf Hcap Hs Hnew. split; [by apply StringToId_wf|].
  rewrite StringToId_new by done. simpl.
  pose proof (wf_len _ Hwf). pose proof (wf_range _ Hwf).
  rewrite wrap32_id by (unfold minInt32, maxInt32 in *; lia).
  split; [lia|]. unfold Len; simpl. by rewrite map_size_insert_None.
Qed.

(** C9: every intern operation preserves the invariant of the name-id
    map (the two maps are mutually inverse, the ids in use are exactly
    1..Len); interning the empty string returns 0 and changes nothing; a
    new name receives the next id, Len+1; the maps only grow, so a name
    keeps its id.  The counter is an [int32]: the map holds fewer than
    [maxInt32] names. *)
Theorem C9_intern_invariant (m : stringIdMap) (s : string) :
  idmap_wf m → Z.of_nat (Len m) < maxInt32 →
  let id := (StringToId s m).1 in
  let m' := (StringToId s m).2 in
  idmap_wf m'
  ∧ (s = "" → id = 0 ∧ m' = m)
  ∧ (s ≠ "" → s_map m' !! s = Some id ∧ i_map m' !! id = Some s)
  ∧ (s ≠ "" → s_map m !! s = None →
       id = Z.of_nat (Len m) + 1 ∧ Len m' = S (Len m))
  ∧ (∀ id', (∃ s', s_map m' !! s' = Some id') ↔ 1 ≤ id' ≤ Z.of_nat (Len m'))
  ∧ s_map m ⊆ s_map m' ∧ i_map m ⊆ i_map m' ∧ (Len m ≤ Len m')%nat.
Proof.
  intros Hwf Hcap id m'.
  assert (idmap_wf m') as Hwf' by by apply StringToId_wf.
  split_and!.
  - done.
  - intros ->. done.
  - intros Hs. assert (s_map m' !! s = Some id) as Hid by by apply StringToId_lookup.
    split; [done|]. by apply (wf_inverse _ Hwf').
  - intros Hs Hnew. subst id m'. rewrite StringToId_new by done. simpl.
    pose proof (wf_len _ Hwf). pose proof (wf_range _ Hwf).
    rewrite wrap32_id by (unfold minInt32, maxInt32 in *; lia).
    split; [lia|]. unfold Len; simpl. by rewrite map_size_insert_None.
  - intros id'. by apply idmap_wf_ids.
  - apply StringToId_s_map_mono.
  - by apply StringToId_i_map_mono.
  - apply StringToId_Len.
Qed.

Lemma C9_intern_invariant_witness :
  idmap_wf newStringIdMap ∧ Z.of_nat (Len newStringIdMap) < maxInt32 ∧
  let id := (StringToId "A-1.0.0" newStringIdMap).1 in
  let m' := (StringToId "A-1.0.0" newStringIdMap).2 in
  idmap_wf m'
  ∧ ("A-1.0.0" = "" → id = 0 ∧ m' = newStringIdMap)
  ∧ ("A-1.0.0" ≠ "" → s_map m' !! "A-1.0.0" = Some id ∧ i_map m' !! id = Some "A-1.0.0")
  ∧ ("A-1.0.0" ≠ "" → s_map newStringIdMap !! "A-1.0.0" = None →
       id = Z.of_nat (Len newStringIdMap) + 1 ∧ Len m' = S (Len newStringIdMap))
  ∧ (∀ id', (∃ s', s_map m' !! s' = Some id') ↔ 1 ≤ id' ≤ Z.of_nat (Len m'))
  ∧ s_map newStringIdMap ⊆ s_map m' ∧ i_map newStringIdMap ⊆ i_map m'
  ∧ (Len newStringIdMap ≤ Len m')%nat.
Proof.
  split; [apply newStringIdMap_wf|].
  split; [by vm_compute|].
  apply (C9_intern_invariant newStringIdMap "A-1.0.0");
    [apply newStringIdMap_wf | by vm_compute].
Defined.

Lemma internAll_Len names m :
  (Len m ≤ Len (internAll names m) ≤ Len m + length names)%nat.
Proof.
  revert m. induction names as [|s names IH]; intros m; simpl; [lia|].
  pose proof (StringToId_Len s m). specialize (IH (StringToId s m).2).
  unfold internAll in *. simpl. lia.
Qed.

Lemma internAll_wf names m :
  idmap_wf m → Z.of_nat (Len m + length names) ≤ maxInt32 →
  idmap_wf (internAll names m).
Proof.
  revert m. induction names as [|s names IH]; intros m Hwf Hcap; simpl in *; [done|].
  pose proof (StringToId_Len s m).
  apply IH; [apply StringToId_wf; [done|lia]|lia].
Qed.

(** ** Pairwise conflict clauses *)

Lemma mulRangeFrom_snoc a k :
  mulRangeFrom a (S k) = mulRangeFrom a k * (a + Z.of_nat k).
Proof.
  revert a. induction k as [|k IH]; intros a.
  - simpl. lia.
  - change (mulRangeFrom a (S (S k))) with (a * mulRangeFrom (a + 1) (S k)).
    rewrite IH. simpl. lia.
Qed.

Lemma mulRangeFrom_pos a k : 0 < a → 0 < mulRangeFrom a k.
Proof.
  revert a. induction k as [|k IH]; intros a Ha; simpl; [lia|].
  apply Z.mul_pos_pos; [done|]. apply IH. lia.
Qed.

Lemma MulRange_1 n : 0 ≤ n → MulRange 1 n = mulRangeFrom 1 (Z.to_nat n).
Proof.
  intros Hn. unfold MulRange.
  destruct (n <? 1) eqn:E.
  - apply Z.ltb_lt in E. by replace n with 0 by lia.
  - simpl. f_equal. lia.
Qed.

(** [numCombos n] is the number of pairs, as long as it fits an [int64]. *)
Lemma numCombos_pairs n :
  2 ≤ n < 2 ^ 32 → numCombos n = (n * (n - 1)) `div` 2.
Proof.
  intros Hn. unfold numCombos.
  rewrite !MulRange_1 by lia.
  replace (Z.to_nat n) with (S (S (Z.to_nat (n - 2)))) by lia.
  rewrite !mulRangeFrom_snoc.
  set (F := mulRangeFrom 1 (Z.to_nat (n - 2))).
  assert (0 < F) by (apply mulRangeFrom_pos; lia).
  replace (1 + Z.of_nat (Z.to_nat (n - 2))) with (n - 1) by lia.
  replace (1 + Z.of_nat (S (Z.to_nat (n - 2)))) with n by lia.
  replace (F * (n - 1) * n) with (F * (n * (n - 1))) by ring.
  rewrite Z.div_mul_cancel_l by lia.
  apply wrap64_id. split.
  - pose proof (Z.div_pos (n * (n - 1)) 2). nia.
  - apply Z.div_lt_upper_bound; [lia|]. nia.
Qed.

Lemma pairwise_length lits :
  2 * Z.of_nat (length (pairwise lits)) =
  Z.of_nat (length lits) * (Z.of_nat (length lits) - 1).
Proof.
  induction lits as [|a rest IH]; [done|].
  cbn [pairwise length]. rewrite length_app, length_fmap. nia.
Qed.

Lemma pairwise_count lits :
  Z.of_nat (length (pairwise lits)) =
  (Z.of_nat (length lits) * (Z.of_nat (length lits) - 1)) `div` 2.
Proof.
  rewrite <-pairwise_length. by rewrite Z.mul_comm, Z.div_mul.
Qed.

Lemma pairwise_short lits : (length lits ≤ 1)%nat → pairwise lits = [].
Proof. destruct lits as [|a [|b rest]]; simpl; [done|done|lia]. Qed.

Lemma store_app {A} w (pre : list A) (x y : A) (post : list A) :
  store w (pre ++ y :: post) (length pre) x = Ret (pre ++ x :: post).
Proof.
  unfold store. rewrite decide_True by (rewrite length_app; simpl; lia).
  f_equal. rewrite insert_app_r_alt by lia.
  by replace (length pre - length pre)%nat with O by lia.
Qed.

(** Filling a row of [clauses] that has room left. *)
Lemma conflictFill_ok (c : nat → list Literal) ys pre k :
  (length ys ≤ k)%nat →
  foldM (λ '(clauses, i) y,
           clauses ← store AtClauses clauses i (c y);
           Ret (clauses, S i))
        (pre ++ replicate k [], length pre) ys =
  Ret (pre ++ (c <$> ys) ++ replicate (k - length ys) [], (length pre + length ys)%nat).
Proof.
  revert pre k. induction ys as [|y ys IH]; intros pre k Hk; simpl in *.
  - by rewrite Nat.sub_0_r, Nat.add_0_r.
  - destruct k as [|k]; [lia|]. simpl.
    rewrite store_app. simpl.
    specialize (IH (pre ++ [c y]) k). rewrite length_app in IH. simpl in IH.
    rewrite <-(assoc_L (++)) in IH. simpl in IH.
    replace (S (length pre)) with (length pre + 1)%nat by lia.
    rewrite IH by lia. do 2 f_equal; [|lia].
    by rewrite <-(assoc_L (++)).
Qed.

Lemma conflictRow_ok lits x pre k :
  let row := conflictPair lits x <$> seq (S x) (length lits - S x) in
  (length row ≤ k)%nat →
  conflictRow lits (length lits) (pre ++ replicate k [], length pre) x =
  Ret (pre ++ row ++ replicate (k - length row) [], (length pre + length row)%nat).
Proof.
  intros row Hk. unfold conflictRow, row in *. rewrite length_fmap in *.
  by rewrite (conflictFill_ok (conflictPair lits x)).
Qed.

Lemma conflictRows_ok lits xs pre k :
  (length (rows lits xs) ≤ k)%nat →
  foldM (conflictRow lits (length lits)) (pre ++ replicate k [], length pre) xs =
  Ret (pre ++ rows lits xs ++ replicate (k - length (rows lits xs)) [],
       (length pre + length (rows lits xs))%nat).
Proof.
  revert pre k. induction xs as [|x xs IH]; intros pre k Hk.
  - simpl. by rewrite Nat.sub_0_r, Nat.add_0_r.
  - unfold rows in *. cbn [mbind list_bind] in Hk |- *.
    rewrite length_app in Hk.
    cbn [foldM]. rewrite conflictRow_ok by lia. cbn [mbind outcome_bind].
    set (row := conflictPair lits x <$> seq (S x) (length lits - S x)) in *.
    specialize (IH (pre ++ row) (k - length row)%nat).
    rewrite length_app, <-(assoc_L (++)) in IH. rewrite IH by lia.
    rewrite length_app. do 2 f_equal; [|lia].
    rewrite <-!(assoc_L (++)). by rewrite Nat.sub_add_distr.
Qed.

Lemma fmap_nth_seq {B} (f : Literal → B) (t : list Literal) :
  (λ y, f (nth y t 0)) <$> seq 0 (length t) = f <$> t.
Proof.
  induction t as [|a t IH]; [done|].
  cbn [length seq fmap list_fmap]. simpl. f_equal.
  rewrite <-fmap_S_seq, <-list_fmap_compose. apply IH.
Qed.

Lemma rows_shift a t xs : rows (a :: t) (S <$> xs) = rows t xs.
Proof.
  unfold rows. induction xs as [|x xs IH]; [done|].
  cbn [fmap list_fmap mbind list_bind]. rewrite IH. f_equal.
  cbn [length]. replace (S (length t) - S (S x))%nat with (length t - S x)%nat by lia.
  rewrite <-(fmap_S_seq (S x)), <-list_fmap_compose. done.
Qed.

Lemma rows_pairwise lits : rows lits (seq 0 (length lits - 1)) = pairwise lits.
Proof.
  induction lits as [|a t IH]; [done|].
  cbn [length pairwise]. rewrite <-IH.
  replace (S (length t) - 1)%nat with (length t) by lia.
  destruct t as [|b t']; [done|].
  remember (b :: t') as t eqn:Ht.
  assert (length t = S (length t - 1)) as -> by (subst t; simpl; lia).
  cbn [seq]. rewrite <-fmap_S_seq.
  unfold rows at 1. cbn [mbind list_bind]. fold (rows (a :: t) (S <$> seq 0 (length t - 1))).
  rewrite rows_shift. f_equal.
  - cbn [length]. replace (S (length t) - 1)%nat with (length t) by lia.
    rewrite <-fmap_S_seq, <-list_fmap_compose.
    apply (fmap_nth_seq (λ b, [wrap32 (- a); wrap32 (- b)])).
  - by replace (S (length t - 1) - 1)%nat with (length t - 1)%nat by lia.
Qed.

(** [buildConflictClauses] returns the pairs of its argument; the count
    computed by [numCombos] is exactly the room the loops need. *)
Lemma buildConflictClauses_ok lits :
  Z.of_nat (length lits) < 2 ^ 32 →
  buildConflictClauses lits = Ret (pairwise lits).
Proof.
  intros Hcap. unfold buildConflictClauses.
  destruct (length lits <=? 1)%nat eqn:E.
  - apply Nat.leb_le in E. by rewrite pairwise_short.
  - apply Nat.leb_gt in E.
    rewrite numCombos_pairs by lia. rewrite <-pairwise_count.
    unfold make. rewrite (proj2 (Z.ltb_ge _ _)) by lia.
    cbn [mbind outcome_bind]. rewrite Nat2Z.id.
    pose proof (conflictRows_ok lits (seq 0 (length lits - 1)) []
                  (length (pairwise lits))) as Hrows.
    rewrite rows_pairwise in Hrows. simpl in Hrows. rewrite Hrows by lia.
    cbn [mbind outcome_bind]. rewrite Nat.sub_diag. simpl. by rewrite app_nil_r.
Qed.

(** ** The encoder: walking the index *)

Lemma internAll_app a b m : internAll (a ++ b) m = internAll b (internAll a m).
Proof. unfold internAll. by rewrite foldl_app. Qed.

Lemma addAll_app a b pm : addAll (a ++ b) pm = addAll b (addAll a pm).
Proof. unfold addAll. by rewrite foldl_app. Qed.

(** The id handed out for a name is the id of that name in every later
    state of the map. *)
Lemma StringToId_stable s m final :
  s_map (StringToId s m).2 ⊆ s_map final →
  (StringToId s m).1 = (StringToId s final).1.
Proof.
  intros Hsub. destruct (decide (s = "")) as [->|Hs]; [done|].
  pose proof (StringToId_lookup s m Hs) as Hid.
  eapply lookup_weaken in Hid; [|done].
  by rewrite (StringToId_known final s _ Hs Hid).
Qed.

Lemma groupLoop_spec final G clause m pm :
  s_map (internAll (PackageName <$> G) m) ⊆ s_map final →
  foldl (λ '(clause, idMap, prodMap) ver,
           let '(cid, idMap) := StringToId (PackageName ver) idMap in
           (clause ++ [cid], idMap, Add ver prodMap))
        (clause, m, pm) G =
  (clause ++ (idOf final <$> G), internAll (PackageName <$> G) m, addAll G pm).
Proof.
  revert clause m pm. induction G as [|ver G IH]; intros clause m pm Hsub.
  - simpl. by rewrite app_nil_r.
  - cbn [foldl fmap list_fmap]. cbn [fmap list_fmap] in Hsub.
    change (internAll (PackageName ver :: (PackageName <$> G)) m)
      with (internAll (PackageName <$> G) (StringToId (PackageName ver) m).2) in Hsub |- *.
    destruct (StringToId (PackageName ver) m) as [cid m1] eqn:E.
    simpl in Hsub |- *. rewrite IH by done.
    rewrite <-(assoc_L (++)). simpl. do 3 f_equal.
    unfold idOf. rewrite <-(StringToId_stable _ m); rewrite E; [done|].
    simpl. etrans; [apply (internAll_s_map_mono (PackageName <$> G))|done].
Qed.

Lemma addGroups_spec final tid Gs m pm clauses :
  s_map (internAll (PackageName <$> concat Gs) m) ⊆ s_map final →
  foldl (addGroup tid) (m, pm, clauses) Gs =
  (internAll (PackageName <$> concat Gs) m, addAll (concat Gs) pm,
   clauses ++ ((λ G, wrap32 (- tid) :: (idOf final <$> G)) <$> Gs)).
Proof.
  revert m pm clauses. induction Gs as [|G Gs IH]; intros m pm clauses Hsub.
  - simpl. by rewrite app_nil_r.
  - cbn [foldl concat] in *. rewrite fmap_app, internAll_app in Hsub.
    unfold addGroup at 2. rewrite (groupLoop_spec final).
    + rewrite IH by done.
      rewrite fmap_app, internAll_app, addAll_app, <-(assoc_L (++)). done.
    + etrans; [apply (internAll_s_map_mono (PackageName <$> concat Gs))|done].
Qed.

Lemma walk_spec final index m pm clauses :
  s_map (internAll (PackageName <$> indexPackages index) m) ⊆ s_map final →
  foldl addDependency (m, pm, clauses) index =
  (internAll (PackageName <$> indexPackages index) m,
   addAll (indexPackages index) pm,
   clauses ++ depClauses final index).
Proof.
  revert m pm clauses. induction index as [|dep index IH]; intros m pm clauses Hsub.
  - simpl. by rewrite app_nil_r.
  - unfold indexPackages, depClauses in *. cbn [foldl mbind list_bind] in *.
    fold (indexPackages index) in *. fold (depClauses final index).
    rewrite fmap_app, internAll_app in Hsub. cbn [fmap list_fmap] in Hsub.
    change (internAll (PackageName (Target dep) :: (PackageName <$> concat (Requires dep))) m)
      with (internAll (PackageName <$> concat (Requires dep))
              (StringToId (PackageName (Target dep)) m).2) in Hsub.
    unfold addDependency at 2.
    destruct (StringToId (PackageName (Target dep)) m) as [tid m1] eqn:E.
    simpl in Hsub.
    assert (s_map (internAll (PackageName <$> concat (Requires dep)) m1) ⊆ s_map final)
      as Hsub1.
    { etrans; [apply (internAll_s_map_mono (PackageName <$> indexPackages index))|done]. }
    rewrite (addGroups_spec final) by done.
    rewrite IH by done.
    rewrite fmap_app, internAll_app, addAll_app, <-(assoc_L (++)).
    cbn [fmap list_fmap].
    change (internAll (PackageName (Target dep) :: (PackageName <$> concat (Requires dep))) m)
      with (internAll (PackageName <$> concat (Requires dep))
              (StringToId (PackageName (Target dep)) m).2).
    rewrite E. simpl. do 4 f_equal.
    unfold idOf. rewrite <-(StringToId_stable _ m); rewrite E; [done|].
    simpl. etrans; [apply (internAll_s_map_mono (PackageName <$> concat (Requires dep)))|done].
Qed.

(** ** The product map *)

Lemma elem_of_range {A} (ord : MapOrder) (m : gmap string A) k v :
  (k, v) ∈ range ord m ↔ m !! k = Some v.
Proof. by rewrite (range_perm ord), elem_of_map_to_list. Qed.

Lemma length_range {A} (ord : MapOrder) (m : gmap string A) :
  length (range ord m) = size m.
Proof. by rewrite (range_perm ord), length_map_to_list. Qed.

Lemma range_empty {A} (ord : MapOrder) : range ord (∅ : gmap string A) = [].
Proof. apply Permutation_nil. by rewrite (range_perm ord), map_to_list_empty. Qed.

Lemma elem_of_range_values {A} (ord : MapOrder) (m : gmap string A) v :
  v ∈ (range ord m).*2 ↔ ∃ k, m !! k = Some v.
Proof.
  rewrite list_elem_of_fmap. split.
  - intros [[k v'] [-> Hin]]. exists k. simpl. by apply (elem_of_range ord).
  - intros [k Hk]. exists (k, v). split; [done|]. by apply elem_of_range.
Qed.

Lemma NewProductMap_ok N : prodmap_ok N NewProductMap.
Proof. split; simpl; intros *; by rewrite lookup_empty. Qed.

Lemma Add_ok N p pm :
  prodmap_ok N pm → PackageName p ∈ N → prodmap_ok N (Add p pm).
Proof.
  intros [Hpk Hpr] HN. split; unfold Add; simpl.
  - intros name q. destruct (decide (PackageName p = name)) as [<-|Hne].
    + rewrite lookup_insert_eq. by intros [= <-].
    + rewrite lookup_insert_ne by done. apply Hpk.
  - intros prod set name q Hset Hq.
    assert (is_Some (pkgs pm !! name) → is_Some (<[PackageName p := p]> (pkgs pm) !! name))
      as Hkeep.
    { intros Hsome. destruct (decide (PackageName p = name)) as [<-|Hne].
      - rewrite lookup_insert_eq. eauto.
      - by rewrite lookup_insert_ne. }
    destruct (decide (ProductName p = prod)) as [<-|Hprod].
    + rewrite lookup_insert_eq in Hset. injection Hset as <-.
      destruct (decide (PackageName p = name)) as [<-|Hne].
      * assert (q = p) as ->.
        { destruct (prods pm !! ProductName p);
            [rewrite lookup_insert_eq in Hq|rewrite lookup_singleton_eq in Hq];
            congruence. }
        rewrite lookup_insert_eq. eauto.
      * destruct (prods pm !! ProductName p) as [set0|] eqn:E.
        -- rewrite lookup_insert_ne in Hq by done.
           destruct (Hpr _ _ _ _ E Hq) as (? & ? & ? & ?). eauto.
        -- by rewrite lookup_singleton_ne in Hq.
    + rewrite lookup_insert_ne in Hset by done.
      destruct (Hpr _ _ _ _ Hset Hq) as (? & ? & ? & ?). eauto.
Qed.

Lemma addAll_ok N ps pm :
  prodmap_ok N pm → (∀ p, p ∈ ps → PackageName p ∈ N) → prodmap_ok N (addAll ps pm).
Proof.
  revert pm. induction ps as [|p ps IH]; intros pm Hok HN; simpl; [done|].
  apply IH; [apply Add_ok; [done|]|]; intros; apply HN; set_solver.
Qed.

Lemma Add_reg_self p pm : reg p (Add p pm).
Proof.
  unfold reg, Add; simpl. rewrite !lookup_insert_eq. split; [eauto|].
  eexists; split; [done|].
  destruct (prods pm !! ProductName p);
    [rewrite lookup_insert_eq|rewrite lookup_singleton_eq]; eauto.
Qed.

Lemma Add_reg_mono p q pm : reg p pm → reg p (Add q pm).
Proof.
  intros [Hpk (set & Hset & Hin)]. unfold reg, Add; simpl. split.
  - destruct (decide (PackageName q = PackageName p)) as [->|Hne].
    + rewrite lookup_insert_eq. eauto.
    + by rewrite lookup_insert_ne.
  - destruct (decide (ProductName q = ProductName p)) as [Heq|Hne].
    + rewrite Heq, lookup_insert_eq, Hset. eexists; split; [done|].
      destruct (decide (PackageName q = PackageName p)) as [->|Hne].
      * rewrite lookup_insert_eq. eauto.
      * by rewrite lookup_insert_ne.
    + rewrite lookup_insert_ne by done. eauto.
Qed.

Lemma addAll_reg_mono p ps pm : reg p pm → reg p (addAll ps pm).
Proof.
  revert pm. induction ps as [|q ps IH]; intros pm Hreg; simpl; [done|].
  by apply IH, Add_reg_mono.
Qed.

Lemma addAll_reg p ps pm : p ∈ ps → reg p (addAll ps pm).
Proof.
  revert pm. induction ps as [|q ps IH]; intros pm Hin; [by apply elem_of_nil in Hin|].
  apply elem_of_cons in Hin as [->|Hin]; simpl.
  - apply addAll_reg_mono, Add_reg_self.
  - by apply IH.
Qed.

Lemma reg_registered N ord p pm :
  prodmap_ok N pm → reg p pm → registered ord p pm.
Proof.
  intros Hok [[q Hq] (set & Hset & [q' Hq'])]. split.
  - exists q. unfold PackageByName. rewrite Hq. split; [done|].
    by apply (ok_pkgs _ _ Hok) in Hq as [_ ?].
  - exists (range ord set).*2, q'. unfold PackagesOf. rewrite Hset.
    split; [done|]. split; [apply elem_of_range_values; eauto|].
    destruct (ok_prods _ _ Hok _ _ _ _ Hset Hq') as (_ & ? & ? & _). done.
Qed.


(** ** Flattening and the preload *)

Lemma foldl_concat {A B} (f : B → A → B) (b : B) (ls : list (list A)) :
  foldl (λ b l, foldl f b l) b ls = foldl f b (concat ls).
Proof.
  revert b. induction ls as [|l ls IH]; intros b; simpl; [done|].
  by rewrite IH, foldl_app.
Qed.

Lemma flatten_fold (packMap : gmap string Packager) deps :
  foldl (λ packMap d,
           let packMap := <[PackageName (Target d) := Target d]> packMap in
           foldl (λ packMap verList,
                    foldl (λ packMap ver, <[PackageName ver := ver]> packMap)
                          packMap verList)
                 packMap (Requires d))
        packMap deps =
  foldl (λ packMap p, <[PackageName p := p]> packMap) packMap (indexPackages deps).
Proof.
  revert packMap. induction deps as [|d deps IH]; intros packMap; [done|].
  unfold indexPackages. cbn [foldl mbind list_bind]. fold (indexPackages deps).
  rewrite IH, foldl_app. cbn [foldl]. by rewrite foldl_concat.
Qed.

Lemma flattenDependencies_packMap ord deps :
  flattenDependencies ord deps = (range ord (packMapOf (indexPackages deps))).*2.
Proof. unfold flattenDependencies, packMapOf. by rewrite flatten_fold. Qed.

Lemma flattenDependencies_nil ord : flattenDependencies ord [] = [].
Proof.
  unfold flattenDependencies. simpl.
  by rewrite (range_empty (A:=Packager) ord).
Qed.

Lemma packMap_fold_lookup ps (m0 : gmap string Packager) name p :
  foldl (λ packMap p, <[PackageName p := p]> packMap) m0 ps !! name = Some p →
  (PackageName p = name ∧ p ∈ ps) ∨ m0 !! name = Some p.
Proof.
  revert m0. induction ps as [|q ps IH]; intros m0 Hp; simpl in *; [by right|].
  apply IH in Hp as [[? ?]|Hp]; [left; split; [done|set_solver]|].
  destruct (decide (PackageName q = name)) as [<-|Hne].
  - rewrite lookup_insert_eq in Hp. injection Hp as ->. left. split; [done|set_solver].
  - rewrite lookup_insert_ne in Hp by done. by right.
Qed.

Lemma packMapOf_lookup ps name p :
  packMapOf ps !! name = Some p → PackageName p = name ∧ p ∈ ps.
Proof.
  intros [?|Hp]%packMap_fold_lookup; [done|]. by rewrite lookup_empty in Hp.
Qed.

Lemma packMap_fold_dom ps (m0 : gmap string Packager) :
  dom (foldl (λ packMap p, <[PackageName p := p]> packMap) m0 ps) =
  dom m0 ∪ list_to_set (PackageName <$> ps).
Proof.
  revert m0. induction ps as [|q ps IH]; intros m0; simpl.
  - set_solver.
  - rewrite IH, dom_insert_L. set_solver.
Qed.

Lemma packMapOf_dom ps : dom (packMapOf ps) = list_to_set (PackageName <$> ps).
Proof. unfold packMapOf. rewrite packMap_fold_dom, dom_empty_L. set_solver. Qed.

(** The names of the packages a map holds under their own names are its keys. *)
Lemma range_names ord (pmap : gmap string Packager) :
  (∀ name p, pmap !! name = Some p → PackageName p = name) →
  PackageName <$> (range ord pmap).*2 = (range ord pmap).*1.
Proof.
  intros Hkeys. rewrite <-list_fmap_compose. apply list_fmap_ext.
  intros j [name p] Hj. simpl. apply Hkeys.
  apply (elem_of_range ord). by eapply list_elem_of_lookup_2.
Qed.

Lemma range_keys {A} ord (m : gmap string A) : (range ord m).*1 ≡ₚ elements (dom m).
Proof.
  rewrite (range_perm ord). apply NoDup_Permutation.
  - apply NoDup_fst_map_to_list.
  - apply NoDup_elements.
  - intros k. rewrite elem_of_elements, elem_of_dom, list_elem_of_fmap. split.
    + intros [[k' v] [-> Hin]]. apply elem_of_map_to_list in Hin. eauto.
    + intros [v Hv]. exists (k, v). split; [done|]. by apply elem_of_map_to_list.
Qed.

(** [flattenDependencies] returns one package for each name the index
    refers to. *)
Lemma flattenDependencies_names ord index :
  PackageName <$> flattenDependencies ord index ≡ₚ elements (indexNames index).
Proof.
  rewrite flattenDependencies_packMap, range_names.
  - rewrite range_keys. by rewrite packMapOf_dom.
  - intros name p Hp. by apply packMapOf_lookup in Hp as [? _].
Qed.

Lemma flattenDependencies_elem ord index p :
  p ∈ flattenDependencies ord index → p ∈ indexPackages index.
Proof.
  rewrite flattenDependencies_packMap. intros [name Hp]%elem_of_range_values.
  by apply packMapOf_lookup in Hp as [_ ?].
Qed.

Lemma preload_internAll ord sortMode index m :
  preload ord sortMode index m = internAll (preloadNames ord sortMode index) m.
Proof.
  unfold preload, preloadNames, internAll.
  destruct sortMode; simpl; [done|..]; by rewrite foldl_fmap.
Qed.

Lemma preloadNames_elem ord sortMode index s :
  s ∈ preloadNames ord sortMode index → s ∈ indexNames index.
Proof.
  assert (∀ flat, flat ≡ₚ flattenDependencies ord index →
                  s ∈ PackageName <$> flat → s ∈ indexNames index) as Hflat.
  { intros flat Hperm. rewrite Hperm, flattenDependencies_names. apply elem_of_elements. }
  destruct sortMode; simpl.
  - by intros ?%elem_of_nil.
  - apply Hflat, merge_sort_Permutation.
  - apply Hflat, merge_sort_Permutation.
Qed.

(** ** The encoder: conflicts and the whole of [Initialize] *)

Lemma packagesToIds_gen final a ids m :
  s_map (internAll (PackageName <$> a) m) ⊆ s_map final →
  foldl (λ '(ids, idMap) s,
           let '(id, idMap) := StringToId (PackageName s) idMap in
           (ids ++ [id], idMap))
        (ids, m) a =
  (ids ++ (idOf final <$> a), internAll (PackageName <$> a) m).
Proof.
  revert ids m. induction a as [|p a IH]; intros ids m Hsub.
  - simpl. by rewrite app_nil_r.
  - cbn [foldl fmap list_fmap] in *.
    change (internAll (PackageName p :: (PackageName <$> a)) m)
      with (internAll (PackageName <$> a) (StringToId (PackageName p) m).2) in Hsub |- *.
    destruct (StringToId (PackageName p) m) as [id m1] eqn:E.
    simpl in Hsub |- *. rewrite IH by done.
    rewrite <-(assoc_L (++)). simpl. do 3 f_equal.
    unfold idOf. rewrite <-(StringToId_stable _ m); rewrite E; [done|].
    simpl. etrans; [apply (internAll_s_map_mono (PackageName <$> a))|done].
Qed.

Lemma packagesToIds_spec final a m :
  s_map (internAll (PackageName <$> a) m) ⊆ s_map final →
  packagesToIds a m = (idOf final <$> a, internAll (PackageName <$> a) m).
Proof. intros Hsub. unfold packagesToIds. by rewrite (packagesToIds_gen final). Qed.

Lemma internAll_noop names m :
  (∀ s, s ∈ names → s = "" ∨ is_Some (s_map m !! s)) → internAll names m = m.
Proof.
  induction names as [|s names IH]; intros Hknown; [done|].
  change (internAll (s :: names) m) with (internAll names (StringToId s m).2).
  assert ((StringToId s m).2 = m) as ->.
  { destruct (Hknown s) as [->|[id Hid]]; [set_solver|done|].
    destruct (decide (s = "")) as [->|Hs]; [done|].
    by rewrite (StringToId_known m s id). }
  apply IH. intros s' Hs'. apply Hknown. set_solver.
Qed.

Lemma internAll_dom names m s :
  s ∈ names → s ≠ "" → is_Some (s_map (internAll names m) !! s).
Proof.
  revert m. induction names as [|s' names IH]; intros m Hin Hs;
    [by apply elem_of_nil in Hin|].
  change (internAll (s' :: names) m) with (internAll names (StringToId s' m).2).
  apply elem_of_cons in Hin as [->|Hin]; [|by apply IH].
  pose proof (StringToId_lookup s' m Hs) as Hid.
  eapply lookup_weaken in Hid; [|apply (internAll_s_map_mono names)]. eauto.
Qed.

Lemma conflictLoop_spec ord final pm es m clauses :
  Forall (λ e, prods pm !! e.1 = Some e.2 ∧ Z.of_nat (size e.2) < 2 ^ 32) es →
  s_map (internAll (PackageName <$> (es ≫= λ e, (range ord e.2).*2)) m) ⊆ s_map final →
  foldM (addConflicts ord pm) (m, clauses) es =
  Ret (internAll (PackageName <$> (es ≫= λ e, (range ord e.2).*2)) m,
       clauses ++ (es ≫= λ e, pairwise (idOf final <$> (range ord e.2).*2))).
Proof.
  intros Hes. revert m clauses.
  induction Hes as [|[name set] es [Hset Hsize] Hes IH]; intros m clauses Hsub.
  - simpl. by rewrite app_nil_r.
  - cbn [foldM mbind list_bind] in *. simpl in Hset, Hsize.
    rewrite fmap_app, internAll_app in Hsub.
    unfold addConflicts at 1. simpl. unfold PackagesOf. rewrite Hset.
    rewrite (packagesToIds_spec final).
    2:{ etrans; [|done]. apply internAll_s_map_mono. }
    rewrite buildConflictClauses_ok.
    2:{ by rewrite length_fmap, length_fmap, length_range. }
    cbn [mbind outcome_bind]. rewrite IH by done.
    by rewrite fmap_app, internAll_app, <-(assoc_L (++)).
Qed.

Lemma indexPackages_names index p :
  p ∈ indexPackages index → PackageName p ∈ indexNames index.
Proof.
  intros Hp. unfold indexNames. rewrite elem_of_list_to_set.
  by apply list_elem_of_fmap_2.
Qed.

Lemma index_prodmap_ok index :
  prodmap_ok (indexNames index) (addAll (indexPackages index) NewProductMap).
Proof.
  apply addAll_ok; [apply NewProductMap_ok|]. apply indexPackages_names.
Qed.

Lemma prodmap_ok_size N pm prod set :
  prodmap_ok N pm → prods pm !! prod = Some set → (size set ≤ size N)%nat.
Proof.
  intros Hok Hset. rewrite <-(size_dom (D:=gset string) set).
  apply subseteq_size. intros name [p Hp]%elem_of_dom.
  by destruct (ok_prods _ _ Hok _ _ _ _ Hset Hp) as [? _].
Qed.

(** What [Initialize] leaves behind: the names of the index interned in
    walk order (after the preload), every package of the index added to
    the product map, and a driver holding the dependency clauses followed
    by the at-most-one clauses of every product. *)
Lemma Initialize_spec ord r :
  indexFits (index r) →
  let m := internAll (PackageName <$> indexPackages (index r))
             (preload ord (sortMode r) (index r) newStringIdMap) in
  let pm := addAll (indexPackages (index r)) NewProductMap in
  Initialize ord r =
  Ret (set_solver
         (Some {| adjusted := Z.of_nat (Len m);
                  added := depClauses m (index r) ++ conflictClauses ord m pm;
                  assumed := []; res := Unknown |})
         (set_idMap m (set_prodMap pm r))).
Proof.
  intros Hfits m pm. subst m pm. unfold Initialize.
  destruct (index r) as [|dep deps] eqn:Hindex.
  { rewrite preload_internAll.
    assert (preloadNames ord (sortMode r) [] = []) as ->.
    { destruct (sortMode r); simpl; [done|..]; by rewrite flattenDependencies_nil. }
    simpl. unfold conflictClauses. simpl. by rewrite range_empty. }
  rewrite <-Hindex in *. clear dep deps Hindex.
  set (m := internAll (PackageName <$> indexPackages (index r))
              (preload ord (sortMode r) (index r) newStringIdMap)).
  set (pm := addAll (indexPackages (index r)) NewProductMap).
  rewrite (walk_spec m) by done. fold m pm.
  pose proof (index_prodmap_ok (index r)) as Hok. fold pm in Hok.
  assert (internAll (PackageName <$> (range ord (prods pm) ≫= λ e, (range ord e.2).*2)) m = m)
    as Hnoop.
  { apply internAll_noop. intros s (q & -> & Hq)%list_elem_of_fmap.
    apply list_elem_of_bind in Hq as ([prod set] & Hq & Hset).
    apply elem_of_range in Hset. apply elem_of_range_values in Hq as [name Hq].
    destruct (ok_prods _ _ Hok _ _ _ _ Hset Hq) as (HN & -> & _).
    destruct (decide (name = "")) as [|Hne]; [by left|right].
    apply internAll_dom; [|done].
    by apply elem_of_list_to_set in HN. }
  rewrite (conflictLoop_spec ord m).
  - rewrite Hnoop. done.
  - apply Forall_forall. intros [prod set] Hset. apply elem_of_range in Hset.
    split; [done|]. simpl.
    pose proof (prodmap_ok_size _ _ _ _ Hok Hset). unfold indexFits, maxInt32 in Hfits. lia.
  - by rewrite Hnoop.
Qed.

(** ** Capacity: the ids of an index that fits stay within [int32] *)

Lemma StringToId_wf_bounded (N : gset string) s m :
  idmap_wf m → dom (s_map m) ⊆ N → s ∈ N → Z.of_nat (size N) ≤ maxInt32 →
  idmap_wf (StringToId s m).2 ∧ dom (s_map (StringToId s m).2) ⊆ N.
Proof.
  intros Hwf Hdom Hs HN.
  destruct (decide (s = "")) as [->|Hne]; [done|].
  destruct (s_map m !! s) as [id|] eqn:E.
  { by rewrite (StringToId_known _ _ id). }
  assert (Z.of_nat (Len m) < maxInt32) as Hcap.
  { unfold Len. rewrite <-(size_dom (D:=gset string)).
    assert (size ({[s]} ∪ dom (s_map m) : gset string) ≤ size N)%nat as Hle
      by (apply subseteq_size; set_solver).
    rewrite size_union in Hle by (apply not_elem_of_dom in E; set_solver).
    rewrite size_singleton in Hle. lia. }
  split; [by apply StringToId_wf|].
  rewrite StringToId_new by done. simpl. rewrite dom_insert_L. set_solver.
Qed.

Lemma internAll_wf_bounded (N : gset string) names m :
  idmap_wf m → dom (s_map m) ⊆ N → (∀ s, s ∈ names → s ∈ N) →
  Z.of_nat (size N) ≤ maxInt32 →
  idmap_wf (internAll names m) ∧ dom (s_map (internAll names m)) ⊆ N.
Proof.
  revert m. induction names as [|s names IH]; intros m Hwf Hdom Hnames HN; [done|].
  change (internAll (s :: names) m) with (internAll names (StringToId s m).2).
  destruct (StringToId_wf_bounded N s m) as [Hwf' Hdom']; [done|done|set_solver|done|].
  apply IH; [done|done|set_solver|done].
Qed.

(** The name-id map of an initialized resolver. *)
Lemma index_idMap_wf ord sortMode index :
  indexFits index →
  let m := internAll (PackageName <$> indexPackages index)
             (preload ord sortMode index newStringIdMap) in
  idmap_wf m ∧ dom (s_map m) = indexNames index ∖ {[""]}.
Proof.
  intros Hfits m. subst m. rewrite preload_internAll.
  destruct (internAll_wf_bounded (indexNames index) (preloadNames ord sortMode index)
              newStringIdMap) as [Hwf0 Hdom0];
    [apply newStringIdMap_wf|set_solver|apply preloadNames_elem|done|].
  destruct (internAll_wf_bounded (indexNames index) (PackageName <$> indexPackages index)
              (internAll (preloadNames ord sortMode index) newStringIdMap)) as [Hwf Hdom];
    [done|done| |done|].
  { intros s Hs. unfold indexNames. by rewrite elem_of_list_to_set. }
  split; [done|]. apply set_eq. intros s. split.
  - intros Hs. apply elem_of_difference. split; [by apply Hdom|].
    intros ->%elem_of_singleton. apply elem_of_dom in Hs as [id Hs].
    by rewrite (wf_nonempty _ Hwf) in Hs.
  - intros [Hs Hne]%elem_of_difference. apply elem_of_dom.
    apply internAll_dom; [|set_solver].
    by apply elem_of_list_to_set in Hs.
Qed.

(** ** The clauses in terms of plain negation *)

Lemma idOf_range m p :
  idmap_wf m → PackageName p = "" ∨ is_Some (s_map m !! PackageName p) →
  0 ≤ idOf m p ≤ maxInt32.
Proof.
  intros Hwf Hp. unfold idOf.
  destruct (decide (PackageName p = "")) as [->|Hne].
  { simpl. unfold maxInt32. lia. }
  destruct Hp as [?|[id Hid]]; [done|].
  rewrite (StringToId_known m _ id) by done. simpl.
  pose proof (proj1 (idmap_wf_ids m id Hwf) (ex_intro _ _ Hid)).
  pose proof (wf_len _ Hwf). pose proof (wf_range _ Hwf). lia.
Qed.

Lemma wrap32_opp z : 0 ≤ z ≤ maxInt32 → wrap32 (- z) = - z.
Proof. intros Hz. apply wrap32_id. unfold minInt32, maxInt32 in *. lia. Qed.

Lemma pairwise_atMostOne ids :
  Forall (λ a, 0 ≤ a ≤ maxInt32) ids → pairwise ids = atMostOne ids.
Proof.
  induction 1 as [|a rest Ha Hrest IH]; [done|].
  cbn [pairwise atMostOne]. rewrite IH. f_equal.
  apply list_fmap_ext. intros j b Hb.
  rewrite !wrap32_opp; [done| |done].
  eapply Forall_lookup_1 in Hrest; done.
Qed.

Lemma atMostOne_length ids :
  2 * Z.of_nat (length (atMostOne ids)) =
  Z.of_nat (length ids) * (Z.of_nat (length ids) - 1).
Proof.
  induction ids as [|a rest IH]; [done|].
  cbn [atMostOne length]. rewrite length_app, length_fmap. nia.
Qed.

Lemma atMostOne_count ids :
  Z.of_nat (length (atMostOne ids)) =
  (Z.of_nat (length ids) * (Z.of_nat (length ids) - 1)) `div` 2.
Proof. rewrite <-atMostOne_length. by rewrite Z.mul_comm, Z.div_mul. Qed.

Lemma atMostOne_short ids : (length ids ≤ 1)%nat → atMostOne ids = [].
Proof. destruct ids as [|a [|b rest]]; simpl; [done|done|lia]. Qed.

(** The clauses of [atMostOne] are the pairs of positions [i < j]. *)
Lemma elem_of_atMostOne ids c :
  c ∈ atMostOne ids ↔
  ∃ (i j : nat) a b, (i < j)%nat ∧ ids !! i = Some a ∧ ids !! j = Some b ∧ c = [- a; - b].
Proof.
  induction ids as [|a0 rest IH].
  - split; [by intros ?%elem_of_nil|]. by intros (i' & j & a & b & _ & ? & _).
  - cbn [atMostOne]. rewrite elem_of_app, list_elem_of_fmap, IH. split.
    + intros [(b & -> & Hb)|(i' & j & a & b & Hlt & Hi & Hj & ->)].
      * apply list_elem_of_lookup in Hb as [j Hj].
        exists O, (S j), a0, b. split_and!; [lia|done|done|done].
      * exists (S i'), (S j), a, b. split_and!; [lia|done|done|done].
    + intros (i' & j & a & b & Hlt & Hi & Hj & ->).
      destruct j as [|j]; [lia|]. destruct i' as [|i'].
      * injection Hi as ->. left. exists b. split; [done|].
        by eapply list_elem_of_lookup_2.
      * right. exists i', j, a, b. split_and!; [lia|done|done|done].
Qed.

Lemma index_idOf_range ord sortMode index p :
  indexFits index → p ∈ indexPackages index →
  let m := internAll (PackageName <$> indexPackages index)
             (preload ord sortMode index newStringIdMap) in
  0 ≤ idOf m p ≤ maxInt32.
Proof.
  intros Hfits Hp m.
  destruct (index_idMap_wf ord sortMode index Hfits) as [Hwf Hdom]. fold m in Hwf, Hdom.
  apply idOf_range; [done|].
  destruct (decide (PackageName p = "")) as [|Hne]; [by left|right].
  apply elem_of_dom. rewrite Hdom. apply elem_of_difference.
  split; [by apply indexPackages_names|set_solver].
Qed.

Lemma depClauses_dependencyClauses m index :
  (∀ dep, dep ∈ index → 0 ≤ idOf m (Target dep) ≤ maxInt32) →
  depClauses m index = dependencyClauses m index.
Proof.
  intros Hrange. unfold depClauses, dependencyClauses.
  induction index as [|dep index IH]; [done|].
  cbn [mbind list_bind]. rewrite IH by (intros; apply Hrange; set_solver).
  f_equal. apply list_fmap_ext. intros j G _. unfold depClause.
  rewrite wrap32_opp; [done|]. apply Hrange. set_solver.
Qed.

Lemma list_bind_ext_in {A B} (f g : A → list B) (l : list A) :
  (∀ x, x ∈ l → f x = g x) → l ≫= f = l ≫= g.
Proof.
  induction l as [|x l IH]; intros Hfg; [done|].
  cbn [mbind list_bind]. rewrite Hfg by set_solver. rewrite IH; [done|].
  intros; apply Hfg; set_solver.
Qed.

Lemma Target_indexPackages index dep : dep ∈ index → Target dep ∈ indexPackages index.
Proof.
  intros Hdep. unfold indexPackages. apply list_elem_of_bind.
  exists dep. split; [set_solver|done].
Qed.

Lemma elem_of_concat {A} (x : A) (ls : list (list A)) :
  x ∈ concat ls ↔ ∃ l, x ∈ l ∧ l ∈ ls.
Proof.
  induction ls as [|l ls IH]; simpl.
  - split; [by intros ?%elem_of_nil|]. by intros (l & _ & ?%elem_of_nil).
  - rewrite elem_of_app, IH. split.
    + intros [?|(l' & ? & ?)]; [exists l|exists l']; set_solver.
    + intros (l' & Hx & [->|?]%elem_of_cons); [by left|right; eauto].
Qed.

Lemma group_indexPackages index dep G p :
  dep ∈ index → G ∈ Requires dep → p ∈ G → p ∈ indexPackages index.
Proof.
  intros Hdep HG Hp. unfold indexPackages. apply list_elem_of_bind.
  exists dep. split; [|done]. apply elem_of_cons. right.
  apply elem_of_concat. eauto.
Qed.

(** The formula of an initialized resolver, in the vocabulary of the
    specification. *)
Lemma Initialize_formula ord r :
  indexFits (index r) →
  ∃ r' p, Initialize ord r = Ret r' ∧ solver r' = Some p ∧
    idMap r' = internAll (PackageName <$> indexPackages (index r))
                 (preload ord (sortMode r) (index r) newStringIdMap) ∧
    prodMap r' = addAll (indexPackages (index r)) NewProductMap ∧
    adjusted p = Z.of_nat (Len (idMap r')) ∧ assumed p = [] ∧
    added p = dependencyClauses (idMap r') (index r) ++
              atMostOneClauses ord (idMap r') (prodMap r') ∧
    index r' = index r ∧ requires r' = requires r ∧ sortMode r' = sortMode r ∧
    solution r' = solution r ∧ conflicts r' = conflicts r.
Proof.
  intros Hfits. eexists _, _. split; [by apply Initialize_spec|].
  simpl. split_and!; try done.
  set (m := internAll _ _). set (pm := addAll _ _).
  pose proof (index_prodmap_ok (index r)) as Hok. fold pm in Hok.
  destruct (index_idMap_wf ord (sortMode r) (index r) Hfits) as [Hwf Hdom].
  fold m in Hwf, Hdom.
  cbn [added]. f_equal.
  - apply depClauses_dependencyClauses. intros dep Hdep.
    by apply index_idOf_range, Target_indexPackages.
  - unfold conflictClauses, atMostOneClauses. apply list_bind_ext_in.
    intros [prod set] Hset. apply elem_of_range in Hset.
    unfold PackagesOf. simpl. rewrite Hset. simpl.
    apply pairwise_atMostOne, Forall_fmap, Forall_forall.
    intros q [name Hq]%elem_of_range_values. simpl.
    destruct (ok_prods _ _ Hok _ _ _ _ Hset Hq) as (HN & Hname & _).
    apply idOf_range; [done|]. rewrite Hname.
    destruct (decide (name = "")) as [|Hne]; [by left|right].
    apply elem_of_dom. rewrite Hdom. set_solver.
Qed.

Lemma idOf_GetId m p :
  PackageName p ≠ "" → is_Some (s_map m !! PackageName p) →
  GetId (PackageName p) m = Some (idOf m p).
Proof.
  intros Hne [id Hid]. unfold GetId, idOf.
  by rewrite (StringToId_known m _ id).
Qed.

Lemma index_GetId ord sortMode index p :
  indexFits index → PackageName p ∈ indexNames index → PackageName p ≠ "" →
  let m := internAll (PackageName <$> indexPackages index)
             (preload ord sortMode index newStringIdMap) in
  GetId (PackageName p) m = Some (idOf m p).
Proof.
  intros Hfits Hp Hne m.
  destruct (index_idMap_wf ord sortMode index Hfits) as [_ Hdom]. fold m in Hdom.
  apply idOf_GetId; [done|]. apply elem_of_dom. rewrite Hdom.
  apply elem_of_difference. split; [done|set_solver].
Qed.

Lemma index_registered ord index p :
  p ∈ indexPackages index →
  registered ord p (addAll (indexPackages index) NewProductMap).
Proof.
  intros Hp. eapply reg_registered; [apply index_prodmap_ok|by apply addAll_reg].
Qed.

(** C2: for every product of the product map, with packages
    [q1, ..., qn] as the map enumerates them, [Initialize] hands the
    driver the clauses [not id(qi) or not id(qj)] for the pairs [i < j],
    and no other clause for that product: n(n-1)/2 clauses when n is at
    least 2, none when n is at most 1.  (Ids are [int32]: the index
    mentions at most [maxInt32] names.) *)
Theorem C2_at_most_one_clauses (ord : MapOrder) (r : Resolver) :
  indexFits (index r) →
  ∃ r' p, Initialize ord r = Ret r' ∧ solver r' = Some p ∧
    added p = dependencyClauses (idMap r') (index r) ++
              atMostOneClauses ord (idMap r') (prodMap r') ∧
    ∀ product qs, PackagesOf ord product (prodMap r') = Some qs →
      let n := Z.of_nat (length qs) in
      let emitted := atMostOne (idOf (idMap r') <$> qs) in
      (2 ≤ n → Z.of_nat (length emitted) = (n * (n - 1)) `div` 2) ∧
      (n ≤ 1 → emitted = []) ∧
      (∀ c, c ∈ emitted ↔
            ∃ (x y : nat) qx qy, (x < y)%nat ∧ qs !! x = Some qx ∧ qs !! y = Some qy ∧
              c = [- idOf (idMap r') qx; - idOf (idMap r') qy]) ∧
      (∀ c, c ∈ emitted → c ∈ added p) ∧
      (∀ q, q ∈ qs → PackageName q ≠ "" →
            GetId (PackageName q) (idMap r') = Some (idOf (idMap r') q)).
Proof.
  intros Hfits.
  destruct (Initialize_formula ord r Hfits)
    as (r' & p & Hinit & Hp & Hm & Hpm & _ & _ & Hadded & _).
  exists r', p. split_and!; [done..|].
  intros product qs Hqs n emitted. split_and!.
  - intros _. subst n emitted. by rewrite atMostOne_count, length_fmap.
  - intros Hn. apply atMostOne_short. rewrite length_fmap. lia.
  - intros c. unfold emitted. rewrite elem_of_atMostOne. split.
    + intros (x & y & a & b & Hlt & Hx & Hy & ->).
      rewrite list_lookup_fmap in Hx, Hy.
      destruct (qs !! x) as [qx|] eqn:Ex; [|done].
      destruct (qs !! y) as [qy|] eqn:Ey; [|done].
      injection Hx as <-. injection Hy as <-. by exists x, y, qx, qy.
    + intros (x & y & qx & qy & Hlt & Hx & Hy & ->).
      exists x, y, (idOf (idMap r') qx), (idOf (idMap r') qy).
      rewrite !list_lookup_fmap, Hx, Hy. done.
  - intros c Hc. rewrite Hadded. apply elem_of_app. right.
    unfold atMostOneClauses. apply list_elem_of_bind.
    unfold PackagesOf in Hqs.
    destruct (prods (prodMap r') !! product) as [set|] eqn:E; [|done].
    exists (product, set). split; [|by apply elem_of_range].
    unfold PackagesOf. simpl. rewrite E. simpl. by injection Hqs as <-.
  - intros q Hq Hne. rewrite Hm. apply index_GetId; [done| |done].
    unfold PackagesOf in Hqs. rewrite Hpm in Hqs.
    destruct (prods _ !! product) as [set|] eqn:E; [|done].
    injection Hqs as Hqs. rewrite <-Hqs in Hq.
    apply elem_of_range_values in Hq as [name Hq].
    destruct (ok_prods _ _ (index_prodmap_ok (index r)) _ _ _ _ E Hq) as (HN & Hname & _).
    by rewrite Hname.
Qed.

Lemma C2_at_most_one_clauses_witness :
  indexFits (index (rawResolver [P "A" "2.0.0"] highIndex ResolveSortNone)) ∧
  ∃ r' p,
    Initialize keyOrder (rawResolver [P "A" "2.0.0"] highIndex ResolveSortNone) = Ret r' ∧
    solver r' = Some p ∧
    added p = dependencyClauses (idMap r') highIndex ++
              atMostOneClauses keyOrder (idMap r') (prodMap r') ∧
    ∀ product qs, PackagesOf keyOrder product (prodMap r') = Some qs →
      let n := Z.of_nat (length qs) in
      let emitted := atMostOne (idOf (idMap r') <$> qs) in
      (2 ≤ n → Z.of_nat (length emitted) = (n * (n - 1)) `div` 2) ∧
      (n ≤ 1 → emitted = []) ∧
      (∀ c, c ∈ emitted ↔
            ∃ (x y : nat) qx qy, (x < y)%nat ∧ qs !! x = Some qx ∧ qs !! y = Some qy ∧
              c = [- idOf (idMap r') qx; - idOf (idMap r') qy]) ∧
      (∀ c, c ∈ emitted → c ∈ added p) ∧
      (∀ q, q ∈ qs → PackageName q ≠ "" →
            GetId (PackageName q) (idMap r') = Some (idOf (idMap r') q)).
Proof.
  split; [by vm_compute|].
  apply (C2_at_most_one_clauses keyOrder
           (rawResolver [P "A" "2.0.0"] highIndex ResolveSortNone)).
  by vm_compute.
Defined.

(** C3: for every dependency (T, groups) of the index and every group
    G = [p1, ..., pk] of it, [Initialize] hands the driver one clause,
    [-id(T), id(p1), ..., id(pk)]: the dependency clauses are exactly
    these, one per group in index order, ahead of the at-most-one
    clauses; and T and every pi are registered in the product map.
    (Ids are [int32]: the index mentions at most [maxInt32] names.) *)
Theorem C3_dependency_clauses (ord : MapOrder) (r : Resolver) :
  indexFits (index r) →
  ∃ r' p, Initialize ord r = Ret r' ∧ solver r' = Some p ∧
    added p = dependencyClauses (idMap r') (index r) ++
              atMostOneClauses ord (idMap r') (prodMap r') ∧
    length (dependencyClauses (idMap r') (index r)) = length (index r ≫= Requires) ∧
    ∀ dep, dep ∈ index r →
      registered ord (Target dep) (prodMap r') ∧
      (PackageName (Target dep) ≠ "" →
       GetId (PackageName (Target dep)) (idMap r') = Some (idOf (idMap r') (Target dep))) ∧
      ∀ G, G ∈ Requires dep →
        - idOf (idMap r') (Target dep) :: (idOf (idMap r') <$> G) ∈ added p ∧
        ∀ pi, pi ∈ G →
          registered ord pi (prodMap r') ∧
          (PackageName pi ≠ "" →
           GetId (PackageName pi) (idMap r') = Some (idOf (idMap r') pi)).
Proof.
  intros Hfits.
  destruct (Initialize_formula ord r Hfits)
    as (r' & p & Hinit & Hp & Hm & Hpm & _ & _ & Hadded & _).
  exists r', p. split_and!; [done..| |].
  - unfold dependencyClauses. generalize (index r). intros index.
    induction index as [|dep index IH]; [done|].
    cbn [mbind list_bind]. by rewrite !length_app, length_fmap, IH.
  - intros dep Hdep. rewrite Hpm, Hm. split_and!.
    + by apply index_registered, Target_indexPackages.
    + intros Hne.
      by apply index_GetId; [|apply indexPackages_names, Target_indexPackages|].
    + intros G HG. split.
      * rewrite Hadded, <-Hm. apply elem_of_app. left.
        unfold dependencyClauses. apply list_elem_of_bind. exists dep.
        split; [|done]. by apply (list_elem_of_fmap_2 (depClause _ _)).
      * intros pi Hpi.
        assert (pi ∈ indexPackages (index r)) by by eapply group_indexPackages.
        split; [by apply index_registered|]. intros Hne.
        by apply index_GetId; [|apply indexPackages_names|].
Qed.

Lemma C3_dependency_clauses_witness :
  indexFits (index (rawResolver [P "A" "2.0.0"] solveIndex ResolveSortNone)) ∧
  ∃ r' p,
    Initialize keyOrder (rawResolver [P "A" "2.0.0"] solveIndex ResolveSortNone) = Ret r' ∧
    solver r' = Some p ∧
    added p = dependencyClauses (idMap r') solveIndex ++
              atMostOneClauses keyOrder (idMap r') (prodMap r') ∧
    length (dependencyClauses (idMap r') solveIndex) = length (solveIndex ≫= Requires) ∧
    ∀ dep, dep ∈ solveIndex →
      registered keyOrder (Target dep) (prodMap r') ∧
      (PackageName (Target dep) ≠ "" →
       GetId (PackageName (Target dep)) (idMap r') = Some (idOf (idMap r') (Target dep))) ∧
      ∀ G, G ∈ Requires dep →
        - idOf (idMap r') (Target dep) :: (idOf (idMap r') <$> G) ∈ added p ∧
        ∀ pi, pi ∈ G →
          registered keyOrder pi (prodMap r') ∧
          (PackageName pi ≠ "" →
           GetId (PackageName pi) (idMap r') = Some (idOf (idMap r') pi)).
Proof.
  split; [by vm_compute|].
  apply (C3_dependency_clauses keyOrder
           (rawResolver [P "A" "2.0.0"] solveIndex ResolveSortNone)).
  by vm_compute.
Defined.

(** The formula of [Example_solve]. *)
Example solveIndex_formula :
  formulaOf (NewResolver keyOrder [P "A" "2.0.0"] solveIndex) =
  Some [[-1; 2]; [-3; 4]; [-4; 5]; [-1; -3]; [-2; -4]].
Proof. by vm_compute. Qed.

(** ** Resolving *)

Lemma addRequires_gen final requires m p :
  s_map (internAll (PackageName <$> requires) m) ⊆ s_map final →
  addRequires requires m p =
  (internAll (PackageName <$> requires) m,
   {| adjusted := adjusted p; added := added p;
      assumed := assumed p ++ (idOf final <$> requires); res := res p |}).
Proof.
  unfold addRequires. revert m p.
  induction requires as [|pk requires IH]; intros m p Hsub.
  - simpl. rewrite app_nil_r. by destruct p.
  - cbn [foldl fmap list_fmap] in *.
    change (internAll (PackageName pk :: (PackageName <$> requires)) m)
      with (internAll (PackageName <$> requires) (StringToId (PackageName pk) m).2)
      in Hsub |- *.
    destruct (StringToId (PackageName pk) m) as [tid m1] eqn:E.
    simpl in Hsub |- *. rewrite IH by done. simpl.
    rewrite <-(assoc_L (++)). simpl. do 4 f_equal.
    unfold idOf. rewrite <-(StringToId_stable _ m); rewrite E; [done|].
    simpl. etrans; [apply (internAll_s_map_mono (PackageName <$> requires))|done].
Qed.

Lemma addRequires_spec requires m p :
  let m' := internAll (PackageName <$> requires) m in
  addRequires requires m p =
  (m', {| adjusted := adjusted p; added := added p;
          assumed := assumed p ++ (idOf m' <$> requires); res := res p |}).
Proof. intros m'. by apply addRequires_gen. Qed.

Lemma elem_of_trueVars v w model :
  w ∈ trueVars v model ↔ ∃ k, w = (v + k)%nat ∧ model !! k = Some true.
Proof.
  revert v. induction model as [|b model IH]; intros v; simpl.
  - split; [by intros ?%elem_of_nil|]. by intros (k & _ & ?).
  - assert (w ∈ trueVars (S v) model ↔
            ∃ k, w = (v + S k)%nat ∧ model !! k = Some true) as IH'.
    { rewrite IH. split; intros (k & -> & ?); exists k; split; [lia|done|lia|done]. }
    destruct b.
    + rewrite elem_of_cons, IH'. split.
      * intros [->|(k & -> & ?)]; [exists O|exists (S k)]; split; [lia|done|lia|done].
      * intros ([|k] & -> & Hk); [left; lia|right; eauto].
    + rewrite IH'. split.
      * intros (k & -> & ?). by exists (S k).
      * intros ([|k] & -> & Hk); [done|eauto].
Qed.

(** A successful scan appends the package of every variable set. *)
Lemma remap_ok r v model r' :
  remap r v model = (r', (true, None)) →
  ∃ pkgs, r' = set_solution (solution r ++ pkgs) r ∧
    Forall2 (λ w pkg, PackageByName (varName (idMap r) w) (prodMap r) = inr pkg)
            (trueVars v model) pkgs.
Proof.
  revert r v. induction model as [|b model IH]; intros r v Hremap; simpl in *.
  - exists []. split; [|constructor]. injection Hremap as <-.
    rewrite app_nil_r. by destruct r.
  - destruct b; [|by apply IH].
    fold (varName (idMap r) v) in Hremap.
    destruct (PackageByName (varName (idMap r) v) (prodMap r)) as [e|pkg] eqn:E; [done|].
    apply IH in Hremap as (pkgs & -> & Hpkgs). simpl in *.
    exists (pkg :: pkgs). split; [by rewrite <-(assoc_L (++))|by constructor].
Qed.

(** Whatever the scan returns, it has only appended packages that the
    product map holds under the name of the variable. *)
Lemma remap_solution r v model :
  ∃ pkgs, (remap r v model).1 = set_solution (solution r ++ pkgs) r ∧
    Forall (λ pkg, ∃ w, PackageByName (varName (idMap r) w) (prodMap r) = inr pkg) pkgs.
Proof.
  revert r v. induction model as [|b model IH]; intros r v; simpl.
  - exists []. split; [|constructor]. rewrite app_nil_r. by destruct r.
  - destruct b; [|by apply IH].
    fold (varName (idMap r) v).
    destruct (PackageByName (varName (idMap r) v) (prodMap r)) as [e|pkg] eqn:E.
    + exists []. split; [|constructor]. simpl. rewrite app_nil_r. by destruct r.
    + destruct (IH (set_solution (solution r ++ [pkg]) r) (S v)) as (pkgs & -> & Hpkgs).
      simpl in *. exists (pkg :: pkgs).
      split; [by rewrite <-(assoc_L (++))|constructor; eauto].
Qed.


Lemma Resolve_unfold picosat_sat r p :
  solver r = Some p →
  let m' := internAll (PackageName <$> requires r) (idMap r) in
  let p' := {| adjusted := adjusted p; added := added p;
               assumed := assumed p ++ (idOf m' <$> requires r); res := res p |} in
  let r' := set_solver (Some {| adjusted := adjusted p; added := added p; assumed := [];
                                res := (picosat_sat p').1 |})
              (set_idMap m' (set_conflicts None (set_solution [] r))) in
  solverInput r = Some p' ∧
  Resolve picosat_sat r =
    if decide ((picosat_sat p').1 ≠ Satisfiable) then (r', (false, None))
    else remap r' 1 (drop 1 (picosat_sat p').2).
Proof.
  intros Hp m' p' r'. unfold solverInput, Resolve. simpl. rewrite Hp. simpl.
  rewrite addRequires_spec. fold m' p'. split; [done|].
  unfold Solve. subst r'. destruct (picosat_sat p') as [status model] eqn:E. simpl.
  destruct (decide (status ≠ Satisfiable)) as [Hs|Hs]; [done|].
  destruct (decide (status = Satisfiable)); [done|contradiction].
Qed.

(** C8: when the engine answers anything but [Satisfiable], [Resolve]
    returns [(false, nil)]: not solved, and no error; the resolver is
    left unsolved, with an empty solution. *)
Theorem C8_unsatisfiable_is_not_an_error
    (picosat_sat : Engine) (r : Resolver) (p' : Pigosat) :
  solverInput r = Some p' →
  (picosat_sat p').1 ≠ Satisfiable →
  (Resolve picosat_sat r).2 = (false, None) ∧
  Solved (Resolve picosat_sat r).1 = false ∧
  Solution (Resolve picosat_sat r).1 = [].
Proof.
  intros Hin Hstatus. unfold solverInput in Hin.
  destruct (solver r) as [p|] eqn:Hp; [|done].
  destruct (Resolve_unfold picosat_sat r p Hp) as [Hin' ->].
  unfold solverInput in Hin'. rewrite Hp in Hin'. simpl in Hin, Hin'.
  rewrite Hin in Hin'. injection Hin' as <-.
  rewrite decide_True by done. simpl. split_and!; [done| |done].
  by apply bool_decide_eq_false.
Qed.

Lemma C8_unsatisfiable_is_not_an_error_witness :
  solverInput conflictResolver = Some conflictInput ∧
  (refSolve conflictInput).1 ≠ Satisfiable ∧
  (Resolve refSolve conflictResolver).2 = (false, None) ∧
  Solved (Resolve refSolve conflictResolver).1 = false ∧
  Solution (Resolve refSolve conflictResolver).1 = [].
Proof.
  split; [by vm_compute|]. split; [by vm_compute|].
  apply (C8_unsatisfiable_is_not_an_error refSolve conflictResolver conflictInput);
    by vm_compute.
Defined.

(** C7, as stated, fails: [Resolve] empties the stored solution before
    it does anything else.  After the successful resolve of
    [Example_solve], a second resolve made unsatisfiable by the extra
    requirement A-1.0.0 leaves [Solution] empty. *)
Lemma C7_counterexample :
  NewResolver keyOrder [P "A" "2.0.0"] solveIndex = Ret solveResolver ∧
  (Resolve refSolve solveResolver).2 = (true, None) ∧
  Solution solveResolved = [P "A" "2.0.0"; P "B" "2.0.0"; P "C" "1.0.0"] ∧
  (∃ r, RequireTemp (P "A" "1.0.0") solveResolved = Ret r ∧
        (Resolve refSolve r).2 = (false, None) ∧ (Resolve refSolve r).1 = solveRetried) ∧
  Solution solveRetried = [] ∧
  Solution solveRetried ≠ Solution solveResolved.
Proof.
  split; [by vm_compute|]. split; [by vm_compute|]. split; [by vm_compute|].
  split.
  { exists (constructed (RequireTemp (P "A" "1.0.0") solveResolved)).
    split; [vm_compute; reflexivity|]. split; vm_compute; reflexivity. }
  split; [by vm_compute|]. by vm_compute.
Qed.

(** C7 (amended): after a successful resolve, [Solution] is exactly the
    list of the packages of the variables the model sets, scanned from
    variable 1 upward; every resolve starts by emptying the stored
    solution, so after a resolve that reports unsatisfiable [Solution]
    is empty. *)
Theorem C7_solution_after_resolve (picosat_sat : Engine) (r : Resolver) :
  ((Resolve picosat_sat r).2 = (true, None) →
     ∃ p' model, solverInput r = Some p' ∧ picosat_sat p' = (Satisfiable, model) ∧
       Forall2 (λ v pkg,
                  PackageByName (varName (idMap (Resolve picosat_sat r).1) v)
                                (prodMap (Resolve picosat_sat r).1) = inr pkg)
               (trueVars 1 (drop 1 model)) (Solution (Resolve picosat_sat r).1)) ∧
  ((Resolve picosat_sat r).2 = (false, None) →
     Solution (Resolve picosat_sat r).1 = []) ∧
  (∀ p', solverInput r = Some p' → (picosat_sat p').1 ≠ Satisfiable →
     Solution (Resolve picosat_sat r).1 = []).
Proof.
  destruct (solver r) as [p|] eqn:Hp.
  2:{ unfold Resolve, solverInput. simpl. rewrite Hp. simpl. split_and!; done. }
  destruct (Resolve_unfold picosat_sat r p Hp) as [Hin ->].
  set (m' := internAll _ _) in *. set (p' := Build_Pigosat _ _ _ _) in *.
  set (r' := set_solver _ _).
  destruct (decide ((picosat_sat p').1 ≠ Satisfiable)) as [Hs|Hs].
  - split_and!; [done|done|done].
  - apply dec_stable in Hs.
    pose proof (remap_solution r' 1 (drop 1 (picosat_sat p').2)) as (pkgs & Hr & _).
    split_and!.
    + intros Hok. exists p', (picosat_sat p').2. split; [done|].
      split; [by destruct (picosat_sat p'); simpl in *; subst|].
      destruct (remap r' 1 (drop 1 (picosat_sat p').2)) as [r'' res] eqn:E.
      simpl in Hok. subst res. apply remap_ok in E as (pkgs' & -> & Hpkgs). done.
    + intros Hres.
      destruct (remap r' 1 (drop 1 (picosat_sat p').2)) as [r'' [b e]] eqn:E.
      simpl in Hres. injection Hres as -> ->. exfalso.
      clear Hr. revert E. generalize r' 1%nat (drop 1 (picosat_sat p').2).
      intros r0 v model. revert r0 v.
      induction model as [|b model IH]; intros r0 v; simpl; [done|].
      destruct b; [|apply IH].
      destruct (PackageByName _ _); [done|apply IH].
    + intros p'' Hin'. rewrite Hin in Hin'. injection Hin' as <-. done.
Qed.

Lemma C7_solution_after_resolve_witness :
  (Resolve refSolve solveResolver).2 = (true, None) ∧
  (∃ p' model, solverInput solveResolver = Some p' ∧
     refSolve p' = (Satisfiable, model) ∧
     Forall2 (λ v pkg,
                PackageByName (varName (idMap (Resolve refSolve solveResolver).1) v)
                              (prodMap (Resolve refSolve solveResolver).1) = inr pkg)
             (trueVars 1 (drop 1 model)) (Solution (Resolve refSolve solveResolver).1)) ∧
  (Resolve refSolve conflictResolver).2 = (false, None) ∧
  Solution (Resolve refSolve conflictResolver).1 = [].
Proof.
  split; [by vm_compute|].
  split; [apply (C7_solution_after_resolve refSolve solveResolver); by vm_compute|].
  split; [by vm_compute|].
  apply (C7_solution_after_resolve refSolve conflictResolver); by vm_compute.
Defined.

(** ** Requirements outside the index *)







(** ** The order of the preload *)

#[local] Instance name_le_trans : Transitive name_le.
Proof. intros p q t. unfold name_le. apply transitivity. Qed.

#[local] Instance name_le_total : Total name_le.
Proof. intros p q. unfold name_le. apply (total String.le). Qed.

#[local] Instance name_ge_trans : Transitive (flip name_le).
Proof. intros p q t Hpq Hqt. unfold flip in *. by etrans. Qed.

#[local] Instance name_ge_total : Total (flip name_le).
Proof. intros p q. unfold flip. destruct (total name_le p q); auto. Qed.

#[local] Instance string_ge_trans : Transitive (flip String.le).
Proof. intros a b c Hab Hbc. unfold flip in *. by etrans. Qed.

#[local] Instance string_ge_antisymm : AntiSymm (=) (flip String.le).
Proof. intros a b Hab Hba. unfold flip in *. by apply (anti_symm String.le). Qed.

(** The order a sort leaves: no later element is [Less] than an
    earlier one. *)
Lemma name_le_Less p q : name_le p q ↔ Less q p = false.
Proof.
  unfold name_le, Less, String.le, String.leb, String.ltb.
  rewrite String.compare_antisym.
  destruct (PackageName q ?= PackageName p)%string; simpl; naive_solver.
Qed.

(** On slices with pairwise distinct names a sort has one possible
    result. *)
Lemma sortPackages_unique (flat sorted : Packages) :
  NoDup (PackageName <$> flat) → sorted ≡ₚ flat → StronglySorted name_le sorted →
  sorted = sortSort flat.
Proof.
  intros Hnodup Hperm Hsorted. unfold sortSort.
  apply (StronglySorted_unique_strong name_le);
    [|done|apply StronglySorted_merge_sort; apply _|by rewrite merge_sort_Permutation].
  intros p q Hp Hq Hpq Hqp.
  assert (PackageName p = PackageName q) as Hname by by apply (anti_symm String.le).
  rewrite Hperm in Hp. rewrite merge_sort_Permutation in Hq.
  apply list_elem_of_lookup in Hp as [x Hx]. apply list_elem_of_lookup in Hq as [y Hy].
  assert (x = y) as ->; [|congruence].
  eapply NoDup_lookup; [done|by rewrite list_lookup_fmap, Hx|].
  rewrite list_lookup_fmap, Hy. simpl. by rewrite Hname.
Qed.

Lemma sortedNames_sorted index : StronglySorted String.le (sortedNames index).
Proof. apply StronglySorted_merge_sort; apply _. Qed.

Lemma sortedNames_perm index : sortedNames index ≡ₚ elements (indexNames index).
Proof. apply merge_sort_Permutation. Qed.

Lemma sortedNames_NoDup index : NoDup (sortedNames index).
Proof. rewrite sortedNames_perm. apply NoDup_elements. Qed.

Lemma sortedNames_length index :
  length (sortedNames index) = size (indexNames index).
Proof. by rewrite sortedNames_perm. Qed.

Lemma sortedNames_reverse_NoDup index : NoDup (reverse (sortedNames index)).
Proof. rewrite reverse_Permutation. apply sortedNames_NoDup. Qed.

(** Under [ResolveSortHigh] the names are interned in ascending order. *)
Lemma preloadNames_high ord index :
  preloadNames ord ResolveSortHigh index = sortedNames index.
Proof.
  simpl. apply (StronglySorted_unique String.le).
  - apply (StronglySorted_fmap _ name_le); [done|].
    apply StronglySorted_merge_sort; apply _.
  - apply sortedNames_sorted.
  - unfold sortSort. rewrite merge_sort_Permutation, flattenDependencies_names.
    by rewrite sortedNames_perm.
Qed.

(** Under [ResolveSortLow] they are interned in descending order. *)
Lemma preloadNames_low ord index :
  preloadNames ord ResolveSortLow index = reverse (sortedNames index).
Proof.
  simpl. apply (StronglySorted_unique (flip String.le)).
  - apply (StronglySorted_fmap _ (flip name_le)); [done|].
    apply StronglySorted_merge_sort; apply _.
  - apply Sorted_StronglySorted; [apply _|].
    apply Sorted_reverse, StronglySorted_Sorted, sortedNames_sorted.
  - unfold sortSortReverse. rewrite merge_sort_Permutation, flattenDependencies_names.
    by rewrite reverse_Permutation, sortedNames_perm.
Qed.

(** Fresh names interned in a row receive consecutive ids. *)
Lemma internAll_fresh_ids names m :
  idmap_wf m → NoDup names → (∀ s, s ∈ names → s_map m !! s = None) →
  Z.of_nat (Len m + length names) ≤ maxInt32 →
  ∀ (x : nat) s, filter (λ s, s ≠ "") names !! x = Some s →
    s_map (internAll names m) !! s = Some (Z.of_nat (Len m) + Z.of_nat x + 1).
Proof.
  revert m. induction names as [|s0 names IH]; intros m Hwf Hnodup Hnew Hcap x s Hx;
    [done|].
  apply NoDup_cons in Hnodup as [Hs0 Hnodup]. simpl in Hcap.
  change (internAll (s0 :: names) m) with (internAll names (StringToId s0 m).2).
  destruct (decide (s0 = "")) as [->|Hne].
  { rewrite filter_cons_False in Hx by naive_solver. simpl.
    apply IH; [done|done|set_solver|lia|done]. }
  rewrite filter_cons_True in Hx by done.
  assert (s_map m !! s0 = None) as Hs0new by (apply Hnew; set_solver).
  destruct (StringToId_fresh m s0 Hwf) as (Hwf1 & Hid & Hlen); [lia|done|done|].
  destruct x as [|x]; simpl in Hx.
  - injection Hx as <-.
    eapply lookup_weaken; [|apply internAll_s_map_mono].
    rewrite StringToId_lookup by done. f_equal. lia.
  - rewrite (IH (StringToId s0 m).2 Hwf1 Hnodup) with (x := x); [f_equal; lia| |lia|done].
    intros s' Hs'. rewrite StringToId_new by done. simpl.
    rewrite lookup_insert_ne by set_solver. apply Hnew. set_solver.
Qed.

Lemma StronglySorted_strict {A} (R : relation A) (l : list A) :
  StronglySorted R l → NoDup l → StronglySorted (λ a b, R a b ∧ a ≠ b) l.
Proof.
  induction 1 as [|a l Hl IH Ha]; intros Hnodup; constructor.
  - apply IH. by apply NoDup_cons in Hnodup as [_ ?].
  - apply NoDup_cons in Hnodup as [Hnotin _].
    apply Forall_forall. intros b Hb. split.
    + by eapply Forall_forall in Ha.
    + intros ->. done.
Qed.

Lemma elem_of_indexNames index s :
  s ∈ indexNames index ↔
  ∃ dep, dep ∈ index ∧
    (s = PackageName (Target dep) ∨
     ∃ G p, G ∈ Requires dep ∧ p ∈ G ∧ s = PackageName p).
Proof.
  unfold indexNames, indexPackages.
  rewrite elem_of_list_to_set, list_elem_of_fmap. split.
  - intros (p & -> & Hp). apply list_elem_of_bind in Hp as (dep & Hp & Hdep).
    exists dep. split; [done|].
    apply elem_of_cons in Hp as [->|Hp]; [by left|right].
    apply elem_of_concat in Hp as (G & ? & ?). eauto.
  - intros (dep & Hdep & [->|(G & p & HG & Hp & ->)]).
    + exists (Target dep). split; [done|]. by apply Target_indexPackages.
    + exists p. split; [done|]. by eapply group_indexPackages.
Qed.

(** C6, as stated, fails for [ResolveSortHigh]: on the index of
    [TestChooseHighVersions] the preload interns A-1.0.0 first and
    C-2.0.0 last, in ascending order of the names. *)
Lemma C6_counterexample :
  NewSortResolver keyOrder [P "A" "2.0.0"] highIndex ResolveSortHigh = Ret highResolver ∧
  preloadNames keyOrder ResolveSortHigh highIndex =
    ["A-1.0.0"; "A-2.0.0"; "B-1.0.0"; "B-2.0.0"; "C-1.0.0"; "C-2.0.0"] ∧
  GetId "A-1.0.0" (idMap highResolver) = Some 1 ∧
  GetId "C-2.0.0" (idMap highResolver) = Some 6 ∧
  ¬ StronglySorted (flip String.le) (preloadNames keyOrder ResolveSortHigh highIndex).
Proof.
  split_and!; try by vm_compute.
  replace (preloadNames keyOrder ResolveSortHigh highIndex)
    with ["A-1.0.0"; "A-2.0.0"; "B-1.0.0"; "B-2.0.0"; "C-1.0.0"; "C-2.0.0"]
    by by vm_compute.
  intros Hsorted. apply StronglySorted_cons in Hsorted as [Hhd _].
  apply Forall_cons in Hhd as [Hle _]. by vm_compute in Hle.
Qed.

(** C6 (amended): [flattenDependencies] returns one package for each
    name the index refers to (targets and members of all requirement
    groups); under [ResolveSortHigh] the preload interns these names in
    ascending byte-wise order, under [ResolveSortLow] in descending
    order (the reverse of the ascending sort), whatever order the map is
    iterated in; the name interned at position x (empty names skipped)
    receives id x+1. *)
Theorem C6_preload_order (ord : MapOrder) (index : list Dependency) :
  (∀ s, s ∈ indexNames index ↔
        ∃ dep, dep ∈ index ∧
          (s = PackageName (Target dep) ∨
           ∃ G p, G ∈ Requires dep ∧ p ∈ G ∧ s = PackageName p)) ∧
  PackageName <$> flattenDependencies ord index ≡ₚ elements (indexNames index) ∧
  NoDup (PackageName <$> flattenDependencies ord index) ∧
  (∀ p, p ∈ flattenDependencies ord index → p ∈ indexPackages index) ∧
  (∀ sortMode m,
     preload ord sortMode index m = internAll (preloadNames ord sortMode index) m) ∧
  preloadNames ord ResolveSortHigh index = sortedNames index ∧
  preloadNames ord ResolveSortLow index = reverse (sortedNames index) ∧
  sortedNames index ≡ₚ elements (indexNames index) ∧
  StronglySorted (λ a b, String.le a b ∧ a ≠ b) (sortedNames index) ∧
  StronglySorted (λ a b, String.le b a ∧ a ≠ b) (reverse (sortedNames index)) ∧
  (indexFits index →
   ∀ sortMode (x : nat) s,
     filter (λ s, s ≠ "") (preloadNames ord sortMode index) !! x = Some s →
     GetId s (preload ord sortMode index newStringIdMap) = Some (Z.of_nat x + 1)).
Proof.
  split_and!.
  - apply elem_of_indexNames.
  - apply flattenDependencies_names.
  - rewrite flattenDependencies_names. apply NoDup_elements.
  - apply flattenDependencies_elem.
  - intros. apply preload_internAll.
  - apply preloadNames_high.
  - apply preloadNames_low.
  - apply sortedNames_perm.
  - apply StronglySorted_strict; [apply sortedNames_sorted|apply sortedNames_NoDup].
  - apply (StronglySorted_strict (flip String.le)).
    + apply Sorted_StronglySorted; [apply _|].
      apply Sorted_reverse, StronglySorted_Sorted, sortedNames_sorted.
    + apply sortedNames_reverse_NoDup.
  - intros Hfits sortMode x s Hx. rewrite preload_internAll. unfold GetId.
    assert (NoDup (preloadNames ord sortMode index) ∧
            (length (preloadNames ord sortMode index) ≤ size (indexNames index))%nat)
      as [Hnodup Hlen].
    { destruct sortMode.
      - simpl. split; [constructor|lia].
      - rewrite preloadNames_low, length_reverse, sortedNames_length.
        split; [apply sortedNames_reverse_NoDup|done].
      - rewrite preloadNames_high, sortedNames_length.
        split; [apply sortedNames_NoDup|done]. }
    rewrite (internAll_fresh_ids _ newStringIdMap newStringIdMap_wf Hnodup) with (x := x);
      [done|done| |done].
    unfold indexFits in Hfits. change (Len newStringIdMap) with O. lia.
Qed.

Lemma C6_preload_order_witness :
  indexFits highIndex ∧
  filter (λ s, s ≠ "") (preloadNames keyOrder ResolveSortHigh highIndex) !! 5%nat =
    Some "C-2.0.0" ∧
  GetId "C-2.0.0" (preload keyOrder ResolveSortHigh highIndex newStringIdMap) =
    Some (Z.of_nat 5 + 1) ∧
  filter (λ s, s ≠ "") (preloadNames keyOrder ResolveSortLow highIndex) !! 0%nat =
    Some "C-2.0.0" ∧
  GetId "C-2.0.0" (preload keyOrder ResolveSortLow highIndex newStringIdMap) =
    Some (Z.of_nat 0 + 1).
Proof.
  pose proof (C6_preload_order keyOrder highIndex)
    as (_ & _ & _ & _ & _ & _ & _ & _ & _ & _ & Hids).
  assert (indexFits highIndex) as Hfits by by vm_compute.
  split_and!; [done|by vm_compute| |by vm_compute|].
  - apply (Hids Hfits ResolveSortHigh 5%nat). by vm_compute.
  - apply (Hids Hfits ResolveSortLow 0%nat). by vm_compute.
Defined.

(** ** The core interpreter: one clause line *)

Lemma foldM_app {A S} (f : S → A → outcome S) s l1 l2 :
  foldM f s (l1 ++ l2) = foldM f s l1 ≫= λ s', foldM f s' l2.
Proof.
  revert s. induction l1 as [|a l1 IH]; intros s; simpl; [done|].
  destruct (f s a); simpl; [apply IH|done|done].
Qed.

Lemma ParseInt32_zero : ParseInt32 "0" = Some 0.
Proof. reflexivity. Qed.

(** The loop over the fields stores each parsed literal at the index of
    its field and counts the negative ones. *)
Lemma parseLits_fill line toks ls pre negs k :
  Forall2 (λ f l, ParseInt32 f = Some l ∧ l ≠ 0) toks ls →
  foldM (λ '(lits, negs) '(x, f),
           if decide (f = "0") then Ret (lits, negs)
           else match ParseInt32 f with
                | None => Err (ErrParsingInt f line)
                | Some parsed =>
                    let negs := if parsed <? 0 then S negs else negs in
                    lits ← store AtLits lits x parsed;
                    Ret (lits, negs)
                end)
        (pre ++ replicate (length toks + k) 0, negs)
        (imap (λ x f, ((length pre + x)%nat, f)) toks) =
  Ret (pre ++ ls ++ replicate k 0, (negs + countNegs ls)%nat).
Proof.
  intros Htoks. revert pre negs.
  induction Htoks as [|f l toks ls [Hf Hl] Htoks IH]; intros pre negs.
  - simpl. by rewrite Nat.add_0_r.
  - rewrite imap_cons. cbn [foldM length]. rewrite Nat.add_0_r.
    rewrite decide_False by (intros ->; rewrite ParseInt32_zero in Hf; congruence).
    rewrite Hf. cbn [Nat.add replicate]. rewrite store_app. cbn [mbind outcome_bind].
    specialize (IH (pre ++ [l]) (if l <? 0 then S negs else negs)).
    rewrite <-(assoc_L (++)) in IH. cbn [app] in IH.
    rewrite (imap_ext _ (λ x f0, ((length (pre ++ [l]) + x)%nat, f0))).
    2:{ intros x f0 _. simpl. rewrite length_app. simpl. f_equal. lia. }
    rewrite IH. f_equal. f_equal.
    + by rewrite <-(assoc_L (++)).
    + unfold countNegs. destruct (l <? 0) eqn:E.
      * apply Z.ltb_lt in E. rewrite filter_cons_True by done. simpl. lia.
      * apply Z.ltb_ge in E. rewrite filter_cons_False by lia. lia.
Qed.

Lemma parseLits_ok line toks ls :
  Forall2 (λ f l, ParseInt32 f = Some l ∧ l ≠ 0) toks ls →
  parseLits line (toks ++ ["0"]) = Ret (ls, countNegs ls).
Proof.
  intros Htoks. unfold parseLits, make.
  rewrite length_app. simpl.
  rewrite (proj2 (Z.ltb_ge _ _)) by lia. cbn [mbind outcome_bind].
  replace (Z.to_nat (Z.of_nat (length toks + 1) - 1)) with (length toks + 0)%nat by lia.
  rewrite imap_app, foldM_app.
  pose proof (parseLits_fill line toks ls [] O O Htoks) as Hfill.
  simpl in Hfill.
  change (imap pair toks) with (imap (λ (x : nat) (f : string), (x, f)) toks).
  rewrite Hfill. cbn [mbind outcome_bind]. simpl.
  by rewrite app_nil_r.
Qed.

Lemma lookupLits_gen r line ls paks acc :
  Forall2 (λ l p, literalPackage r l = inr p) ls paks →
  foldM (λ paks l,
           match ResolverPackageByName (IdToString (wrap32 l) (idMap r)) r with
           | inl _ => Err (ErrUnexpectedLiteral l line)
           | inr p => Ret (paks ++ [p])
           end)
        acc ls = Ret (acc ++ paks).
Proof.
  intros Hls. revert acc. induction Hls as [|l p ls paks Hl Hls IH]; intros acc.
  - simpl. by rewrite app_nil_r.
  - simpl. unfold literalPackage in Hl. rewrite Hl. simpl.
    rewrite IH. by rewrite <-(assoc_L (++)).
Qed.

Lemma lookupLits_ok r line ls paks :
  Forall2 (λ l p, literalPackage r l = inr p) ls paks →
  lookupLits r line ls = Ret paks.
Proof. intros Hls. unfold lookupLits. by rewrite (lookupLits_gen r line ls paks). Qed.

(** A well-formed clause line, whose literals have packages: what
    [parseClause] returns is decided by [classify] alone. *)
Lemma parseClause_ok r line toks ls paks :
  Fields line = toks ++ ["0"] →
  Forall2 (λ f l, ParseInt32 f = Some l ∧ l ≠ 0) toks ls →
  Forall2 (λ l p, literalPackage r l = inr p) (sortInts ls) paks →
  parseClause r line =
    relates ← classify line (sortInts ls) (countNegs ls);
    Ret {| relPackages := paks; Relates := relates |}.
Proof.
  intros Hfields Htoks Hpaks. unfold parseClause. rewrite Hfields.
  rewrite decide_False by (rewrite length_app; simpl; lia).
  rewrite (parseLits_ok line toks ls Htoks). cbn [mbind outcome_bind].
  by rewrite (lookupLits_ok r line _ paks Hpaks).
Qed.

Lemma sortInts_perm ls : sortInts ls ≡ₚ ls.
Proof. apply merge_sort_Permutation. Qed.

Lemma sortInts_sorted ls : StronglySorted Z.le (sortInts ls).
Proof. apply StronglySorted_merge_sort; apply _. Qed.

Lemma sortInts_length ls : length (sortInts ls) = length ls.
Proof. by rewrite sortInts_perm. Qed.

(** The first literal after the sort is the least of the clause. *)
Lemma sortInts_head ls l rest :
  sortInts ls = l :: rest → l ∈ ls ∧ ∀ l', l' ∈ ls → l ≤ l'.
Proof.
  intros Hsort. pose proof (sortInts_sorted ls) as Hsorted.
  pose proof (sortInts_perm ls) as Hperm. rewrite Hsort in Hsorted, Hperm.
  apply StronglySorted_cons in Hsorted as [Hhd _]. split.
  - rewrite <-Hperm. set_solver.
  - intros l' Hl'. rewrite <-Hperm in Hl'. apply elem_of_cons in Hl' as [->|Hl']; [lia|].
    by eapply Forall_forall in Hhd.
Qed.

Lemma countNegs_pos ls : (0 < countNegs ls)%nat → ∃ l, l ∈ ls ∧ l < 0.
Proof.
  unfold countNegs. intros Hpos.
  destruct (filter (λ l, l < 0) ls) as [|l rest] eqn:E; [simpl in Hpos; lia|].
  assert (l ∈ filter (λ l, l < 0) ls) as Hl by (rewrite E; set_solver).
  apply list_elem_of_filter in Hl as [? ?]. eauto.
Qed.

Lemma countNegs_zero ls : countNegs ls = O → ∀ l, l ∈ ls → 0 ≤ l.
Proof.
  unfold countNegs. intros Hzero l Hl.
  destruct (decide (l < 0)) as [Hneg|]; [|lia].
  assert (l ∈ filter (λ l, l < 0) ls) as Hin by by apply list_elem_of_filter.
  apply length_zero_iff_nil in Hzero. rewrite Hzero in Hin. by apply elem_of_nil in Hin.
Qed.

Lemma classify_single line l negs :
  classify line [l] negs = if 0 <? l then Ret Required else Ret Restricts.
Proof. reflexivity. Qed.

Lemma classify_many line ls negs :
  length ls ≠ 1%nat →
  classify line ls negs =
    if decide (negs = 1%nat) then Ret Depends
    else if decide (1 < negs)%nat then Ret Conflicts
    else Err (ErrUnhandledClause line).
Proof. intros Hlen. unfold classify. by rewrite decide_False. Qed.

Lemma sortInts_single l : sortInts [l] = [l].
Proof. reflexivity. Qed.

Lemma lits_nonzero toks ls :
  Forall2 (λ f l, ParseInt32 f = Some l ∧ l ≠ 0) toks ls → ∀ l, l ∈ ls → l ≠ 0.
Proof.
  intros Htoks l Hl. apply list_elem_of_lookup in Hl as [x Hx].
  destruct (Forall2_lookup_r _ _ _ _ _ Htoks Hx) as (f & _ & _ & ?). done.
Qed.

(** With one negative literal, the sort puts it first and the positive
    ones after it. *)
Lemma sortInts_one_negative ls :
  (∀ l, l ∈ ls → l ≠ 0) → countNegs ls = 1%nat →
  ∃ l pos, sortInts ls = l :: pos ∧ filter (λ l, l < 0) ls = [l] ∧
           Forall (λ l', 0 < l') pos.
Proof.
  intros Hnz Hnegs.
  destruct (countNegs_pos ls) as (l0 & Hl0 & Hneg0); [lia|].
  destruct (sortInts ls) as [|l pos] eqn:Hsort.
  { pose proof (sortInts_perm ls) as Hperm. rewrite Hsort in Hperm.
    apply Permutation_nil in Hperm. subst ls. by apply elem_of_nil in Hl0. }
  destruct (sortInts_head ls l pos Hsort) as [Hl Hleast].
  assert (l < 0) as Hneg by (specialize (Hleast l0 Hl0); lia).
  pose proof (sortInts_perm ls) as Hperm. rewrite Hsort in Hperm.
  assert (countNegs (l :: pos) = 1%nat) as Hcount.
  { unfold countNegs in *. by rewrite Hperm. }
  unfold countNegs in Hcount. rewrite filter_cons_True in Hcount by done.
  simpl in Hcount. injection Hcount as Hcount. apply length_zero_iff_nil in Hcount.
  exists l, pos. split_and!; [done| |].
  - unfold countNegs in Hnegs.
    destruct (filter (λ l, l < 0) ls) as [|l1 [|l2 rest]] eqn:E; simpl in Hnegs; try lia.
    assert (l ∈ filter (λ l, l < 0) ls) as Hin by by apply list_elem_of_filter.
    rewrite E in Hin. apply list_elem_of_singleton in Hin. by subst.
  - apply Forall_forall. intros l' Hl'.
    assert (l' ≠ 0) by (apply Hnz; rewrite <-Hperm; set_solver).
    destruct (decide (l' < 0)) as [Hneg'|]; [|lia].
    assert (l' ∈ filter (λ l, l < 0) pos) as Hin by by apply list_elem_of_filter.
    rewrite Hcount in Hin. by apply elem_of_nil in Hin.
Qed.

(** C4: a clause line whose literals are nonzero and have packages is
    classified by its shape: one positive literal, [Required]; one
    negative literal, [Restricted]; two or more literals of which
    exactly one is negative, [Depends], the package of the negative
    literal first and those of the positive ones after it; two or more
    literals with at least two negative, [Conflicts]; anything else (no
    literal at all, or two or more literals none of which is negative),
    the error "Unhandled clause type". *)
Theorem C4_clause_classification (r : Resolver) (line : string)
    (toks : list string) (lits : list Z) (paks : Packages) :
  Fields line = toks ++ ["0"] →
  Forall2 (λ f l, ParseInt32 f = Some l ∧ l ≠ 0) toks lits →
  Forall2 (λ l p, literalPackage r l = inr p) (sortInts lits) paks →
  (∀ l, lits = [l] → 0 < l →
     parseClause r line = Ret {| relPackages := paks; Relates := Required |}) ∧
  (∀ l, lits = [l] → l < 0 →
     parseClause r line = Ret {| relPackages := paks; Relates := Restricts |}) ∧
  ((2 ≤ length lits)%nat → countNegs lits = 1%nat →
     parseClause r line = Ret {| relPackages := paks; Relates := Depends |} ∧
     ∃ l pos p rest,
       filter (λ l, l < 0) lits = [l] ∧ sortInts lits = l :: pos ∧
       Forall (λ l', 0 < l') pos ∧ paks = p :: rest ∧
       literalPackage r l = inr p ∧
       Forall2 (λ l' p', literalPackage r l' = inr p') pos rest) ∧
  ((2 ≤ length lits)%nat → (2 ≤ countNegs lits)%nat →
     parseClause r line = Ret {| relPackages := paks; Relates := Conflicts |}) ∧
  (length lits ≠ 1%nat → countNegs lits = 0%nat →
     parseClause r line = Err (ErrUnhandledClause line)).
Proof.
  intros Hfields Htoks Hpaks.
  pose proof (parseClause_ok r line toks lits paks Hfields Htoks Hpaks) as Hparse.
  split_and!.
  - intros l -> Hl. rewrite Hparse, sortInts_single, classify_single.
    by rewrite (proj2 (Z.ltb_lt _ _)).
  - intros l -> Hl. rewrite Hparse, sortInts_single, classify_single.
    by rewrite (proj2 (Z.ltb_ge _ _)) by lia.
  - intros Hlen Hnegs. split.
    + rewrite Hparse, classify_many by (rewrite sortInts_length; lia).
      by rewrite decide_True.
    + destruct (sortInts_one_negative lits (lits_nonzero _ _ Htoks) Hnegs)
        as (l & pos & Hsort & Hfilter & Hpos).
      rewrite Hsort in Hpaks.
      apply Forall2_cons_inv_l in Hpaks as (p & rest & Hp & Hrest & ->).
      by exists l, pos, p, rest.
  - intros Hlen Hnegs.
    rewrite Hparse, classify_many by (rewrite sortInts_length; lia).
    rewrite decide_False by lia. by rewrite decide_True by lia.
  - intros Hlen Hnegs.
    rewrite Hparse, classify_many by (by rewrite sortInts_length).
    rewrite decide_False by lia. by rewrite decide_False by lia.
Qed.

Lemma C4_clause_classification_witness :
  Fields "-1 2 0" = ["-1"; "2"] ++ ["0"] ∧
  Forall2 (λ f l, ParseInt32 f = Some l ∧ l ≠ 0) ["-1"; "2"] [-1; 2] ∧
  Forall2 (λ l p, literalPackage conflictResolver l = inr p)
          (sortInts [-1; 2]) [P "A" "1.0.0"; P "C" "1.0.0"] ∧
  (2 ≤ length [-1; 2]%Z)%nat ∧ countNegs [-1; 2] = 1%nat ∧
  parseClause conflictResolver "-1 2 0" =
    Ret {| relPackages := [P "A" "1.0.0"; P "C" "1.0.0"]; Relates := Depends |}.
Proof.
  assert (Forall2 (λ f l, ParseInt32 f = Some l ∧ l ≠ 0) ["-1"; "2"] [-1; 2]) as Htoks
    by (repeat constructor; by vm_compute).
  assert (Forall2 (λ l p, literalPackage conflictResolver l = inr p)
            (sortInts [-1; 2]) [P "A" "1.0.0"; P "C" "1.0.0"]) as Hpaks
    by (repeat constructor; by vm_compute).
  split_and!; [by vm_compute|done|done|simpl; lia|by vm_compute|].
  apply (C4_clause_classification conflictResolver "-1 2 0" ["-1"; "2"] [-1; 2]
           [P "A" "1.0.0"; P "C" "1.0.0"]); [by vm_compute|done|done|simpl; lia|by vm_compute].
Defined.

(** The four shapes and the error, on the resolver of [Example_conflict]. *)
Example classification_examples :
  parseClause conflictResolver "1 0" =
    Ret {| relPackages := [P "A" "1.0.0"]; Relates := Required |} ∧
  parseClause conflictResolver "-3 0" =
    Ret {| relPackages := [P "B" "1.0.0"]; Relates := Restricts |} ∧
  parseClause conflictResolver "4 -3 0" =
    Ret {| relPackages := [P "B" "1.0.0"; P "C" "2.0.0"]; Relates := Depends |} ∧
  parseClause conflictResolver "1 2 0" = Err (ErrUnhandledClause "1 2 0") ∧
  parseClause conflictResolver "0" = Err (ErrUnhandledClause "0").
Proof. split_and!; by vm_compute. Qed.

(** C5, as stated, fails: in [Example_conflict] C-1.0.0 has id 2 and
    C-2.0.0 has id 4; the ascending sort of the clause [-2 -4] puts -4
    first, and the subject of the relation is C-2.0.0, the negated
    package of the highest id ("Package C-2.0.0 conflicts with
    (C-1.0.0)", as the example expects). *)
Lemma C5_counterexample :
  GetId "C-1.0.0" (idMap conflictResolver) = Some 2 ∧
  GetId "C-2.0.0" (idMap conflictResolver) = Some 4 ∧
  sortInts [-2; -4] = [-4; -2] ∧
  parseClause conflictResolver "-2 -4 0" =
    Ret {| relPackages := [P "C" "2.0.0"; P "C" "1.0.0"]; Relates := Conflicts |} ∧
  cnfToPackageRelations conflictResolver
    {| lines := ["p cnf 4 3"; "-1 2 0"; "-3 4 0"; "-2 -4 0"]; scanErr := None |} =
    Ret [Some {| relPackages := [P "A" "1.0.0"; P "C" "1.0.0"]; Relates := Depends |};
         Some {| relPackages := [P "B" "1.0.0"; P "C" "2.0.0"]; Relates := Depends |};
         Some {| relPackages := [P "C" "2.0.0"; P "C" "1.0.0"]; Relates := Conflicts |}].
Proof. split_and!; by vm_compute. Qed.

(** C5 (amended): for a clause with at least two literals of which at
    least two are negative, the literals are sorted ascending and the
    relation is [Conflicts]; its packages are those of the sorted
    literals, so its subject is the package of the least literal: the
    negated package of the highest id.  The other packages follow. *)
Theorem C5_conflicts_subject (r : Resolver) (line : string)
    (toks : list string) (lits : list Z) (paks : Packages) :
  Fields line = toks ++ ["0"] →
  Forall2 (λ f l, ParseInt32 f = Some l ∧ l ≠ 0) toks lits →
  Forall2 (λ l p, literalPackage r l = inr p) (sortInts lits) paks →
  (2 ≤ length lits)%nat → (2 ≤ countNegs lits)%nat →
  parseClause r line = Ret {| relPackages := paks; Relates := Conflicts |} ∧
  StronglySorted Z.le (sortInts lits) ∧ sortInts lits ≡ₚ lits ∧
  ∃ l others p rest,
    sortInts lits = l :: others ∧ paks = p :: rest ∧
    l ∈ lits ∧ l < 0 ∧ (∀ l', l' ∈ lits → l' < 0 → - l' ≤ - l) ∧
    literalPackage r l = inr p ∧
    Forall2 (λ l' p', literalPackage r l' = inr p') others rest.
Proof.
  intros Hfields Htoks Hpaks Hlen Hnegs.
  split_and!; [|apply sortInts_sorted|apply sortInts_perm|].
  - rewrite (parseClause_ok r line toks lits paks Hfields Htoks Hpaks).
    rewrite classify_many by (rewrite sortInts_length; lia).
    rewrite decide_False by lia. by rewrite decide_True by lia.
  - destruct (countNegs_pos lits) as (l0 & Hl0 & Hneg0); [lia|].
    destruct (sortInts lits) as [|l others] eqn:Hsort.
    { pose proof (sortInts_length lits) as Hl. rewrite Hsort in Hl. simpl in Hl. lia. }
    destruct (sortInts_head lits l others Hsort) as [Hl Hleast].
    apply Forall2_cons_inv_l in Hpaks as (p & rest & Hp & Hrest & ->).
    exists l, others, p, rest. split_and!; try done.
    + specialize (Hleast l0 Hl0). lia.
    + intros l' Hl' _. specialize (Hleast l' Hl'). lia.
Qed.

Lemma C5_conflicts_subject_witness :
  Fields "-2 -4 0" = ["-2"; "-4"] ++ ["0"] ∧
  Forall2 (λ f l, ParseInt32 f = Some l ∧ l ≠ 0) ["-2"; "-4"] [-2; -4] ∧
  Forall2 (λ l p, literalPackage conflictResolver l = inr p)
          (sortInts [-2; -4]) [P "C" "2.0.0"; P "C" "1.0.0"] ∧
  (2 ≤ length [-2; -4]%Z)%nat ∧ (2 ≤ countNegs [-2; -4]%Z)%nat ∧
  parseClause conflictResolver "-2 -4 0" =
    Ret {| relPackages := [P "C" "2.0.0"; P "C" "1.0.0"]; Relates := Conflicts |} ∧
  StronglySorted Z.le (sortInts [-2; -4]) ∧ sortInts [-2; -4] ≡ₚ [-2; -4] ∧
  ∃ l others p rest,
    sortInts [-2; -4] = l :: others ∧ [P "C" "2.0.0"; P "C" "1.0.0"] = p :: rest ∧
    l ∈ [-2; -4] ∧ l < 0 ∧ (∀ l', l' ∈ [-2; -4] → l' < 0 → - l' ≤ - l) ∧
    literalPackage conflictResolver l = inr p ∧
    Forall2 (λ l' p', literalPackage conflictResolver l' = inr p') others rest.
Proof.
  assert (Forall2 (λ f l, ParseInt32 f = Some l ∧ l ≠ 0) ["-2"; "-4"] [-2; -4]) as Htoks
    by (repeat constructor; by vm_compute).
  assert (Forall2 (λ l p, literalPackage conflictResolver l = inr p)
            (sortInts [-2; -4]) [P "C" "2.0.0"; P "C" "1.0.0"]) as Hpaks
    by (repeat constructor; by vm_compute).
  split; [by vm_compute|]. split; [done|]. split; [done|].
  split; [simpl; lia|]. split; [vm_compute; lia|].
  apply (C5_conflicts_subject conflictResolver "-2 -4 0" ["-2"; "-4"] [-2; -4]
           [P "C" "2.0.0"; P "C" "1.0.0"]);
    [by vm_compute|done|done|simpl; lia|vm_compute; lia].
Defined.

(** ** The core interpreter: the store into [rels] *)

Lemma bind_storePanic {A B} (x : outcome A) (f : A → outcome B) :
  storePanic (x ≫= f) → storePanic x ∨ ∃ a, x = Ret a ∧ storePanic (f a).
Proof.
  destruct x as [a|e|pn]; cbn [mbind outcome_bind]; intros Hp; [right; eauto|..].
  - unfold storePanic in Hp. by destruct Hp as (? & ? & ?).
  - left. unfold storePanic in *. destruct Hp as (index & len & [= ->]). eauto.
Qed.

Lemma foldM_storePanic {A S} (f : S → A → outcome S) s l :
  (∀ s a, ¬ storePanic (f s a)) → ¬ storePanic (foldM f s l).
Proof.
  intros Hf. revert s. induction l as [|a l IH]; intros s; simpl.
  - by intros (? & ? & ?).
  - intros [?|(s' & _ & ?)]%bind_storePanic; [by eapply Hf|by eapply IH].
Qed.

Lemma store_storePanic {A} w (l : list A) x a :
  w ≠ AtRels → ¬ storePanic (store w l x a).
Proof.
  intros Hw. unfold store. case_decide; intros (? & ? & ?); congruence.
Qed.

Lemma make_storePanic {A} (zero : A) n : ¬ storePanic (make zero n).
Proof. unfold make. destruct (n <? 0); by intros (? & ? & ?). Qed.

Lemma Ret_storePanic {A} (a : A) : ¬ storePanic (Ret a).
Proof. by intros (? & ? & ?). Qed.

Lemma Err_storePanic {A} e : ¬ storePanic (@Err A e).
Proof. by intros (? & ? & ?). Qed.

(** Parsing a clause line never touches [rels]. *)
Lemma parseClause_storePanic r line : ¬ storePanic (parseClause r line).
Proof.
  unfold parseClause. case_decide; [apply Err_storePanic|].
  intros [Hp|([lits negs] & _ & Hp)]%bind_storePanic.
  - unfold parseLits in Hp.
    apply bind_storePanic in Hp as [Hp|(lits0 & _ & Hp)];
      [by apply make_storePanic in Hp|].
    revert Hp. apply foldM_storePanic. intros [lits negs] [x f].
    case_decide; [apply Ret_storePanic|].
    destruct (ParseInt32 f); [|apply Err_storePanic].
    intros [Hp|(? & _ & Hp)]%bind_storePanic;
      [by apply store_storePanic in Hp|by apply Ret_storePanic in Hp].
  - apply bind_storePanic in Hp as [Hp|(paks & _ & Hp)].
    + revert Hp. unfold lookupLits. apply foldM_storePanic. intros paks l.
      destruct (ResolverPackageByName _ _); [apply Err_storePanic|apply Ret_storePanic].
    + apply bind_storePanic in Hp as [Hp|(? & _ & Hp)];
        [|by apply Ret_storePanic in Hp].
      revert Hp. unfold classify.
      repeat case_decide; try destruct (0 <? _);
        first [apply Ret_storePanic|apply Err_storePanic].
Qed.

Lemma scanLine_skip r st line :
  kindOf line = BlankLine ∨ kindOf line = CommentLine → scanLine r st line = Ret st.
Proof.
  destruct st as [rels clause]. unfold kindOf, scanLine.
  destruct line as [|c rest]; [done|].
  repeat case_decide; intros [?|?]; done.
Qed.

Lemma scanLine_preamble r rels clause line size :
  kindOf line = PreambleLine → declaredCount line = Some size → 0 ≤ size →
  scanLine r (rels, clause) line = Ret (replicate (Z.to_nat size) None, clause).
Proof.
  unfold kindOf, scanLine, declaredCount.
  destruct line as [|c rest]; [done|].
  repeat case_decide; try done. intros _ Hsize Hpos.
  destruct (last (Fields (String c rest))) as [f|]; [|done]. simpl in Hsize.
  rewrite Hsize. unfold make. by rewrite (proj2 (Z.ltb_ge _ _)).
Qed.

Lemma scanLine_clause r rels clause line :
  kindOf line = ClauseLine →
  scanLine r (rels, clause) line =
    rel ← parseClause r line;
    rels ← store AtRels rels clause (Some rel);
    Ret (rels, S clause).
Proof.
  unfold kindOf, scanLine. destruct line as [|c rest]; [done|].
  by repeat case_decide.
Qed.

Lemma scan_skip r st pre :
  Forall (λ line, kindOf line = BlankLine ∨ kindOf line = CommentLine) pre →
  foldM (scanLine r) st pre = Ret st.
Proof.
  induction 1 as [|line pre Hline Hpre IH]; [done|].
  simpl. by rewrite scanLine_skip.
Qed.

Lemma clauseLines_cons_clause line ls :
  kindOf line = ClauseLine → clauseLines (line :: ls) = line :: clauseLines ls.
Proof. intros Hk. unfold clauseLines. by rewrite filter_cons_True. Qed.

Lemma clauseLines_cons_other line ls :
  kindOf line ≠ ClauseLine → clauseLines (line :: ls) = clauseLines ls.
Proof. intros Hk. unfold clauseLines. by rewrite filter_cons_False. Qed.

Lemma kindOf_cases line :
  kindOf line = PreambleLine ∨ kindOf line = ClauseLine ∨
  (kindOf line = BlankLine ∨ kindOf line = CommentLine).
Proof. destruct (kindOf line); auto. Qed.

(** After the preamble: as long as the slice has room for the clause
    lines still to come, no store goes out of range. *)
Lemma scan_in_bounds r post rels clause :
  Forall (λ line, kindOf line ≠ PreambleLine) post →
  (clause + length (clauseLines post) ≤ length rels)%nat →
  ¬ storePanic (foldM (scanLine r) (rels, clause) post).
Proof.
  intros Hpost. revert rels clause.
  induction Hpost as [|line post Hline Hpost IH]; intros rels clause Hroom.
  { apply Ret_storePanic. }
  cbn [foldM]. destruct (kindOf_cases line) as [?|[Hk|Hk]]; [done| |].
  - rewrite clauseLines_cons_clause in Hroom by done. simpl in Hroom.
    rewrite scanLine_clause by done.
    destruct (parseClause r line) as [rel|e|pn] eqn:E; cbn [mbind outcome_bind].
    + unfold store. rewrite decide_True by lia. cbn [mbind outcome_bind].
      apply IH. rewrite length_insert. lia.
    + apply Err_storePanic.
    + intros (index & len & [= ->]).
      apply (parseClause_storePanic r line). rewrite E. by eexists _, _.
  - rewrite clauseLines_cons_other in Hroom by (destruct Hk as [-> | ->]; done).
    rewrite scanLine_skip by done. cbn [mbind outcome_bind]. by apply IH.
Qed.

(** After the preamble: clause lines that parse fill the slice in order. *)
Lemma scan_fill r post rels clause :
  Forall (λ line, kindOf line ≠ PreambleLine) post →
  Forall (λ line, ∃ rel, parseClause r line = Ret rel) (clauseLines post) →
  (clause + length (clauseLines post) ≤ length rels)%nat →
  ∃ rels', foldM (scanLine r) (rels, clause) post =
             Ret (rels', (clause + length (clauseLines post))%nat) ∧
           length rels' = length rels.
Proof.
  intros Hpost. revert rels clause.
  induction Hpost as [|line post Hline Hpost IH]; intros rels clause Hgood Hroom.
  { exists rels. simpl. by rewrite Nat.add_0_r. }
  cbn [foldM]. destruct (kindOf_cases line) as [?|[Hk|Hk]]; [done| |].
  - rewrite clauseLines_cons_clause in Hgood, Hroom |- * by done. simpl in Hroom.
    apply Forall_cons in Hgood as [[rel Hrel] Hgood].
    rewrite scanLine_clause by done. rewrite Hrel. cbn [mbind outcome_bind].
    unfold store. rewrite decide_True by lia. cbn [mbind outcome_bind].
    destruct (IH (<[clause := Some rel]> rels) (S clause)) as (rels' & -> & Hlen);
      [done|rewrite length_insert; lia|].
    exists rels'. rewrite length_insert in Hlen. split; [|done].
    do 2 f_equal. simpl. lia.
  - assert (kindOf line ≠ ClauseLine) by (destruct Hk as [-> | ->]; done).
    rewrite clauseLines_cons_other in Hgood, Hroom |- * by done.
    rewrite scanLine_skip by done. cbn [mbind outcome_bind]. by apply IH.
Qed.

Lemma store_in {A} w (l : list A) idx x :
  (idx < length l)%nat → store w l idx x = Ret (<[idx := x]> l).
Proof. intros Hidx. unfold store. by rewrite decide_True. Qed.

Lemma store_out {A} w (l : list A) idx x :
  ¬ (idx < length l)%nat →
  store w l idx x = Panic (IndexOutOfRange w (Z.of_nat idx) (length l)).
Proof. intros Hidx. unfold store. by rewrite decide_False. Qed.

Lemma scanLine_preamble_cases r rels clause line :
  kindOf line = PreambleLine →
  scanLine r (rels, clause) line =
    match last (Fields line) with
    | None => Panic (IndexOutOfRange AtFields (-1) 0)
    | Some f =>
        match ParseInt32 f with
        | None => Err (ErrStrconv f)
        | Some size => rels ← make None size; Ret (rels, clause)
        end
    end.
Proof.
  destruct line as [|c s]; [done|]. unfold kindOf, scanLine.
  destruct (decide (c = "c"%char)); [done|].
  by destruct (decide (c = "p"%char)).
Qed.

(** Several preamble lines: each one reallocates [rels]; the counter
    [clause] runs on. *)
Lemma capacity_snoc_other seen line :
  kindOf line ≠ PreambleLine → capacity (seen ++ [line]) = capacity seen.
Proof.
  intros Hk. unfold capacity.
  rewrite filter_app, filter_cons_False by done. by rewrite filter_nil, app_nil_r.
Qed.

Lemma capacity_snoc_preamble seen line :
  kindOf line = PreambleLine →
  capacity (seen ++ [line]) = Z.to_nat (default 0 (declaredCount line)).
Proof.
  intros Hk. unfold capacity.
  rewrite filter_app, filter_cons_True by done. by rewrite filter_nil, last_snoc.
Qed.

Lemma clauseLines_snoc_clause seen line :
  kindOf line = ClauseLine → clauseLines (seen ++ [line]) = clauseLines seen ++ [line].
Proof.
  intros Hk. unfold clauseLines. rewrite filter_app. by rewrite filter_cons_True.
Qed.

Lemma clauseLines_snoc_other seen line :
  kindOf line ≠ ClauseLine → clauseLines (seen ++ [line]) = clauseLines seen.
Proof.
  intros Hk. unfold clauseLines.
  rewrite filter_app, filter_cons_False by done. by rewrite filter_nil, app_nil_r.
Qed.

Lemma inBounds_head seen line ls :
  inBounds (seen ++ line :: ls) → kindOf line = ClauseLine →
  (length (clauseLines seen) < capacity seen)%nat.
Proof.
  intros Hin Hk. specialize (Hin (length seen) line).
  rewrite take_app_length in Hin. apply Hin; [by apply list_lookup_middle|done].
Qed.

Lemma scan_bounded r ls seen rels clause :
  inBounds (seen ++ ls) →
  clause = length (clauseLines seen) → length rels = capacity seen →
  ¬ storePanic (foldM (scanLine r) (rels, clause) ls).
Proof.
  revert seen rels clause.
  induction ls as [|line ls IH]; intros seen rels clause Hin Hclause Hrels.
  { apply Ret_storePanic. }
  cbn [foldM].
  assert (inBounds ((seen ++ [line]) ++ ls)) as Hin' by (by rewrite <-(assoc_L (++))).
  destruct (kindOf_cases line) as [Hk|[Hk|Hk]].
  - rewrite scanLine_preamble_cases by done.
    destruct (last (Fields line)) as [f|] eqn:Hlast; cbn [mbind outcome_bind];
      [|by intros (? & ? & ?)].
    destruct (ParseInt32 f) as [size|] eqn:Hsize; cbn [mbind outcome_bind];
      [|apply Err_storePanic].
    unfold make. destruct (size <? 0) eqn:Hneg; cbn [mbind outcome_bind];
      [by intros (? & ? & ?)|].
    apply (IH (seen ++ [line])); [done|..].
    + by rewrite clauseLines_snoc_other by (by rewrite Hk).
    + rewrite capacity_snoc_preamble by done. unfold declaredCount.
      rewrite Hlast. simpl. rewrite Hsize. simpl. by rewrite length_replicate.
  - pose proof (inBounds_head _ _ _ Hin Hk) as Hroom.
    rewrite scanLine_clause by done.
    destruct (parseClause r line) as [rel|e|pn] eqn:E; cbn [mbind outcome_bind].
    + rewrite store_in by lia. cbn [mbind outcome_bind].
      apply (IH (seen ++ [line])); [done|..].
      * rewrite clauseLines_snoc_clause by done. rewrite length_app. simpl. lia.
      * rewrite capacity_snoc_other by (by rewrite Hk). by rewrite length_insert.
    + apply Err_storePanic.
    + intros (index & len & [= ->]).
      apply (parseClause_storePanic r line). rewrite E. by eexists _, _.
  - assert (kindOf line ≠ ClauseLine ∧ kindOf line ≠ PreambleLine) as [Hc Hp]
      by (destruct Hk as [-> | ->]; done).
    rewrite scanLine_skip by done. cbn [mbind outcome_bind].
    apply (IH (seen ++ [line])); [done|..].
    + by rewrite clauseLines_snoc_other.
    + by rewrite capacity_snoc_other.
Qed.

Lemma scan_reach r ls seen rels clause :
  Forall (λ line, kindOf line = PreambleLine →
                  ∃ size, declaredCount line = Some size ∧ 0 ≤ size) ls →
  Forall (λ line, ∃ rel, parseClause r line = Ret rel) (clauseLines ls) →
  inBounds (seen ++ ls) →
  clause = length (clauseLines seen) → length rels = capacity seen →
  ∃ rels', foldM (scanLine r) (rels, clause) ls =
             Ret (rels', length (clauseLines (seen ++ ls))) ∧
           length rels' = capacity (seen ++ ls).
Proof.
  intros Hpre. revert seen rels clause.
  induction Hpre as [|line ls Hline Hpre IH];
    intros seen rels clause Hgood Hin Hclause Hrels.
  { exists rels. rewrite app_nil_r. simpl. by rewrite Hclause. }
  cbn [foldM].
  assert (inBounds ((seen ++ [line]) ++ ls)) as Hin' by (by rewrite <-(assoc_L (++))).
  rewrite (cons_middle line seen ls), (assoc_L (++)).
  destruct (kindOf_cases line) as [Hk|[Hk|Hk]].
  - destruct (Hline Hk) as (size & Hsize & Hpos).
    rewrite clauseLines_cons_other in Hgood by (by rewrite Hk).
    rewrite (scanLine_preamble r _ _ line size) by done. cbn [mbind outcome_bind].
    apply (IH (seen ++ [line])); [done|done|..].
    + by rewrite clauseLines_snoc_other by (by rewrite Hk).
    + rewrite capacity_snoc_preamble by done. rewrite Hsize. simpl.
      by rewrite length_replicate.
  - pose proof (inBounds_head _ _ _ Hin Hk) as Hroom.
    rewrite clauseLines_cons_clause in Hgood by done.
    apply Forall_cons in Hgood as [[rel Hrel] Hgood].
    rewrite scanLine_clause by done. rewrite Hrel. cbn [mbind outcome_bind].
    rewrite store_in by lia. cbn [mbind outcome_bind].
    apply (IH (seen ++ [line])); [done|done|..].
    + rewrite clauseLines_snoc_clause by done. rewrite length_app. simpl. lia.
    + rewrite capacity_snoc_other by (by rewrite Hk). by rewrite length_insert.
  - assert (kindOf line ≠ ClauseLine ∧ kindOf line ≠ PreambleLine) as [Hc Hp]
      by (destruct Hk as [-> | ->]; done).
    rewrite clauseLines_cons_other in Hgood by done.
    rewrite scanLine_skip by done. cbn [mbind outcome_bind].
    apply (IH (seen ++ [line])); [done|done|..].
    + by rewrite clauseLines_snoc_other.
    + by rewrite capacity_snoc_other.
Qed.

(** C10, as stated, fails in both halves.  A clause line ahead of any
    preamble, or beyond the declared count, makes the parser return the
    error of that line when the line does not parse or classify: the
    store is never reached.  And the length of [rels] is not fixed by
    one preamble line: every preamble line reallocates [rels], while
    the counter [clause] is never reset.  So a stream whose first
    preamble precedes its two clause lines and declares two clauses
    panics at the second one, after a second preamble that declares
    none; and a stream with two clause lines after a preamble that
    declares one returns a report, after a second preamble that
    declares three. *)
Lemma C10_counterexample :
  kindOf "1 2 0" = ClauseLine ∧
  cnfToPackageRelations conflictResolver {| lines := ["1 2 0"]; scanErr := None |} =
    Err (ErrUnhandledClause "1 2 0") ∧
  clauseLines ["-1 2 0"; "x 0"] = ["-1 2 0"; "x 0"] ∧
  declaredCount "p cnf 4 1" = Some 1 ∧
  cnfToPackageRelations conflictResolver
    {| lines := ["p cnf 4 1"; "-1 2 0"; "x 0"]; scanErr := None |} =
    Err (ErrParsingInt "x" "x 0") ∧
  clauseLines ["p cnf 4 2"; "-1 2 0"; "p cnf 4 0"; "-3 4 0"] = ["-1 2 0"; "-3 4 0"] ∧
  declaredCount "p cnf 4 2" = Some 2 ∧
  cnfToPackageRelations conflictResolver
    {| lines := ["p cnf 4 2"; "-1 2 0"; "p cnf 4 0"; "-3 4 0"]; scanErr := None |} =
    Panic (IndexOutOfRange AtRels 1 0) ∧
  clauseLines ["p cnf 4 1"; "-1 2 0"; "p cnf 4 3"; "-3 4 0"] = ["-1 2 0"; "-3 4 0"] ∧
  cnfToPackageRelations conflictResolver
    {| lines := ["p cnf 4 1"; "-1 2 0"; "p cnf 4 3"; "-3 4 0"]; scanErr := None |} =
    Ret [None;
         Some {| relPackages := [P "B" "1.0.0"; P "C" "2.0.0"]; Relates := Depends |};
         None].
Proof. split_and!; by vm_compute. Qed.

(** C10 (amended): a clause is stored at position [clause] of [rels].
    [rels] is the slice that the most recent preamble line allocated,
    with the count that line declares (before any preamble it is nil,
    of length 0); [clause] is the number of clause lines stored since
    the start of the stream, and a later preamble does not reset it.
    If every clause line has fewer clause lines before it than the most
    recent preamble before it declares, no store into [rels] is out of
    range; this holds for a stream whose single preamble follows only
    blank and comment lines and declares at least as many clauses as
    follow.  A clause line with at least as many clause lines before it
    as the most recent preamble declares (so a clause line before any
    preamble, and the first clause line beyond the count of a single
    preamble) makes the parser panic with an index out of range instead
    of returning an error, when it and every clause line before it
    parse and classify, every preamble before it declares a count that
    is not negative, and every store before it was in range. *)
Theorem C10_store_bounds (r : Resolver) (err : option string) :
  (∀ ls, inBounds ls →
     ¬ storePanic (cnfToPackageRelations r {| lines := ls; scanErr := err |})) ∧
  (∀ before cl rest,
     Forall (λ line, kindOf line = PreambleLine →
                     ∃ size, declaredCount line = Some size ∧ 0 ≤ size) before →
     Forall (λ line, ∃ rel, parseClause r line = Ret rel) (clauseLines before) →
     inBounds before →
     kindOf cl = ClauseLine → (∃ rel, parseClause r cl = Ret rel) →
     (capacity before ≤ length (clauseLines before))%nat →
     cnfToPackageRelations r {| lines := before ++ cl :: rest; scanErr := err |} =
       Panic (IndexOutOfRange AtRels (Z.of_nat (length (clauseLines before)))
                (capacity before))) ∧
  (∀ pre pline post size,
     Forall (λ line, kindOf line = BlankLine ∨ kindOf line = CommentLine) pre →
     kindOf pline = PreambleLine → declaredCount pline = Some size →
     Forall (λ line, kindOf line ≠ PreambleLine) post →
     Z.of_nat (length (clauseLines post)) ≤ size →
     ¬ storePanic (cnfToPackageRelations r
                     {| lines := pre ++ pline :: post; scanErr := err |})) ∧
  (∀ pre cl rest,
     Forall (λ line, kindOf line = BlankLine ∨ kindOf line = CommentLine) pre →
     kindOf cl = ClauseLine → (∃ rel, parseClause r cl = Ret rel) →
     cnfToPackageRelations r {| lines := pre ++ cl :: rest; scanErr := err |} =
       Panic (IndexOutOfRange AtRels 0 0)) ∧
  (∀ pre pline post cl rest size,
     Forall (λ line, kindOf line = BlankLine ∨ kindOf line = CommentLine) pre →
     kindOf pline = PreambleLine → declaredCount pline = Some size →
     Forall (λ line, kindOf line ≠ PreambleLine) post →
     Z.of_nat (length (clauseLines post)) = size →
     Forall (λ line, ∃ rel, parseClause r line = Ret rel) (clauseLines post) →
     kindOf cl = ClauseLine → (∃ rel, parseClause r cl = Ret rel) →
     cnfToPackageRelations r
       {| lines := pre ++ pline :: post ++ cl :: rest; scanErr := err |} =
       Panic (IndexOutOfRange AtRels size (Z.to_nat size))).
Proof.
  unfold cnfToPackageRelations. cbn [lines scanErr].
  split_and!.
  - intros ls Hin.
    intros [Hp|([rels clause] & _ & Hp)]%bind_storePanic.
    + revert Hp. by apply (scan_bounded r ls []).
    + destruct err; [by apply Err_storePanic in Hp|by apply Ret_storePanic in Hp].
  - intros before cl rest Hpre Hgood Hin Hcl [rel Hrel] Hfull.
    rewrite foldM_app.
    destruct (scan_reach r before [] [] O Hpre Hgood Hin) as (rels' & -> & Hlen);
      [done|done|].
    simpl in Hlen. cbn [app mbind outcome_bind foldM].
    rewrite scanLine_clause by done. rewrite Hrel. cbn [mbind outcome_bind].
    rewrite store_out by lia. cbn [mbind outcome_bind]. by rewrite Hlen.
  - intros pre pline post size Hpre Hpline Hsize Hpost Hcount.
    intros [Hp|([rels clause] & _ & Hp)]%bind_storePanic.
    + revert Hp. rewrite foldM_app, (scan_skip r _ pre Hpre).
      cbn [mbind outcome_bind foldM].
      rewrite (scanLine_preamble r _ _ pline size) by (done || lia).
      cbn [mbind outcome_bind]. apply scan_in_bounds; [done|].
      rewrite length_replicate. lia.
    + destruct err; [by apply Err_storePanic in Hp|by apply Ret_storePanic in Hp].
  - intros pre cl rest Hpre Hcl [rel Hrel]. rewrite foldM_app, (scan_skip r _ pre Hpre).
    cbn [mbind outcome_bind foldM].
    rewrite scanLine_clause by done. rewrite Hrel. cbn [mbind outcome_bind].
    unfold store. rewrite decide_False by (simpl; lia). done.
  - intros pre pline post cl rest size Hpre Hpline Hsize Hpost Hcount Hgood Hcl [rel Hrel].
    rewrite foldM_app, (scan_skip r _ pre Hpre).
    cbn [mbind outcome_bind foldM].
    rewrite (scanLine_preamble r _ _ pline size) by (done || lia).
    cbn [mbind outcome_bind]. rewrite foldM_app.
    destruct (scan_fill r post (replicate (Z.to_nat size) None) O Hpost Hgood)
      as (rels' & -> & Hlen).
    { rewrite length_replicate. lia. }
    rewrite length_replicate in Hlen.
    cbn [mbind outcome_bind foldM].
    rewrite scanLine_clause by done. rewrite Hrel. cbn [mbind outcome_bind].
    unfold store. rewrite decide_False by (simpl; lia).
    cbn [mbind outcome_bind]. rewrite Hlen. do 2 f_equal. simpl. lia.
Qed.

Lemma C10_store_bounds_witness :
  inBounds ["p cnf 4 1"; "-1 2 0"; "p cnf 4 3"; "-3 4 0"] ∧
  ¬ storePanic (cnfToPackageRelations conflictResolver
                  {| lines := ["p cnf 4 1"; "-1 2 0"; "p cnf 4 3"; "-3 4 0"];
                     scanErr := None |}) ∧
  Forall (λ line, kindOf line = PreambleLine →
                  ∃ size, declaredCount line = Some size ∧ 0 ≤ size)
         ["p cnf 4 2"; "-1 2 0"; "p cnf 4 0"] ∧
  Forall (λ line, ∃ rel, parseClause conflictResolver line = Ret rel)
         (clauseLines ["p cnf 4 2"; "-1 2 0"; "p cnf 4 0"]) ∧
  inBounds ["p cnf 4 2"; "-1 2 0"; "p cnf 4 0"] ∧
  (capacity ["p cnf 4 2"; "-1 2 0"; "p cnf 4 0"] ≤
   length (clauseLines ["p cnf 4 2"; "-1 2 0"; "p cnf 4 0"]))%nat ∧
  cnfToPackageRelations conflictResolver
    {| lines := ["p cnf 4 2"; "-1 2 0"; "p cnf 4 0"] ++ "-3 4 0" :: [];
       scanErr := None |} =
    Panic (IndexOutOfRange AtRels
             (Z.of_nat (length (clauseLines ["p cnf 4 2"; "-1 2 0"; "p cnf 4 0"])))
             (capacity ["p cnf 4 2"; "-1 2 0"; "p cnf 4 0"])) ∧
  Forall (λ line, kindOf line = BlankLine ∨ kindOf line = CommentLine) ["c core"; ""] ∧
  kindOf "p cnf 4 1" = PreambleLine ∧ declaredCount "p cnf 4 1" = Some 1 ∧
  Forall (λ line, kindOf line ≠ PreambleLine) ["-1 2 0"] ∧
  Z.of_nat (length (clauseLines ["-1 2 0"])) = 1 ∧
  Forall (λ line, ∃ rel, parseClause conflictResolver line = Ret rel)
         (clauseLines ["-1 2 0"]) ∧
  kindOf "-3 4 0" = ClauseLine ∧
  (∃ rel, parseClause conflictResolver "-3 4 0" = Ret rel) ∧
  ¬ storePanic (cnfToPackageRelations conflictResolver
                  {| lines := ["c core"; ""] ++ "p cnf 4 1" :: ["-1 2 0"];
                     scanErr := None |}) ∧
  cnfToPackageRelations conflictResolver
    {| lines := ["c core"; ""] ++ "-3 4 0" :: ["p cnf 4 1"]; scanErr := None |} =
    Panic (IndexOutOfRange AtRels 0 0) ∧
  cnfToPackageRelations conflictResolver
    {| lines := ["c core"; ""] ++ "p cnf 4 1" :: ["-1 2 0"] ++ "-3 4 0" :: ["p cnf 4 1"];
       scanErr := None |} =
    Panic (IndexOutOfRange AtRels 1 (Z.to_nat 1)).
Proof.
  assert (inBounds ["p cnf 4 1"; "-1 2 0"; "p cnf 4 3"; "-3 4 0"]) as Hin2.
  { intros [|[|[|[|k]]]] cl; simpl; intros [= <-] Hk;
      first [by vm_compute in Hk | vm_compute; lia]. }
  assert (inBounds ["p cnf 4 2"; "-1 2 0"; "p cnf 4 0"]) as Hin1.
  { intros [|[|[|k]]] cl; simpl; intros [= <-] Hk;
      first [by vm_compute in Hk | vm_compute; lia]. }
  assert (Forall (λ line, kindOf line = PreambleLine →
                          ∃ size, declaredCount line = Some size ∧ 0 ≤ size)
            ["p cnf 4 2"; "-1 2 0"; "p cnf 4 0"]) as Hpre1.
  { constructor; [intros _; exists 2; by vm_compute|].
    constructor; [intros Hk; by vm_compute in Hk|].
    constructor; [intros _; exists 0; by vm_compute|constructor]. }
  assert (Forall (λ line, ∃ rel, parseClause conflictResolver line = Ret rel)
            (clauseLines ["p cnf 4 2"; "-1 2 0"; "p cnf 4 0"])) as Hgood1.
  { change (clauseLines ["p cnf 4 2"; "-1 2 0"; "p cnf 4 0"]) with ["-1 2 0"].
    repeat constructor; eexists; by vm_compute. }
  assert (Forall (λ line, kindOf line = BlankLine ∨ kindOf line = CommentLine)
            ["c core"; ""]) as Hpre by (repeat constructor; by vm_compute).
  assert (Forall (λ line, kindOf line ≠ PreambleLine) ["-1 2 0"]) as Hpost
    by (repeat constructor; by vm_compute).
  assert (Forall (λ line, ∃ rel, parseClause conflictResolver line = Ret rel)
            (clauseLines ["-1 2 0"])) as Hgood
    by (repeat constructor; eexists; by vm_compute).
  assert (∃ rel, parseClause conflictResolver "-3 4 0" = Ret rel) as Hcl
    by (eexists; by vm_compute).
  destruct (C10_store_bounds conflictResolver None)
    as (Hany & Hpanic & Hsafe & Hearly & Hlate).
  split; [exact Hin2|]. split; [by apply Hany|].
  split; [exact Hpre1|]. split; [exact Hgood1|]. split; [exact Hin1|].
  split; [vm_compute; lia|].
  split; [apply Hpanic; [exact Hpre1|exact Hgood1|exact Hin1|by vm_compute|exact Hcl
                        |vm_compute; lia]|].
  split; [exact Hpre|]. split; [by vm_compute|]. split; [by vm_compute|].
  split; [exact Hpost|]. split; [by vm_compute|]. split; [exact Hgood|].
  split; [by vm_compute|]. split; [exact Hcl|].
  split; [apply (Hsafe ["c core"; ""] "p cnf 4 1" ["-1 2 0"] 1);
          [exact Hpre|by vm_compute|by vm_compute|exact Hpost|by vm_compute]|].
  split; [apply Hearly; [exact Hpre|by vm_compute|exact Hcl]|].
  apply (Hlate ["c core"; ""] "p cnf 4 1" ["-1 2 0"] "-3 4 0" ["p cnf 4 1"] 1);
    [exact Hpre|by vm_compute|by vm_compute|exact Hpost|by vm_compute|exact Hgood
    |by vm_compute|exact Hcl].
Defined.

(** The runs behind the witness: in bounds, and the two panics. *)
Example store_examples :
  cnfToPackageRelations conflictResolver
    {| lines := ["c core"; ""; "p cnf 4 2"; "-1 2 0"]; scanErr := None |} =
    Ret [Some {| relPackages := [P "A" "1.0.0"; P "C" "1.0.0"]; Relates := Depends |};
         None] ∧
  cnfToPackageRelations conflictResolver
    {| lines := ["-3 4 0"; "p cnf 4 1"]; scanErr := None |} =
    Panic (IndexOutOfRange AtRels 0 0) ∧
  cnfToPackageRelations conflictResolver
    {| lines := ["p cnf 4 1"; "-1 2 0"; "-3 4 0"]; scanErr := None |} =
    Panic (IndexOutOfRange AtRels 1 1).
Proof. split_and!; by vm_compute. Qed.

(** * Further properties of the code *)

(** ** The name-id map: reading ids back *)

Lemma idmap_wf_name_nonempty m id s :
  idmap_wf m → i_map m !! id = Some s → s ≠ "" ∧ 1 ≤ id ≤ Z.of_nat (Len m).
Proof.
  intros Hwf Hid. split.
  - intros ->. apply (wf_inverse m Hwf) in Hid. by rewrite (wf_nonempty m Hwf) in Hid.
  - rewrite (wf_len m Hwf). apply (wf_dense m Hwf). by eexists.
Qed.

Lemma IdToString_pos m id :
  0 ≤ id → IdToString id m = default "" (i_map m !! id).
Proof.
  intros Hid. unfold IdToString.
  destruct (Z.ltb_spec id 0) as [?|_]; [lia|]. by destruct (i_map m !! id).
Qed.

Lemma IdToString_neg m id :
  0 < id ≤ maxInt32 → IdToString (- id) m = default "" (i_map m !! id).
Proof.
  intros Hid. unfold IdToString.
  destruct (Z.ltb_spec (- id) 0) as [_|?]; [|lia].
  replace (- id * -1) with id by lia.
  rewrite wrap32_id by (unfold minInt32, maxInt32 in *; lia).
  by destruct (i_map m !! id).
Qed.

(** X1: the id [StringToId] answers for a non-empty name is positive,
    and it reads back as that name, under either sign, through
    [IdToString] and [GetString], in the map itself and in every later
    state of it. *)
Theorem X1_id_round_trip (m final : stringIdMap) (s : string) :
  idmap_wf m → Z.of_nat (Len m) < maxInt32 → s ≠ "" →
  idmap_wf final → s_map (StringToId s m).2 ⊆ s_map final →
  let id := (StringToId s m).1 in
  1 ≤ id ≤ maxInt32 ∧
  GetId s (StringToId s m).2 = Some id ∧
  GetId s final = Some id ∧
  GetString id final = Some s ∧
  IdToString id final = s ∧
  IdToString (- id) final = s.
Proof.
  intros Hwf Hroom Hs Hfinal Hsub id.
  pose proof (StringToId_lookup s m Hs) as Hid. fold id in Hid.
  pose proof (lookup_weaken _ _ _ _ Hid Hsub) as Hidf.
  pose proof (proj1 (wf_inverse final Hfinal s id) Hidf) as Hname.
  destruct (idmap_wf_name_nonempty final id s Hfinal Hname) as [_ Hrange].
  assert (1 ≤ id ≤ maxInt32) as Hid32.
  { pose proof (wf_range final Hfinal). pose proof (wf_len final Hfinal). lia. }
  split; [done|]. split; [done|]. split; [done|]. split; [done|].
  split.
  - rewrite IdToString_pos by lia. by rewrite Hname.
  - rewrite IdToString_neg by lia. by rewrite Hname.
Qed.

Lemma X1_id_round_trip_witness :
  idmap_wf newStringIdMap ∧ Z.of_nat (Len newStringIdMap) < maxInt32 ∧ "A-1.0.0" ≠ "" ∧
  idmap_wf (StringToId "A-1.0.0" newStringIdMap).2 ∧
  s_map (StringToId "A-1.0.0" newStringIdMap).2 ⊆
    s_map (StringToId "A-1.0.0" newStringIdMap).2 ∧
  let id := (StringToId "A-1.0.0" newStringIdMap).1 in
  let final := (StringToId "A-1.0.0" newStringIdMap).2 in
  1 ≤ id ≤ maxInt32 ∧
  GetId "A-1.0.0" (StringToId "A-1.0.0" newStringIdMap).2 = Some id ∧
  GetId "A-1.0.0" final = Some id ∧
  GetString id final = Some "A-1.0.0" ∧
  IdToString id final = "A-1.0.0" ∧
  IdToString (- id) final = "A-1.0.0".
Proof.
  assert (idmap_wf (StringToId "A-1.0.0" newStringIdMap).2) as Hwf.
  { apply StringToId_wf; [apply newStringIdMap_wf|by vm_compute]. }
  split; [apply newStringIdMap_wf|]. split; [by vm_compute|]. split; [done|].
  split; [exact Hwf|]. split; [done|].
  apply (X1_id_round_trip newStringIdMap (StringToId "A-1.0.0" newStringIdMap).2 "A-1.0.0");
    [apply newStringIdMap_wf|by vm_compute|done|exact Hwf|done].
Defined.

Lemma StringToId_again (m : stringIdMap) (s : string) (names : list string) :
  StringToId s (internAll names (StringToId s m).2) =
    ((StringToId s m).1, internAll names (StringToId s m).2).
Proof.
  destruct (decide (s = "")) as [->|Hs]; [done|].
  apply StringToId_known; [done|].
  eapply lookup_weaken; [by apply StringToId_lookup|].
  apply internAll_s_map_mono.
Qed.

(** X2: asking [StringToId] again for a name, after any number of
    other names have been interned, answers the id of the first call
    and changes nothing. *)
Theorem X2_intern_stable (m : stringIdMap) (s : string) (names : list string) :
  StringToId s (internAll names (StringToId s m).2) =
    ((StringToId s m).1, internAll names (StringToId s m).2).
Proof.
  destruct (decide (s = "")) as [->|Hs]; [reflexivity|].
  pose proof (StringToId_lookup s m Hs) as Hid.
  pose proof (internAll_s_map_mono names (StringToId s m).2) as Hmono.
  apply StringToId_known; [done|].
  by apply (lookup_weaken _ _ _ _ Hid Hmono).
Qed.

Lemma internAll_domain (names : list string) (m : stringIdMap) :
  dom (s_map (internAll names m)) =
    dom (s_map m) ∪ list_to_set (filter (λ s, s ≠ "") names).
Proof.
  revert m. induction names as [|s names IH]; intros m; simpl.
  - set_solver.
  - fold (internAll names (StringToId s m).2). rewrite IH.
    destruct (decide (s = "")) as [->|Hs].
    + rewrite filter_cons_False by (by intros ?). done.
    + rewrite filter_cons_True by done.
      destruct (s_map m !! s) as [id|] eqn:Hid.
      * rewrite (StringToId_known m s id) by done. simpl.
        apply (elem_of_dom_2 (s_map m)) in Hid. set_solver.
      * rewrite (StringToId_new m s) by done. simpl.
        rewrite dom_insert_L. set_solver.
Qed.

(** X3: the names that have an id are the non-empty names that were
    interned, whatever their number and order: [Len] counts the distinct
    non-empty names. *)
Theorem X3_intern_domain (names : list string) (m : stringIdMap) :
  dom (s_map (internAll names m)) =
    dom (s_map m) ∪ list_to_set (filter (λ s, s ≠ "") names) ∧
  Len (internAll names newStringIdMap) =
    size (list_to_set (filter (λ s, s ≠ "") names) : gset string).
Proof.
  split; [apply internAll_domain|].
  unfold Len. rewrite <-size_dom, internAll_domain. simpl. rewrite dom_empty_L.
  by rewrite (left_id_L ∅ (∪)).
Qed.

(** X4: in a map that keeps its invariant, [IdToString] answers the
    empty string exactly for 0 and for the ids beyond the last one
    handed out; it never answers it for an id in use, and it does not
    look at the sign of the id. *)
Theorem X4_unknown_ids (m : stringIdMap) (l : Literal) :
  idmap_wf m → minInt32 ≤ l ≤ maxInt32 →
  (IdToString l m = "" ↔ l = 0 ∨ Z.of_nat (Len m) < Z.abs l) ∧
  (minInt32 < l → IdToString (- l) m = IdToString l m) ∧
  (GetString l m = None ↔ l ≤ 0 ∨ Z.of_nat (Len m) < l).
Proof.
  intros Hwf Hl.
  assert (∀ id, default "" (i_map m !! id) = "" ↔ ¬ 1 ≤ id ≤ Z.of_nat (Len m)) as Hdef.
  { intros id. destruct (i_map m !! id) as [s|] eqn:Hid; simpl.
    - destruct (idmap_wf_name_nonempty m id s Hwf Hid). split; [done|lia].
    - split; [|done]. intros _ Hid'. rewrite (wf_len m Hwf) in Hid'.
      apply (wf_dense m Hwf) in Hid'. rewrite Hid in Hid'. by destruct Hid'. }
  pose proof (wf_range m Hwf) as Hi. pose proof (wf_len m Hwf) as Hlen.
  split; [|split].
  - destruct (decide (0 ≤ l)) as [Hpos|Hneg].
    + rewrite IdToString_pos, Hdef by done. lia.
    + destruct (decide (l = minInt32)) as [->|Hmin].
      * unfold IdToString. simpl.
        destruct (i_map m !! wrap32 (minInt32 * -1)) as [s|] eqn:Hid.
        -- destruct (idmap_wf_name_nonempty m _ s Hwf Hid) as [_ Hr].
           vm_compute in Hr. destruct Hr as [Hr _]. by destruct Hr.
        -- split; [|done]. intros _. right. unfold minInt32, maxInt32 in *. lia.
      * replace l with (- - l) at 1 by lia.
        rewrite IdToString_neg, Hdef by (unfold minInt32, maxInt32 in *; lia). lia.
  - intros Hmin. destruct (Z.lt_trichotomy l 0) as [Hneg|[->|Hpos]].
    + rewrite IdToString_pos by lia. replace l with (- - l) at 2 by lia.
      rewrite IdToString_neg by (unfold minInt32, maxInt32 in *; lia). done.
    + done.
    + rewrite IdToString_neg, IdToString_pos by lia. done.
  - unfold GetString. rewrite eq_None_not_Some, (wf_dense m Hwf). lia.
Qed.

Lemma X4_unknown_ids_witness :
  idmap_wf newStringIdMap ∧ minInt32 ≤ 7 ≤ maxInt32 ∧
  (IdToString 7 newStringIdMap = "" ↔ 7 = 0 ∨ Z.of_nat (Len newStringIdMap) < Z.abs 7) ∧
  (minInt32 < 7 → IdToString (- 7) newStringIdMap = IdToString 7 newStringIdMap) ∧
  (GetString 7 newStringIdMap = None ↔ 7 ≤ 0 ∨ Z.of_nat (Len newStringIdMap) < 7).
Proof.
  split; [apply newStringIdMap_wf|]. split; [by vm_compute|].
  apply (X4_unknown_ids newStringIdMap 7); [apply newStringIdMap_wf|by vm_compute].
Defined.

(** ** The product map: adding and looking up *)

Lemma NewProductMap_inv : prodmap_inv [] NewProductMap.
Proof.
  split; simpl.
  - intros name q. by rewrite lookup_empty.
  - intros prod set name q. by rewrite lookup_empty.
  - intros prod set. by rewrite lookup_empty.
  - by rewrite dom_empty_L.
  - by rewrite dom_empty_L.
Qed.

Lemma Add_inv ps p pm : prodmap_inv ps pm → prodmap_inv (ps ++ [p]) (Add p pm).
Proof.
  intros [Hpkgs Hprods Hne Hnames Hproducts]. split; unfold Add; simpl.
  - intros name q Hq.
    destruct (decide (PackageName p = name)) as [<-|Hname].
    + rewrite lookup_insert_eq in Hq. injection Hq as <-.
      split; [done|]. split; [set_solver|].
      eexists. split; [apply lookup_insert_eq|].
      destruct (prods pm !! ProductName p);
        [apply lookup_insert_eq|apply lookup_singleton_eq].
    + rewrite lookup_insert_ne in Hq by done.
      destruct (Hpkgs name q Hq) as (Hn & Hin & set & Hset & Hmem).
      split; [done|]. split; [set_solver|].
      destruct (decide (ProductName p = ProductName q)) as [Heq|Hprod].
      * rewrite Heq, Hset. eexists. split; [apply lookup_insert_eq|].
        by rewrite lookup_insert_ne.
      * exists set. by rewrite lookup_insert_ne.
  - intros prod set name q Hset Hq.
    destruct (decide (ProductName p = prod)) as [<-|Hprod].
    + rewrite lookup_insert_eq in Hset. injection Hset as <-.
      destruct (prods pm !! ProductName p) as [set|] eqn:Hold.
      * destruct (decide (PackageName p = name)) as [<-|Hname].
        -- rewrite lookup_insert_eq in Hq. injection Hq as <-. set_solver.
        -- rewrite lookup_insert_ne in Hq by done.
           destruct (Hprods _ _ _ _ Hold Hq) as (? & ? & ?). set_solver.
      * apply lookup_singleton_Some in Hq as [<- <-]. set_solver.
    + rewrite lookup_insert_ne in Hset by done.
      destruct (Hprods _ _ _ _ Hset Hq) as (? & ? & ?). set_solver.
  - intros prod set Hset.
    destruct (decide (ProductName p = prod)) as [<-|Hprod].
    + rewrite lookup_insert_eq in Hset. injection Hset as <-.
      destruct (prods pm !! ProductName p);
        [apply insert_non_empty|apply map_non_empty_singleton].
    + rewrite lookup_insert_ne in Hset by done. by eapply Hne.
  - rewrite dom_insert_L, Hnames, fmap_app, list_to_set_app_L. set_solver.
  - rewrite dom_insert_L, Hproducts, fmap_app, list_to_set_app_L. set_solver.
Qed.

Lemma addAll_inv_gen ps ps0 pm :
  prodmap_inv ps0 pm → prodmap_inv (ps0 ++ ps) (addAll ps pm).
Proof.
  revert ps0 pm. induction ps as [|p ps IH]; intros ps0 pm Hinv; simpl.
  - by rewrite app_nil_r.
  - rewrite (cons_middle p ps0 ps), app_assoc.
    apply (IH (ps0 ++ [p]) (Add p pm)). by apply Add_inv.
Qed.

Lemma addAll_inv ps : prodmap_inv ps (addAll ps NewProductMap).
Proof. apply (addAll_inv_gen ps [] NewProductMap), NewProductMap_inv. Qed.

(** X5: after [Add p], the package name of [p] looks up [p] and the
    product of [p] lists it; the other names and the other products
    answer as before, a package listed under the product of [p] stays
    listed unless it was stored under the package name of [p], and
    adding [p] a second time changes nothing. *)
Theorem X5_Add_lookup (ord : MapOrder) (p : Packager) (pm : ProductMap) :
  PackageByName (PackageName p) (Add p pm) = inr p ∧
  (∀ name, name ≠ PackageName p →
     PackageByName name (Add p pm) = PackageByName name pm) ∧
  (∃ vers, PackagesOf ord (ProductName p) (Add p pm) = Some vers ∧ p ∈ vers) ∧
  (∀ prod, prod ≠ ProductName p →
     PackagesOf ord prod (Add p pm) = PackagesOf ord prod pm) ∧
  (∀ vers q, PackagesOf ord (ProductName p) pm = Some vers → q ∈ vers →
     ∃ vers', PackagesOf ord (ProductName p) (Add p pm) = Some vers' ∧
       (q ∈ vers' ∨
        ∃ set, prods pm !! ProductName p = Some set ∧ set !! PackageName p = Some q)) ∧
  Add p (Add p pm) = Add p pm.
Proof.
  split_and!.
  - unfold PackageByName, Add. simpl. by rewrite lookup_insert_eq.
  - intros name Hname. unfold PackageByName, Add. simpl.
    by rewrite lookup_insert_ne.
  - unfold PackagesOf, Add. simpl. rewrite lookup_insert_eq.
    eexists. split; [done|]. apply elem_of_range_values. exists (PackageName p).
    destruct (prods pm !! ProductName p);
      [apply lookup_insert_eq|apply lookup_singleton_eq].
  - intros prod Hprod. unfold PackagesOf, Add. simpl.
    by rewrite lookup_insert_ne.
  - intros vers q. unfold PackagesOf, Add. simpl. rewrite lookup_insert_eq.
    destruct (prods pm !! ProductName p) as [set|] eqn:Hset; [|done].
    intros [= <-] Hq. eexists. split; [done|].
    apply elem_of_range_values in Hq as [name Hname].
    destruct (decide (name = PackageName p)) as [->|Hne].
    + right. by exists set.
    + left. apply elem_of_range_values. exists name. by rewrite lookup_insert_ne.
  - unfold Add at 1 3. simpl. rewrite lookup_insert_eq.
    f_equal.
    + rewrite insert_insert_eq. f_equal.
      destruct (prods pm !! ProductName p);
        [apply insert_insert_eq|apply insert_singleton_eq].
    + apply insert_insert_eq.
Qed.

(** X6: in a product map filled by [Add] from a list of packages, a
    name looks up a package of the list that bears this name and that
    is listed under its own product; a name outside the list is an
    error; the packages listed under a product belong to the list and to
    that product, bear pairwise different names, and are at least one; a
    product outside the list has no listing; [NumPackages] and
    [NumProducts] count the distinct package and product names. *)
Theorem X6_product_map_consistent (ord : MapOrder) (ps : Packages) :
  let pm := addAll ps NewProductMap in
  (∀ name q, PackageByName name pm = inr q →
     PackageName q = name ∧ q ∈ ps ∧
     ∃ vers, PackagesOf ord (ProductName q) pm = Some vers ∧ q ∈ vers) ∧
  (∀ q, q ∈ ps →
     ∃ q', PackageByName (PackageName q) pm = inr q' ∧ q' ∈ ps ∧
           PackageName q' = PackageName q) ∧
  (∀ name, name ∉ PackageName <$> ps →
     PackageByName name pm = inl (ErrPackageNotExist name)) ∧
  (∀ prod vers, PackagesOf ord prod pm = Some vers →
     vers ≠ [] ∧ NoDup (PackageName <$> vers) ∧
     ∀ q, q ∈ vers → ProductName q = prod ∧ q ∈ ps) ∧
  (∀ prod, PackagesOf ord prod pm = None ↔ prod ∉ ProductName <$> ps) ∧
  NumPackages pm = size (list_to_set (PackageName <$> ps) : gset string) ∧
  NumProducts pm = size (list_to_set (ProductName <$> ps) : gset string).
Proof.
  intros pm. destruct (addAll_inv ps) as [Hpkgs Hprods Hne Hnames Hproducts].
  fold pm in Hpkgs, Hprods, Hne, Hnames, Hproducts.
  split_and!.
  - intros name q. unfold PackageByName.
    destruct (pkgs pm !! name) as [q'|] eqn:Hq; [|done]. intros [= ->].
    destruct (Hpkgs name q Hq) as (Hname & Hin & set & Hset & Hmem).
    split; [done|]. split; [done|]. unfold PackagesOf. rewrite Hset.
    eexists. split; [done|]. apply elem_of_range_values. by exists name.
  - intros q Hq. unfold PackageByName.
    destruct (pkgs pm !! PackageName q) as [q'|] eqn:Hq'.
    + destruct (Hpkgs _ _ Hq') as (? & ? & _). by exists q'.
    + apply not_elem_of_dom in Hq'. rewrite Hnames in Hq'. set_solver.
  - intros name Hname. unfold PackageByName.
    destruct (pkgs pm !! name) as [q|] eqn:Hq; [|done].
    apply (elem_of_dom_2 (pkgs pm)) in Hq. rewrite Hnames in Hq. set_solver.
  - intros prod vers. unfold PackagesOf.
    destruct (prods pm !! prod) as [set|] eqn:Hset; [|done]. intros [= <-].
    split_and!.
    + intros Hnil. apply (Hne prod set Hset). apply map_size_empty_inv.
      by rewrite <-(length_range ord), <-(length_fmap snd), Hnil.
    + rewrite range_names by (intros name q Hq; by destruct (Hprods _ _ _ _ Hset Hq)).
      rewrite range_keys. apply NoDup_elements.
    + intros q Hq. apply elem_of_range_values in Hq as [name Hq].
      by destruct (Hprods _ _ _ _ Hset Hq) as (? & ? & ?).
  - intros prod. unfold PackagesOf.
    destruct (prods pm !! prod) as [set|] eqn:Hset.
    + apply (elem_of_dom_2 (prods pm)) in Hset. rewrite Hproducts in Hset.
      split; [done|]. set_solver.
    + apply not_elem_of_dom in Hset. rewrite Hproducts in Hset.
      split; [|done]. set_solver.
  - unfold NumPackages. by rewrite <-size_dom, Hnames.
  - unfold NumProducts. by rewrite <-size_dom, Hproducts.
Qed.

(** ** What the clauses mean *)

Lemma litSat_pos model a : 0 < a → litSat model a = chosen model a.
Proof.
  intros Ha. unfold litSat, chosen.
  by destruct (Z.ltb_spec 0 a) as [_|?]; [|lia].
Qed.

Lemma litSat_neg model a :
  0 < a → litSat model (- a) = bool_decide (model !! Z.to_nat a = Some false).
Proof.
  intros Ha. unfold litSat.
  destruct (Z.ltb_spec 0 (- a)) as [?|_]; [lia|].
  destruct (Z.ltb_spec (- a) 0) as [_|?]; [|lia].
  by replace (- - a) with a by lia.
Qed.

Lemma litSat_neg_chosen model a :
  0 < a → litSat model (- a) = true → chosen model a = false.
Proof.
  intros Ha. rewrite litSat_neg by done. unfold chosen.
  intros Hf%bool_decide_eq_true. apply bool_decide_eq_false. by rewrite Hf.
Qed.

Lemma clauseSat_elem model c :
  clauseSat model c = true ↔ ∃ l, l ∈ c ∧ litSat model l = true.
Proof.
  unfold clauseSat. rewrite existsb_exists.
  split; intros (l & Hl & Hsat); exists l; (split; [|done]); by apply list_elem_of_In.
Qed.

Lemma forallb_elem {A} (f : A → bool) (l : list A) :
  forallb f l = true ↔ ∀ x, x ∈ l → f x = true.
Proof.
  rewrite forallb_forall. split; intros H x Hx; apply H; by apply list_elem_of_In.
Qed.

(** X7: on ids that are positive [int32] values the clauses of
    [buildConflictClauses] say at most one: a model that values every
    id satisfies all of them exactly when no two positions of the list
    are both chosen. *)
Theorem X7_conflict_clauses_meaning (lits : list Literal) (model : list bool) :
  Z.of_nat (length lits) < 2 ^ 32 →
  Forall (λ a, 0 < a ≤ maxInt32 ∧ is_Some (model !! Z.to_nat a)) lits →
  ∃ clauses, buildConflictClauses lits = Ret clauses ∧
    (forallb (clauseSat model) clauses = true ↔
     ∀ (x y : nat) a b, (x < y)%nat → lits !! x = Some a → lits !! y = Some b →
       ¬ (chosen model a = true ∧ chosen model b = true)).
Proof.
  intros Hlen Hlits. exists (atMostOne lits).
  split.
  { rewrite buildConflictClauses_ok by done. f_equal. apply pairwise_atMostOne.
    eapply Forall_impl; [exact Hlits|]. simpl. intros a [? _]. lia. }
  rewrite forallb_elem. rewrite Forall_forall in Hlits.
  split.
  - intros Hsat x y a b Hxy Ha Hb [Hca Hcb].
    destruct (Hlits a) as [[Hapos _] _]; [by eapply list_elem_of_lookup_2|].
    destruct (Hlits b) as [[Hbpos _] _]; [by eapply list_elem_of_lookup_2|].
    assert (clauseSat model [- a; - b] = true) as Hc.
    { apply Hsat, elem_of_atMostOne. by exists x, y, a, b. }
    apply clauseSat_elem in Hc as (l & Hl & Hsatl).
    apply elem_of_cons in Hl as [->|Hl].
    + apply litSat_neg_chosen in Hsatl; [congruence|done].
    + apply list_elem_of_singleton in Hl as ->.
      apply litSat_neg_chosen in Hsatl; [congruence|done].
  - intros Hone c Hc.
    apply elem_of_atMostOne in Hc as (x & y & a & b & Hxy & Ha & Hb & ->).
    destruct (Hlits a) as [[Hapos _] [va Hva]]; [by eapply list_elem_of_lookup_2|].
    destruct (Hlits b) as [[Hbpos _] [vb Hvb]]; [by eapply list_elem_of_lookup_2|].
    apply clauseSat_elem.
    destruct va.
    + destruct vb.
      * destruct (Hone x y a b Hxy Ha Hb). unfold chosen.
        split; by apply bool_decide_eq_true.
      * exists (- b). split; [set_solver|]. rewrite litSat_neg by done.
        by apply bool_decide_eq_true.
    + exists (- a). split; [set_solver|]. rewrite litSat_neg by done.
      by apply bool_decide_eq_true.
Qed.

Lemma X7_conflict_clauses_meaning_witness :
  Z.of_nat (length [1; 2; 3]) < 2 ^ 32 ∧
  Forall (λ a, 0 < a ≤ maxInt32 ∧ is_Some ([false; false; true; false] !! Z.to_nat a))
         [1; 2; 3] ∧
  ∃ clauses, buildConflictClauses [1; 2; 3] = Ret clauses ∧
    (forallb (clauseSat [false; false; true; false]) clauses = true ↔
     ∀ (x y : nat) a b, (x < y)%nat →
       [1; 2; 3] !! x = Some a → [1; 2; 3] !! y = Some b →
       ¬ (chosen [false; false; true; false] a = true ∧
          chosen [false; false; true; false] b = true)).
Proof.
  assert (Forall (λ a, 0 < a ≤ maxInt32 ∧
                       is_Some ([false; false; true; false] !! Z.to_nat a)) [1; 2; 3])
    as Hlits.
  { repeat (constructor; [split; [by vm_compute|by eexists]|]). constructor. }
  split; [by vm_compute|]. split; [exact Hlits|].
  apply (X7_conflict_clauses_meaning [1; 2; 3] [false; false; true; false]);
    [by vm_compute|exact Hlits].
Defined.

(** ** A successful resolve *)

Lemma honours_elim model p :
  honours model p = true →
  (∀ c, c ∈ added p → clauseSat model c = true) ∧
  (∀ l, l ∈ assumed p → litSat model l = true) ∧
  Z.of_nat (length model) ≤ 2 ^ 31.
Proof.
  unfold honours. rewrite !andb_true_iff, !forallb_elem, Z.leb_le. tauto.
Qed.

Lemma trueVars_NoDup v model : NoDup (trueVars v model).
Proof.
  revert v. induction model as [|b model IH]; intros v; simpl; [constructor|].
  destruct b; [|apply IH]. constructor; [|apply IH].
  intros (k & Hk & _)%elem_of_trueVars. lia.
Qed.

Lemma varName_lookup m v s :
  Z.of_nat v ≤ maxInt32 → varName m v = s → s ≠ "" → i_map m !! Z.of_nat v = Some s.
Proof.
  intros Hv Hname Hs. unfold varName in Hname.
  rewrite wrap32_id in Hname by (unfold minInt32; lia).
  rewrite IdToString_pos in Hname by lia.
  destruct (i_map m !! Z.of_nat v) as [s'|]; simpl in Hname; congruence.
Qed.

Lemma varName_id m id s :
  idmap_wf m → s_map m !! s = Some id → varName m (Z.to_nat id) = s ∧ 1 ≤ id ≤ maxInt32.
Proof.
  intros Hwf Hid. apply (wf_inverse m Hwf) in Hid.
  destruct (idmap_wf_name_nonempty m id s Hwf Hid) as [_ Hr].
  pose proof (wf_range m Hwf). pose proof (wf_len m Hwf).
  split; [|lia]. unfold varName. rewrite Z2Nat.id by lia.
  rewrite wrap32_id by (unfold minInt32; lia).
  rewrite IdToString_pos by lia. by rewrite Hid.
Qed.

(** What a successful [Resolve] on a freshly initialized resolver
    rests on. *)
Lemma Resolve_solved_facts ord e r0 r p' model :
  requestFits (index r0) (requires r0) →
  Initialize ord r0 = Ret r →
  solverInput r = Some p' → e p' = (Satisfiable, model) →
  (Resolve e r).2 = (true, None) →
  ∃ m',
    idMap (Resolve e r).1 = m' ∧ prodMap (Resolve e r).1 = prodMap r ∧
    idmap_wf (idMap r) ∧ idmap_wf m' ∧ s_map (idMap r) ⊆ s_map m' ∧
    dom (s_map (idMap r)) = indexNames (index r0) ∖ {[""]} ∧
    prodMap r = addAll (indexPackages (index r0)) NewProductMap ∧
    added p' = dependencyClauses (idMap r) (index r0) ++
               atMostOneClauses ord (idMap r) (prodMap r) ∧
    assumed p' = idOf m' <$> requires r0 ∧
    (∀ q, q ∈ requires r0 → PackageName q ≠ "" →
          s_map m' !! PackageName q = Some (idOf m' q)) ∧
    Forall2 (λ v pkg, PackageByName (varName m' v) (prodMap r) = inr pkg)
            (trueVars 1 (drop 1 model)) (Solution (Resolve e r).1).
Proof.
  intros Hfits Hinit Hin He Hok.
  assert (indexFits (index r0)) as Hfits0.
  { unfold requestFits, indexFits in *.
    assert (size (indexNames (index r0)) ≤
            size (indexNames (index r0) ∪
                  list_to_set (PackageName <$> requires r0)))%nat
      by (apply subseteq_size; set_solver).
    lia. }
  destruct (Initialize_formula ord r0 Hfits0)
    as (r1 & p & Hinit1 & Hp & Hm & Hpm & _ & Hass & Hadded & Hidx & Hreq & _).
  rewrite Hinit in Hinit1. injection Hinit1 as <-.
  destruct (index_idMap_wf ord (sortMode r0) (index r0) Hfits0) as [Hwf Hdom].
  rewrite <-Hm in Hwf, Hdom.
  set (N := indexNames (index r0) ∪ list_to_set (PackageName <$> requires r0)) in *.
  set (m' := internAll (PackageName <$> requires r0) (idMap r)).
  destruct (internAll_wf_bounded N (PackageName <$> requires r0) (idMap r)) as [Hwf' _];
    [done|rewrite Hdom; set_solver|set_solver|done|]. fold m' in Hwf'.
  pose proof (Resolve_unfold e r p Hp) as HR. cbv zeta in HR.
  rewrite Hreq in HR. fold m' in HR. destruct HR as [Hin' HR].
  rewrite Hin in Hin'. injection Hin' as ->.
  rewrite He in HR. cbn [fst snd] in HR. rewrite decide_False in HR by (by intros ?).
  rewrite HR in Hok.
  set (r' := set_solver _ _) in *.
  destruct (remap_ok r' 1 (drop 1 model) (remap r' 1 (drop 1 model)).1) as (found & Hr & Hfound).
  { rewrite <-Hok. by destruct (remap r' 1 (drop 1 model)). }
  exists m'. rewrite HR, Hr. simpl.
  split_and!; try done.
  - apply internAll_s_map_mono.
  - by rewrite Hass.
  - intros q Hq Hne.
    destruct (internAll_dom (PackageName <$> requires r0) (idMap r) (PackageName q))
      as [id Hid]; [by apply list_elem_of_fmap_2|done|].
    fold m' in Hid. rewrite Hid. f_equal. unfold idOf.
    by rewrite (StringToId_known m' _ id).
Qed.

Lemma solved_var_package (m' : stringIdMap) pm model sol (v : nat) :
  Forall2 (λ v pkg, PackageByName (varName m' v) pm = inr pkg)
          (trueVars 1 (drop 1 model)) sol →
  (1 ≤ v)%nat → model !! v = Some true →
  ∃ pkg, pkg ∈ sol ∧ PackageByName (varName m' v) pm = inr pkg.
Proof.
  intros Hsol Hv Htrue.
  assert (v ∈ trueVars 1 (drop 1 model)) as Hin.
  { apply elem_of_trueVars. exists (v - 1)%nat. split; [lia|].
    rewrite lookup_drop. by replace (1 + (v - 1))%nat with v by lia. }
  apply list_elem_of_lookup_1 in Hin as [x Hx].
  destruct (Forall2_lookup_l _ _ _ _ _ Hsol Hx) as (pkg & Hpkg & Hname).
  exists pkg. split; [by eapply list_elem_of_lookup_2|done].
Qed.

Lemma solved_package_var (m' : stringIdMap) pm model sol (x : nat) pkg :
  Forall2 (λ v pkg, PackageByName (varName m' v) pm = inr pkg)
          (trueVars 1 (drop 1 model)) sol →
  sol !! x = Some pkg →
  ∃ v, trueVars 1 (drop 1 model) !! x = Some v ∧ (1 ≤ v < length model)%nat ∧
       model !! v = Some true ∧ PackageByName (varName m' v) pm = inr pkg.
Proof.
  intros Hsol Hx.
  destruct (Forall2_lookup_r _ _ _ _ _ Hsol Hx) as (v & Hv & Hname).
  exists v. split; [done|].
  apply list_elem_of_lookup_2, elem_of_trueVars in Hv as (k & -> & Hk).
  rewrite lookup_drop in Hk. pose proof (lookup_lt_Some _ _ _ Hk).
  split; [lia|]. done.
Qed.

(** A package found under the name of a variable: its name is in use,
    and the variable is its id. *)
Lemma decoded_package ps m m' v pkg :
  idmap_wf m' → s_map m ⊆ s_map m' →
  dom (s_map m) = list_to_set (PackageName <$> ps) ∖ {[""]} →
  Z.of_nat v ≤ maxInt32 →
  PackageByName (varName m' v) (addAll ps NewProductMap) = inr pkg →
  PackageName pkg ≠ "" →
  PackageName pkg = varName m' v ∧ pkg ∈ ps ∧
  s_map m !! PackageName pkg = Some (Z.of_nat v) ∧ idOf m pkg = Z.of_nat v.
Proof.
  intros Hwf' Hsub Hdom Hv Hpkg Hne. unfold PackageByName in Hpkg.
  destruct (pkgs (addAll ps NewProductMap) !! varName m' v) as [pkg'|] eqn:Hlook;
    [|done]. injection Hpkg as ->.
  destruct (inv_pkgs _ _ (addAll_inv ps) _ _ Hlook) as (Hname & Hin & _).
  rewrite <-Hname in *.
  assert (s_map m' !! PackageName pkg = Some (Z.of_nat v)) as Hid'.
  { apply (wf_inverse m' Hwf'). by apply varName_lookup. }
  assert (is_Some (s_map m !! PackageName pkg)) as [id Hid].
  { apply elem_of_dom. rewrite Hdom. apply elem_of_difference. split.
    - apply elem_of_list_to_set. by apply list_elem_of_fmap_2.
    - set_solver. }
  pose proof (lookup_weaken _ _ _ _ Hid Hsub) as Hid''.
  assert (id = Z.of_nat v) as -> by congruence.
  split_and!; try done.
  unfold idOf. by rewrite (StringToId_known m _ (Z.of_nat v)).
Qed.

Lemma exclusion_in_formula ord m pm prod (set : gmap string Packager) n1 n2 a b :
  prods pm !! prod = Some set → set !! n1 = Some a → set !! n2 = Some b → n1 ≠ n2 →
  [- idOf m a; - idOf m b] ∈ atMostOneClauses ord m pm ∨
  [- idOf m b; - idOf m a] ∈ atMostOneClauses ord m pm.
Proof.
  intros Hset Ha Hb Hne.
  apply (elem_of_range ord), list_elem_of_lookup_1 in Ha as [x Hx].
  apply (elem_of_range ord), list_elem_of_lookup_1 in Hb as [y Hy].
  assert (x ≠ y) as Hxy by (intros ->; congruence).
  assert (∀ (z : nat) n c, range ord set !! z = Some (n, c) →
            (idOf m <$> (range ord set).*2) !! z = Some (idOf m c)) as Hids.
  { intros z n c Hz. by rewrite !list_lookup_fmap, Hz. }
  assert (∀ c, c ∈ atMostOne (idOf m <$> (range ord set).*2) →
               c ∈ atMostOneClauses ord m pm) as Hin.
  { intros c Hc. unfold atMostOneClauses. apply list_elem_of_bind.
    exists (prod, set). split; [|by apply elem_of_range].
    unfold PackagesOf. simpl. by rewrite Hset. }
  destruct (decide (x < y)%nat) as [Hlt|Hge].
  - left. apply Hin, elem_of_atMostOne.
    exists x, y, (idOf m a), (idOf m b).
    split; [done|]. split; [by eapply Hids|]. split; [by eapply Hids|done].
  - right. apply Hin, elem_of_atMostOne.
    exists y, x, (idOf m b), (idOf m a).
    split; [lia|]. split; [by eapply Hids|]. split; [by eapply Hids|done].
Qed.

(** X8: when [Resolve] succeeds on a freshly initialized resolver, with
    a model of the engine that satisfies the clauses and the assumptions
    it was given, every requirement with a non-empty name is met: the
    solution holds the package that the product map keeps under the name
    of the requirement, a package of the index.  (Ids are [int32]: index
    and requirements mention at most [maxInt32] names.) *)
Theorem X8_requirements_in_solution (ord : MapOrder) (picosat_sat : Engine)
    (r0 r : Resolver) (p' : Pigosat) (model : list bool) (q : Packager) :
  requestFits (index r0) (requires r0) →
  Initialize ord r0 = Ret r →
  solverInput r = Some p' → picosat_sat p' = (Satisfiable, model) →
  honours model p' = true →
  (Resolve picosat_sat r).2 = (true, None) →
  q ∈ requires r0 → PackageName q ≠ "" →
  ∃ pkg, pkg ∈ Solution (Resolve picosat_sat r).1 ∧
         PackageName pkg = PackageName q ∧ pkg ∈ indexPackages (index r0) ∧
         ResolverPackageByName (PackageName q) r = inr pkg.
Proof.
  intros Hfits Hinit Hin He Hhon Hok Hq Hne.
  destruct (Resolve_solved_facts ord picosat_sat r0 r p' model Hfits Hinit Hin He Hok)
    as (m' & _ & _ & Hwf & Hwf' & Hsub & Hdom & Hpm & _ & Hass & Hreq & Hsol).
  destruct (honours_elim _ _ Hhon) as (_ & Hassumed & _).
  pose proof (Hreq q Hq Hne) as Hid.
  destruct (varName_id m' _ _ Hwf' Hid) as [Hname Hrange].
  assert (model !! Z.to_nat (idOf m' q) = Some true) as Htrue.
  { assert (litSat model (idOf m' q) = true) as Hsat.
    { apply Hassumed. rewrite Hass. by apply list_elem_of_fmap_2. }
    rewrite litSat_pos in Hsat by lia. by apply bool_decide_eq_true in Hsat. }
  destruct (solved_var_package m' (prodMap r) model _ (Z.to_nat (idOf m' q)) Hsol)
    as (pkg & Hpkg & Hlook); [lia|done|].
  rewrite Hname in Hlook. exists pkg. split; [done|].
  unfold ResolverPackageByName. rewrite Hlook.
  unfold PackageByName in Hlook. rewrite Hpm in Hlook.
  destruct (pkgs _ !! PackageName q) as [pkg'|] eqn:Hpkgs; [|done].
  injection Hlook as ->.
  by destruct (inv_pkgs _ _ (addAll_inv _) _ _ Hpkgs) as (? & ? & _).
Qed.

Lemma X8_requirements_in_solution_witness :
  requestFits (index (rawResolver [P "A" "2.0.0"] solveIndex ResolveSortNone))
              (requires (rawResolver [P "A" "2.0.0"] solveIndex ResolveSortNone)) ∧
  Initialize keyOrder (rawResolver [P "A" "2.0.0"] solveIndex ResolveSortNone) =
    Ret solveResolver ∧
  solverInput solveResolver = Some solveInput ∧
  refSolve solveInput = (Satisfiable, solveModel) ∧
  honours solveModel solveInput = true ∧
  (Resolve refSolve solveResolver).2 = (true, None) ∧
  P "A" "2.0.0" ∈ requires (rawResolver [P "A" "2.0.0"] solveIndex ResolveSortNone) ∧
  PackageName (P "A" "2.0.0") ≠ "" ∧
  ∃ pkg, pkg ∈ Solution (Resolve refSolve solveResolver).1 ∧
         PackageName pkg = PackageName (P "A" "2.0.0") ∧
         pkg ∈ indexPackages
                 (index (rawResolver [P "A" "2.0.0"] solveIndex ResolveSortNone)) ∧
         ResolverPackageByName (PackageName (P "A" "2.0.0")) solveResolver = inr pkg.
Proof.
  split; [by vm_compute|]. split; [vm_compute; reflexivity|].
  split; [vm_compute; reflexivity|]. split; [vm_compute; reflexivity|].
  split; [vm_compute; reflexivity|]. split; [vm_compute; reflexivity|].
  split; [simpl; set_solver|]. split; [done|].
  apply (X8_requirements_in_solution keyOrder refSolve
           (rawResolver [P "A" "2.0.0"] solveIndex ResolveSortNone)
           solveResolver solveInput solveModel (P "A" "2.0.0"));
    [by vm_compute|vm_compute; reflexivity|vm_compute; reflexivity
    |vm_compute; reflexivity|vm_compute; reflexivity|vm_compute; reflexivity
    |simpl; set_solver|done].
Defined.

(** X9: when [Resolve] succeeds on a freshly initialized resolver whose
    index has no empty package name, with a model of the engine that
    satisfies the clauses it was given, the solution holds packages of
    the index only, and no two of them belong to the same product.
    (Ids are [int32]: index and requirements mention at most [maxInt32]
    names.) *)
Theorem X9_one_package_per_product (ord : MapOrder) (picosat_sat : Engine)
    (r0 r : Resolver) (p' : Pigosat) (model : list bool) :
  requestFits (index r0) (requires r0) →
  Initialize ord r0 = Ret r →
  solverInput r = Some p' → picosat_sat p' = (Satisfiable, model) →
  honours model p' = true →
  (Resolve picosat_sat r).2 = (true, None) →
  "" ∉ indexNames (index r0) →
  NoDup (ProductName <$> Solution (Resolve picosat_sat r).1) ∧
  ∀ pkg, pkg ∈ Solution (Resolve picosat_sat r).1 → pkg ∈ indexPackages (index r0).
Proof.
  intros Hfits Hinit Hin He Hhon Hok Hnames.
  destruct (Resolve_solved_facts ord picosat_sat r0 r p' model Hfits Hinit Hin He Hok)
    as (m' & _ & _ & Hwf & Hwf' & Hsub & Hdom & Hpm & Hadded & _ & _ & Hsol).
  destruct (honours_elim _ _ Hhon) as (Hclauses & _ & Hsize).
  set (sol := Solution (Resolve picosat_sat r).1) in *.
  set (ps := indexPackages (index r0)) in *.
  assert (∀ (x : nat) pkg, sol !! x = Some pkg →
            ∃ v : nat, trueVars 1 (drop 1 model) !! x = Some v ∧
              model !! v = Some true ∧ (1 ≤ v)%nat ∧
              pkg ∈ ps ∧ PackageName pkg ≠ "" ∧
              pkgs (prodMap r) !! PackageName pkg = Some pkg ∧
              idOf (idMap r) pkg = Z.of_nat v) as Hentry.
  { intros x pkg Hx.
    destruct (solved_package_var m' (prodMap r) model sol x pkg Hsol Hx)
      as (v & Hv & Hrange & Htrue & Hlook).
    assert (pkg ∈ ps ∧ PackageName pkg = varName m' v) as [Hps Hname].
    { unfold PackageByName in Hlook. rewrite Hpm in Hlook.
      destruct (pkgs _ !! varName m' v) as [pkg'|] eqn:Hpkgs; [|done].
      injection Hlook as ->.
      by destruct (inv_pkgs _ _ (addAll_inv _) _ _ Hpkgs) as (? & ? & _). }
    assert (PackageName pkg ≠ "") as Hne.
    { intros Hemp. apply Hnames. rewrite <-Hemp. by apply indexPackages_names. }
    rewrite Hpm in Hlook.
    destruct (decoded_package ps (idMap r) m' v pkg Hwf' Hsub Hdom) as (_ & _ & _ & Hid);
      [unfold maxInt32; lia|done|done|].
    exists v. split_and!; try done; [lia|].
    rewrite Hname, Hpm. unfold PackageByName in Hlook.
    by destruct (pkgs _ !! varName m' v) as [pkg'|]; [injection Hlook as ->|]. }
  split.
  - apply NoDup_alt. intros x y prod Hx Hy.
    rewrite list_lookup_fmap in Hx, Hy.
    destruct (sol !! x) as [a|] eqn:Ha; [|done].
    destruct (sol !! y) as [b|] eqn:Hb; [|done].
    simpl in Hx, Hy. injection Hx as Hpa. injection Hy as Hpb.
    destruct (Hentry x a Ha) as (va & Hva & Havt & Hva1 & _ & _ & Hapk & Haid).
    destruct (Hentry y b Hb) as (vb & Hvb & Hbvt & Hvb1 & _ & _ & Hbpk & Hbid).
    destruct (decide (PackageName a = PackageName b)) as [Heq|Hne].
    + assert (va = vb) as ->.
      { unfold idOf in Haid, Hbid. rewrite Heq in Haid. lia. }
      eapply NoDup_lookup; [apply (trueVars_NoDup 1 (drop 1 model))|done|done].
    + exfalso. rewrite Hpm in Hapk, Hbpk.
      destruct (inv_pkgs _ _ (addAll_inv ps) _ _ Hapk) as (_ & _ & seta & Hseta & Hina).
      destruct (inv_pkgs _ _ (addAll_inv ps) _ _ Hbpk) as (_ & _ & setb & Hsetb & Hinb).
      rewrite Hpa in Hseta. rewrite Hpb in Hsetb.
      assert (setb = seta) as -> by congruence.
      assert (∀ c, c ∈ atMostOneClauses ord (idMap r) (addAll ps NewProductMap) →
                   clauseSat model c = true) as Hexcl.
      { intros c Hc. apply Hclauses. rewrite Hadded, Hpm. set_solver. }
      assert (chosen model (Z.of_nat va) = true ∧ chosen model (Z.of_nat vb) = true)
        as [Hca Hcb].
      { unfold chosen. rewrite !Nat2Z.id. split; by apply bool_decide_eq_true. }
      destruct (exclusion_in_formula ord (idMap r) _ prod seta _ _ a b
                  Hseta Hina Hinb Hne) as [Hc|Hc];
        apply Hexcl, clauseSat_elem in Hc as (l & Hl & Hsat);
        rewrite Haid, Hbid in Hl;
        apply elem_of_cons in Hl as [->|Hl];
        try apply list_elem_of_singleton in Hl as ->;
        apply litSat_neg_chosen in Hsat; try lia; congruence.
  - intros pkg Hpkg. apply list_elem_of_lookup_1 in Hpkg as [x Hx].
    by destruct (Hentry x pkg Hx) as (_ & _ & _ & _ & ? & _).
Qed.

Lemma X9_one_package_per_product_witness :
  requestFits (index (rawResolver [P "A" "2.0.0"] solveIndex ResolveSortNone))
              (requires (rawResolver [P "A" "2.0.0"] solveIndex ResolveSortNone)) ∧
  Initialize keyOrder (rawResolver [P "A" "2.0.0"] solveIndex ResolveSortNone) =
    Ret solveResolver ∧
  solverInput solveResolver = Some solveInput ∧
  refSolve solveInput = (Satisfiable, solveModel) ∧
  honours solveModel solveInput = true ∧
  (Resolve refSolve solveResolver).2 = (true, None) ∧
  ("" ∉ indexNames (index (rawResolver [P "A" "2.0.0"] solveIndex ResolveSortNone))) ∧
  NoDup (ProductName <$> Solution (Resolve refSolve solveResolver).1) ∧
  ∀ pkg, pkg ∈ Solution (Resolve refSolve solveResolver).1 →
         pkg ∈ indexPackages
                 (index (rawResolver [P "A" "2.0.0"] solveIndex ResolveSortNone)).
Proof.
  assert ("" ∉ indexNames (index (rawResolver [P "A" "2.0.0"] solveIndex ResolveSortNone)))
    as Hnames.
  { apply (bool_decide_unpack _). by vm_compute. }
  split; [by vm_compute|]. split; [vm_compute; reflexivity|].
  split; [vm_compute; reflexivity|]. split; [vm_compute; reflexivity|].
  split; [vm_compute; reflexivity|]. split; [vm_compute; reflexivity|].
  split; [exact Hnames|].
  apply (X9_one_package_per_product keyOrder refSolve
           (rawResolver [P "A" "2.0.0"] solveIndex ResolveSortNone)
           solveResolver solveInput solveModel);
    [by vm_compute|vm_compute; reflexivity|vm_compute; reflexivity
    |vm_compute; reflexivity|vm_compute; reflexivity|vm_compute; reflexivity
    |exact Hnames].
Defined.

(** X10: when [Resolve] succeeds on a freshly initialized resolver,
    with a model of the engine that satisfies the clauses it was given,
    the solution is closed under the index: if it holds a package under
    the (non-empty) name of the target of a dependency, then for every
    requirement group of that dependency it holds a package under the
    name of one of the members of the group.  (Ids are [int32]: index
    and requirements mention at most [maxInt32] names.) *)
Theorem X10_solution_closed (ord : MapOrder) (picosat_sat : Engine)
    (r0 r : Resolver) (p' : Pigosat) (model : list bool)
    (dep : Dependency) (G : Packages) (pkgT : Packager) :
  requestFits (index r0) (requires r0) →
  Initialize ord r0 = Ret r →
  solverInput r = Some p' → picosat_sat p' = (Satisfiable, model) →
  honours model p' = true →
  (Resolve picosat_sat r).2 = (true, None) →
  dep ∈ index r0 → G ∈ Requires dep → PackageName (Target dep) ≠ "" →
  pkgT ∈ Solution (Resolve picosat_sat r).1 →
  PackageName pkgT = PackageName (Target dep) →
  ∃ pi pkg, pi ∈ G ∧ pkg ∈ Solution (Resolve picosat_sat r).1 ∧
            PackageName pkg = PackageName pi.
Proof.
  intros Hfits Hinit Hin He Hhon Hok Hdep HG Hne HpkgT HnameT.
  destruct (Resolve_solved_facts ord picosat_sat r0 r p' model Hfits Hinit Hin He Hok)
    as (m' & _ & _ & Hwf & Hwf' & Hsub & Hdom & Hpm & Hadded & _ & _ & Hsol).
  destruct (honours_elim _ _ Hhon) as (Hclauses & _ & Hsize).
  set (sol := Solution (Resolve picosat_sat r).1) in *.
  set (ps := indexPackages (index r0)) in *.
  apply list_elem_of_lookup_1 in HpkgT as [x Hx].
  destruct (solved_package_var m' (prodMap r) model sol x pkgT Hsol Hx)
    as (v & _ & Hrange & Htrue & Hlook).
  rewrite Hpm in Hlook.
  destruct (decoded_package ps (idMap r) m' v pkgT Hwf' Hsub Hdom)
    as (_ & _ & HidT & _); [unfold maxInt32; lia|done|congruence|].
  assert (idOf (idMap r) (Target dep) = Z.of_nat v) as HidT'.
  { unfold idOf. rewrite <-HnameT. by rewrite (StringToId_known _ _ (Z.of_nat v)) by congruence. }
  assert (clauseSat model (depClause (idMap r) (Target dep) G) = true) as Hc.
  { apply Hclauses. rewrite Hadded. apply elem_of_app. left.
    unfold dependencyClauses. apply list_elem_of_bind. exists dep.
    split; [by apply list_elem_of_fmap_2|done]. }
  apply clauseSat_elem in Hc as (l & Hl & Hsat). unfold depClause in Hl.
  apply elem_of_cons in Hl as [->|Hl].
  { rewrite HidT' in Hsat. apply litSat_neg_chosen in Hsat; [|lia].
    unfold chosen in Hsat. rewrite Nat2Z.id in Hsat.
    apply bool_decide_eq_false in Hsat. done. }
  apply list_elem_of_fmap in Hl as (pi & -> & Hpi).
  assert (PackageName pi ∈ indexNames (index r0)) as HpiN
    by (by eapply indexPackages_names, group_indexPackages).
  assert (PackageName pi ≠ "") as Hpine.
  { intros Hemp. unfold idOf in Hsat. rewrite Hemp in Hsat. by vm_compute in Hsat. }
  assert (is_Some (s_map (idMap r) !! PackageName pi)) as [id Hid].
  { apply elem_of_dom. rewrite Hdom. set_solver. }
  assert (idOf (idMap r) pi = id) as Hidpi.
  { unfold idOf. by rewrite (StringToId_known _ _ id). }
  rewrite Hidpi in Hsat.
  destruct (varName_id m' id (PackageName pi) Hwf' (lookup_weaken _ _ _ _ Hid Hsub))
    as [Hname Hidr].
  rewrite litSat_pos in Hsat by lia. apply bool_decide_eq_true in Hsat.
  destruct (solved_var_package m' (prodMap r) model sol (Z.to_nat id) Hsol)
    as (pkg & Hpkg & Hlook'); [lia|done|].
  exists pi, pkg. split; [done|]. split; [done|].
  rewrite Hname, Hpm in Hlook'. unfold PackageByName in Hlook'.
  destruct (pkgs _ !! PackageName pi) as [pkg'|] eqn:Hpkgs; [|done].
  injection Hlook' as ->.
  by destruct (inv_pkgs _ _ (addAll_inv _) _ _ Hpkgs) as (? & _).
Qed.

Lemma X10_solution_closed_witness :
  requestFits (index (rawResolver [P "A" "2.0.0"] solveIndex ResolveSortNone))
              (requires (rawResolver [P "A" "2.0.0"] solveIndex ResolveSortNone)) ∧
  Initialize keyOrder (rawResolver [P "A" "2.0.0"] solveIndex ResolveSortNone) =
    Ret solveResolver ∧
  solverInput solveResolver = Some solveInput ∧
  refSolve solveInput = (Satisfiable, solveModel) ∧
  honours solveModel solveInput = true ∧
  (Resolve refSolve solveResolver).2 = (true, None) ∧
  {| Target := P "A" "2.0.0"; Requires := [[P "B" "2.0.0"]] |} ∈
    index (rawResolver [P "A" "2.0.0"] solveIndex ResolveSortNone) ∧
  [P "B" "2.0.0"] ∈ Requires {| Target := P "A" "2.0.0"; Requires := [[P "B" "2.0.0"]] |} ∧
  PackageName (Target {| Target := P "A" "2.0.0"; Requires := [[P "B" "2.0.0"]] |}) ≠ "" ∧
  P "A" "2.0.0" ∈ Solution (Resolve refSolve solveResolver).1 ∧
  PackageName (P "A" "2.0.0") =
    PackageName (Target {| Target := P "A" "2.0.0"; Requires := [[P "B" "2.0.0"]] |}) ∧
  ∃ pi pkg, pi ∈ [P "B" "2.0.0"] ∧ pkg ∈ Solution (Resolve refSolve solveResolver).1 ∧
            PackageName pkg = PackageName pi.
Proof.
  assert (P "A" "2.0.0" ∈ Solution (Resolve refSolve solveResolver).1) as Hsol.
  { apply (list_elem_of_lookup_2 _ 0%nat). vm_compute; reflexivity. }
  split; [by vm_compute|]. split; [vm_compute; reflexivity|].
  split; [vm_compute; reflexivity|]. split; [vm_compute; reflexivity|].
  split; [vm_compute; reflexivity|]. split; [vm_compute; reflexivity|].
  split; [apply (list_elem_of_lookup_2 _ 1%nat); reflexivity|].
  split; [apply (list_elem_of_lookup_2 _ 0%nat); reflexivity|].
  split; [done|]. split; [exact Hsol|]. split; [done|].
  apply (X10_solution_closed keyOrder refSolve
           (rawResolver [P "A" "2.0.0"] solveIndex ResolveSortNone)
           solveResolver solveInput solveModel
           {| Target := P "A" "2.0.0"; Requires := [[P "B" "2.0.0"]] |}
           [P "B" "2.0.0"] (P "A" "2.0.0"));
    [by vm_compute|vm_compute; reflexivity|vm_compute; reflexivity
    |vm_compute; reflexivity|vm_compute; reflexivity|vm_compute; reflexivity
    |apply (list_elem_of_lookup_2 _ 1%nat); reflexivity
    |apply (list_elem_of_lookup_2 _ 0%nat); reflexivity|done|exact Hsol|done].
Defined.

(** ** What [Resolve] changes, and what a setter resets *)

Lemma Resolve_state picosat_sat r p :
  solver r = Some p →
  let m' := internAll (PackageName <$> requires r) (idMap r) in
  let p' := {| adjusted := adjusted p; added := added p;
               assumed := assumed p ++ (idOf m' <$> requires r); res := res p |} in
  solverInput r = Some p' ∧
  ∃ sol, (Resolve picosat_sat r).1 =
    set_solution sol
      (set_solver (Some {| adjusted := adjusted p; added := added p; assumed := [];
                           res := (picosat_sat p').1 |})
         (set_idMap m' (set_conflicts None (set_solution [] r)))).
Proof.
  intros Hp m' p'.
  destruct (Resolve_unfold picosat_sat r p Hp) as [Hin HR]. fold m' p' in Hin, HR.
  split; [done|]. rewrite HR.
  set (r' := set_solver _ _).
  destruct (decide ((picosat_sat p').1 ≠ Satisfiable)); [by exists []|].
  destruct (remap_solution r' 1 (drop 1 (picosat_sat p').2)) as (found & -> & _).
  by exists ([] ++ found).
Qed.

(** X11: [Resolve] on an initialized resolver leaves the index, the
    requirements, the sort mode and the product map as they were, and
    the driver with the clauses it had and no assumption left; it drops
    the cached conflict report, interns the names of the requirements
    (the ids already handed out stay), and [Solved] afterwards tells
    whether the engine answered [Satisfiable], whatever [Resolve]
    itself returned. *)
Theorem X11_resolve_frame (picosat_sat : Engine) (r : Resolver) (p p' : Pigosat) :
  solver r = Some p → solverInput r = Some p' →
  let r' := (Resolve picosat_sat r).1 in
  index r' = index r ∧ requires r' = requires r ∧ sortMode r' = sortMode r ∧
  prodMap r' = prodMap r ∧ conflicts r' = None ∧
  idMap r' = internAll (PackageName <$> requires r) (idMap r) ∧
  s_map (idMap r) ⊆ s_map (idMap r') ∧
  added p' = added p ∧
  solver r' = Some {| adjusted := adjusted p; added := added p; assumed := [];
                      res := (picosat_sat p').1 |} ∧
  Solved r' = bool_decide ((picosat_sat p').1 = Satisfiable).
Proof.
  intros Hp Hin r'.
  destruct (Resolve_state picosat_sat r p Hp) as (Hin' & sol & Hr).
  rewrite Hin in Hin'. injection Hin' as ->.
  subst r'. rewrite Hr. unfold Solved. simpl.
  split_and!; try done. apply internAll_s_map_mono.
Qed.

Lemma X11_resolve_frame_witness :
  solver conflictResolver = Some (default pigosatNew (solver conflictResolver)) ∧
  solverInput conflictResolver = Some conflictInput ∧
  let r' := (Resolve refSolve conflictResolver).1 in
  let p := default pigosatNew (solver conflictResolver) in
  index r' = index conflictResolver ∧ requires r' = requires conflictResolver ∧
  sortMode r' = sortMode conflictResolver ∧
  prodMap r' = prodMap conflictResolver ∧ conflicts r' = None ∧
  idMap r' = internAll (PackageName <$> requires conflictResolver)
               (idMap conflictResolver) ∧
  s_map (idMap conflictResolver) ⊆ s_map (idMap r') ∧
  added conflictInput = added p ∧
  solver r' = Some {| adjusted := adjusted p; added := added p; assumed := [];
                      res := (refSolve conflictInput).1 |} ∧
  Solved r' = bool_decide ((refSolve conflictInput).1 = Satisfiable).
Proof.
  split; [vm_compute; reflexivity|]. split; [vm_compute; reflexivity|].
  apply (X11_resolve_frame refSolve conflictResolver
           (default pigosatNew (solver conflictResolver)) conflictInput);
    vm_compute; reflexivity.
Defined.

(** X12: a requirement added with [RequireTemp] lasts for one
    [Resolve]: the engine is given its id as an assumption, ahead of the
    ids of the fixed requirements, on the next [Resolve], and the ids of
    the fixed requirements alone on the one after; the clauses are the
    same throughout. *)
Theorem X12_temporary_requirement (picosat_sat : Engine) (q : Packager)
    (r : Resolver) (p : Pigosat) :
  solver r = Some p → assumed p = [] →
  ∃ r1 p1 p2,
    RequireTemp q r = Ret r1 ∧
    solverInput r1 = Some p1 ∧
    solverInput (Resolve picosat_sat r1).1 = Some p2 ∧
    let m := idMap (Resolve picosat_sat r1).1 in
    assumed p1 = idOf m q :: (idOf m <$> requires r) ∧
    assumed p2 = idOf m <$> requires r ∧
    added p1 = added p ∧ added p2 = added p ∧
    idMap (Resolve picosat_sat (Resolve picosat_sat r1).1).1 = m.
Proof.
  intros Hp Hass. unfold RequireTemp. rewrite Hp.
  destruct (StringToId (PackageName q) (idMap r)) as [tid m0] eqn:Htid.
  set (r1 := set_solver _ _).
  assert (solver r1 = Some (Assume tid p)) as Hp1 by done.
  destruct (Resolve_state picosat_sat r1 _ Hp1) as (Hin1 & sol & Hr1).
  simpl in Hin1, Hr1. rewrite Hass in Hin1, Hr1. simpl in Hin1, Hr1.
  set (m := internAll (PackageName <$> requires r) m0) in *.
  set (r2 := (Resolve picosat_sat r1).1) in *.
  assert (idMap r2 = m) as Hm by (by rewrite Hr1).
  assert (requires r2 = requires r) as Hreq by (by rewrite Hr1).
  assert (solver r2 = Some {| adjusted := adjusted p; added := added p; assumed := [];
                              res := (picosat_sat
                                {| adjusted := adjusted p; added := added p;
                                   assumed := tid :: (idOf m <$> requires r);
                                   res := res p |}).1 |}) as Hp2
    by (by rewrite Hr1).
  destruct (Resolve_state picosat_sat r2 _ Hp2) as (Hin2 & sol' & Hr2).
  simpl in Hin2, Hr2. rewrite Hm, Hreq in Hin2, Hr2.
  assert (internAll (PackageName <$> requires r) m = m) as Hnoop.
  { apply internAll_noop. intros s Hs.
    destruct (decide (s = "")) as [|Hne]; [by left|right].
    by apply internAll_dom. }
  rewrite Hnoop in Hin2, Hr2.
  eexists r1, _, _. split; [done|]. split; [exact Hin1|]. split; [exact Hin2|].
  cbv zeta. fold r2. rewrite Hm. simpl. split_and!; try done.
  - f_equal. unfold idOf.
    rewrite <-(StringToId_stable (PackageName q) (idMap r) m).
    + by rewrite Htid.
    + rewrite Htid. apply internAll_s_map_mono.
  - by rewrite Hr2.
Qed.

Lemma X12_temporary_requirement_witness :
  solver solveResolver = Some (default pigosatNew (solver solveResolver)) ∧
  assumed (default pigosatNew (solver solveResolver)) = [] ∧
  ∃ r1 p1 p2,
    RequireTemp (P "A" "1.0.0") solveResolver = Ret r1 ∧
    solverInput r1 = Some p1 ∧
    solverInput (Resolve refSolve r1).1 = Some p2 ∧
    let m := idMap (Resolve refSolve r1).1 in
    assumed p1 = idOf m (P "A" "1.0.0") :: (idOf m <$> requires solveResolver) ∧
    assumed p2 = idOf m <$> requires solveResolver ∧
    added p1 = added (default pigosatNew (solver solveResolver)) ∧
    added p2 = added (default pigosatNew (solver solveResolver)) ∧
    idMap (Resolve refSolve (Resolve refSolve r1).1).1 = m.
Proof.
  split; [vm_compute; reflexivity|]. split; [vm_compute; reflexivity|].
  apply (X12_temporary_requirement refSolve (P "A" "1.0.0") solveResolver
           (default pigosatNew (solver solveResolver)));
    vm_compute; reflexivity.
Defined.

(** X13: [SetRequirements] and [SetPackageIndex] do not panic on an
    index that fits; they rebuild the driver, the name-id map and the
    product map exactly as the constructor builds them from the same
    index and sort mode, and leave the resolver unsolved.  They do not
    touch the stored solution nor the cached conflict report: both stay
    those of the previous state. *)
Theorem X13_setters_reinitialize (ord : MapOrder) (r : Resolver)
    (requires' : Packages) (index' : list Dependency) :
  indexFits (index r) → indexFits index' →
  ∃ r1 n1 r2 n2,
    SetRequirements ord requires' r = Ret r1 ∧
    NewSortResolver ord requires' (index r) (sortMode r) = Ret n1 ∧
    SetPackageIndex ord index' r = Ret r2 ∧
    NewSortResolver ord (requires r) index' (sortMode r) = Ret n2 ∧
    (solver r1 = solver n1 ∧ idMap r1 = idMap n1 ∧ prodMap r1 = prodMap n1 ∧
     index r1 = index r ∧ requires r1 = requires' ∧ sortMode r1 = sortMode r ∧
     Solved r1 = false ∧
     Solution r1 = Solution r ∧ conflicts r1 = conflicts r) ∧
    (solver r2 = solver n2 ∧ idMap r2 = idMap n2 ∧ prodMap r2 = prodMap n2 ∧
     index r2 = index' ∧ requires r2 = requires r ∧ sortMode r2 = sortMode r ∧
     Solved r2 = false ∧
     Solution r2 = Solution r ∧ conflicts r2 = conflicts r).
Proof.
  intros Hfits Hfits'.
  unfold SetRequirements, SetPackageIndex, NewSortResolver.
  rewrite !Initialize_spec by done. simpl.
  eexists _, _, _, _. split; [done|]. split; [done|]. split; [done|]. split; [done|].
  by split.
Qed.

Lemma X13_setters_reinitialize_witness :
  indexFits (index solveResolved) ∧ indexFits conflictIndex ∧
  ∃ r1 n1 r2 n2,
    SetRequirements keyOrder [P "B" "2.0.0"] solveResolved = Ret r1 ∧
    NewSortResolver keyOrder [P "B" "2.0.0"] (index solveResolved)
      (sortMode solveResolved) = Ret n1 ∧
    SetPackageIndex keyOrder conflictIndex solveResolved = Ret r2 ∧
    NewSortResolver keyOrder (requires solveResolved) conflictIndex
      (sortMode solveResolved) = Ret n2 ∧
    (solver r1 = solver n1 ∧ idMap r1 = idMap n1 ∧ prodMap r1 = prodMap n1 ∧
     index r1 = index solveResolved ∧ requires r1 = [P "B" "2.0.0"] ∧
     sortMode r1 = sortMode solveResolved ∧
     Solved r1 = false ∧
     Solution r1 = Solution solveResolved ∧ conflicts r1 = conflicts solveResolved) ∧
    (solver r2 = solver n2 ∧ idMap r2 = idMap n2 ∧ prodMap r2 = prodMap n2 ∧
     index r2 = conflictIndex ∧ requires r2 = requires solveResolved ∧
     sortMode r2 = sortMode solveResolved ∧
     Solved r2 = false ∧
     Solution r2 = Solution solveResolved ∧ conflicts r2 = conflicts solveResolved).
Proof.
  split; [by vm_compute|]. split; [by vm_compute|].
  apply (X13_setters_reinitialize keyOrder solveResolved [P "B" "2.0.0"] conflictIndex);
    by vm_compute.
Defined.

(** ** The core interpreter: any line, any stream *)

Lemma parseLits_fold_shape line (l : list (nat * string)) lits0 negs0 lits negs :
  foldM (λ '(lits, negs) '(x, f),
           if decide (f = "0") then Ret (lits, negs)
           else match ParseInt32 f with
                | None => Err (ErrParsingInt f line)
                | Some parsed =>
                    let negs := if parsed <? 0 then S negs else negs in
                    lits ← store AtLits lits x parsed;
                    Ret (lits, negs)
                end)
        (lits0, negs0) l = Ret (lits, negs) →
  length lits = length lits0 ∧ ((negs0 < negs)%nat → (0 < length lits0)%nat).
Proof.
  revert lits0 negs0. induction l as [|[x f] l IH]; intros lits0 negs0; cbn [foldM].
  - intros [= -> ->]. split; [done|lia].
  - destruct (decide (f = "0")) as [Hf|Hf]; cbn [mbind outcome_bind]; [apply IH|].
    destruct (ParseInt32 f) as [parsed|]; [|done].
    unfold store. destruct (decide (x < length lits0)%nat) as [Hx|Hx]; [|done].
    cbn [mbind outcome_bind]. intros H. apply IH in H as [Hlen Hneg].
    rewrite length_insert in Hlen. split; [done|]. intros _. lia.
Qed.

Lemma parseLits_shape line fields lits negs :
  parseLits line fields = Ret (lits, negs) →
  length lits = (length fields - 1)%nat ∧ ((0 < negs)%nat → (0 < length lits)%nat).
Proof.
  unfold parseLits, make.
  destruct (Z.of_nat (length fields) - 1 <? 0) eqn:E; [done|].
  cbn [mbind outcome_bind]. intros H.
  apply parseLits_fold_shape in H as [Hlen Hneg].
  rewrite length_replicate in Hlen, Hneg. split; [lia|].
  intros Hn. rewrite Hlen. by apply Hneg.
Qed.

Lemma lookupLits_shape r line ls acc paks :
  foldM (λ paks l,
           match ResolverPackageByName (IdToString (wrap32 l) (idMap r)) r with
           | inl _ => Err (ErrUnexpectedLiteral l line)
           | inr p => Ret (paks ++ [p])
           end)
        acc ls = Ret paks →
  ∃ found, paks = acc ++ found ∧
    Forall2 (λ l p, literalPackage r l = inr p) ls found.
Proof.
  revert acc. induction ls as [|l ls IH]; intros acc; cbn [foldM].
  - intros [= <-]. exists []. by rewrite app_nil_r.
  - destruct (ResolverPackageByName (IdToString (wrap32 l) (idMap r)) r) as [e|p] eqn:E;
      cbn [mbind outcome_bind]; [done|].
    intros H. apply IH in H as (found & -> & Hfound).
    exists (p :: found). rewrite <-(assoc_L (++)). split; [done|].
    by constructor.
Qed.

Lemma parseClause_shape r line rel :
  parseClause r line = Ret rel →
  ∃ lits negs, parseLits line (Fields line) = Ret (lits, negs) ∧
    Forall2 (λ l p, literalPackage r l = inr p) (sortInts lits) (relPackages rel) ∧
    classify line (sortInts lits) negs = Ret (Relates rel) ∧
    length (relPackages rel) = (length (Fields line) - 1)%nat ∧
    match Relates rel with
    | Required | Restricts => length (relPackages rel) = 1%nat
    | Depends | Conflicts => (2 ≤ length (relPackages rel))%nat
    end.
Proof.
  unfold parseClause.
  destruct (decide (length (Fields line) = 0%nat)) as [|Hfields]; [done|].
  destruct (parseLits line (Fields line)) as [[lits negs]|e|pn] eqn:Hlits;
    cbn [mbind outcome_bind]; [|done..].
  destruct (lookupLits r line (sortInts lits)) as [paks|e|pn] eqn:Hpaks;
    cbn [mbind outcome_bind]; [|done..].
  destruct (classify line (sortInts lits) negs) as [relates|e|pn] eqn:Hrel;
    cbn [mbind outcome_bind]; [|done..].
  intros [= <-]. simpl.
  destruct (parseLits_shape _ _ _ _ Hlits) as [Hlen Hneg].
  apply lookupLits_shape in Hpaks as (found & -> & Hfound). simpl.
  pose proof (Forall2_length _ _ _ Hfound) as Hlen'. rewrite sortInts_length in Hlen'.
  exists lits, negs. split; [done|]. split; [done|]. split; [done|].
  split; [lia|].
  unfold classify in Hrel. rewrite sortInts_length in Hrel.
  destruct (decide (length lits = 1%nat)) as [Hone|Hmany].
  - destruct (0 <? nth 0 (sortInts lits) 0); injection Hrel as <-; simpl; congruence.
  - assert ((0 < negs)%nat → (2 ≤ length found)%nat) as Htwo.
    { intros Hn. apply Hneg in Hn. rewrite <-Hlen'. lia. }
    destruct (decide (negs = 1%nat)) as [->|?];
      [injection Hrel as <-; simpl; apply Htwo; lia|].
    destruct (decide (1 < negs)%nat);
      [injection Hrel as <-; simpl; apply Htwo; lia|done].
Qed.

(** X15: whatever the line, a relation that the clause branch of the
    core interpreter builds has one package per field of the line but
    the last, each the package of a literal of the line; a [Required]
    or [Restricts] relation has exactly one package, a [Depends] or
    [Conflicts] relation at least two. *)
Theorem X15_relation_shape (r : Resolver) (line : string) (rel : PackageRelation) :
  parseClause r line = Ret rel →
  length (relPackages rel) = (length (Fields line) - 1)%nat ∧
  (∀ p, p ∈ relPackages rel → ∃ l, literalPackage r l = inr p) ∧
  match Relates rel with
  | Required | Restricts => length (relPackages rel) = 1%nat
  | Depends | Conflicts => (2 ≤ length (relPackages rel))%nat
  end.
Proof.
  intros (lits & negs & _ & Hpaks & _ & Hlen & Hshape)%parseClause_shape.
  split; [done|]. split; [|done].
  intros p (x & Hx)%list_elem_of_lookup_1.
  destruct (Forall2_lookup_r _ _ _ _ _ Hpaks Hx) as (l & _ & Hl). by exists l.
Qed.

Lemma X15_relation_shape_witness :
  parseClause conflictResolver "-2 -4 0" =
    Ret {| relPackages := [P "C" "2.0.0"; P "C" "1.0.0"]; Relates := Conflicts |} ∧
  length [P "C" "2.0.0"; P "C" "1.0.0"] = (length (Fields "-2 -4 0") - 1)%nat ∧
  (∀ p, p ∈ [P "C" "2.0.0"; P "C" "1.0.0"] →
        ∃ l, literalPackage conflictResolver l = inr p) ∧
  (2 ≤ length [P "C" "2.0.0"; P "C" "1.0.0"])%nat.
Proof.
  split; [vm_compute; reflexivity|].
  apply (X15_relation_shape conflictResolver "-2 -4 0"
           {| relPackages := [P "C" "2.0.0"; P "C" "1.0.0"]; Relates := Conflicts |}).
  vm_compute; reflexivity.
Defined.

Lemma scan_content r post rels filled k :
  Forall (λ line, kindOf line ≠ PreambleLine) post →
  Forall2 (λ line rel, parseClause r line = Ret rel) (clauseLines post) rels →
  (length rels ≤ k)%nat →
  foldM (scanLine r) (filled ++ replicate k None, length filled) post =
    Ret (filled ++ (Some <$> rels) ++ replicate (k - length rels) None,
         (length filled + length rels)%nat).
Proof.
  intros Hpost. revert rels filled k.
  induction Hpost as [|line post Hline Hpost IH]; intros rels filled k Hgood Hroom.
  { apply Forall2_nil_inv_l in Hgood as ->. simpl.
    by rewrite Nat.sub_0_r, Nat.add_0_r. }
  cbn [foldM]. destruct (kindOf_cases line) as [?|[Hk|Hk]]; [done| |].
  - rewrite clauseLines_cons_clause in Hgood by done.
    apply Forall2_cons_inv_l in Hgood as (rel & rels' & Hrel & Hgood & ->).
    simpl in Hroom. destruct k as [|k]; [lia|].
    rewrite scanLine_clause by done. rewrite Hrel. cbn [mbind outcome_bind replicate].
    rewrite store_app. cbn [mbind outcome_bind].
    specialize (IH rels' (filled ++ [Some rel]) k Hgood).
    rewrite <-(assoc_L (++)), length_app in IH. simpl in IH.
    replace (S (length filled)) with (length filled + 1)%nat by lia.
    rewrite IH by lia. rewrite <-(assoc_L (++)). simpl. do 2 f_equal. lia.
  - assert (kindOf line ≠ ClauseLine) by (destruct Hk as [-> | ->]; done).
    rewrite clauseLines_cons_other in Hgood by done.
    rewrite scanLine_skip by done. cbn [mbind outcome_bind]. by apply IH.
Qed.

(** X16: a stream made of blank and comment lines, a preamble that
    declares [size] clauses, and then lines without a further preamble
    whose clause lines all parse, at most [size] of them: the report is
    the relations of the clause lines, in the order of the lines,
    followed by one nil entry for every declared clause that is
    missing; blank and comment lines count for nothing wherever they
    stand.  If the scanner stopped on an error, that error is returned
    instead. *)
Theorem X16_core_report (r : Resolver) (pre post : list string) (pline : string)
    (size : Z) (rels : list PackageRelation) (err : option string) :
  Forall (λ line, kindOf line = BlankLine ∨ kindOf line = CommentLine) pre →
  kindOf pline = PreambleLine → declaredCount pline = Some size →
  Forall (λ line, kindOf line ≠ PreambleLine) post →
  Forall2 (λ line rel, parseClause r line = Ret rel) (clauseLines post) rels →
  Z.of_nat (length rels) ≤ size →
  cnfToPackageRelations r {| lines := pre ++ pline :: post; scanErr := err |} =
    match err with
    | Some e => Err (ErrScanner e)
    | None => Ret ((Some <$> rels) ++ replicate (Z.to_nat size - length rels) None)
    end.
Proof.
  intros Hpre Hp Hsize Hpost Hgood Hroom. unfold cnfToPackageRelations. simpl.
  rewrite foldM_app, (scan_skip r _ pre Hpre). cbn [mbind outcome_bind foldM].
  rewrite (scanLine_preamble r _ _ pline size) by (done || lia).
  cbn [mbind outcome_bind].
  pose proof (scan_content r post rels [] (Z.to_nat size) Hpost Hgood) as Hscan.
  simpl in Hscan. rewrite Hscan by lia. cbn [mbind outcome_bind]. done.
Qed.

Lemma X16_core_report_witness :
  Forall (λ line, kindOf line = BlankLine ∨ kindOf line = CommentLine) ["c core"; ""] ∧
  kindOf "p cnf 4 3" = PreambleLine ∧ declaredCount "p cnf 4 3" = Some 3 ∧
  Forall (λ line, kindOf line ≠ PreambleLine) ["-1 2 0"; "c note"; "-2 -4 0"] ∧
  Forall2 (λ line rel, parseClause conflictResolver line = Ret rel)
    (clauseLines ["-1 2 0"; "c note"; "-2 -4 0"]) [dependsAC; conflictsCC] ∧
  Z.of_nat (length [dependsAC; conflictsCC]) ≤ 3 ∧
  cnfToPackageRelations conflictResolver
    {| lines := ["c core"; ""] ++ "p cnf 4 3" :: ["-1 2 0"; "c note"; "-2 -4 0"];
       scanErr := None |} =
    Ret ((Some <$> [dependsAC; conflictsCC]) ++
         replicate (Z.to_nat 3 - length [dependsAC; conflictsCC]) None).
Proof.
  assert (Forall (λ line, kindOf line = BlankLine ∨ kindOf line = CommentLine)
            ["c core"; ""]) as Hpre by (repeat constructor; by vm_compute).
  assert (Forall (λ line, kindOf line ≠ PreambleLine) ["-1 2 0"; "c note"; "-2 -4 0"])
    as Hpost by (repeat constructor; by vm_compute).
  assert (Forall2 (λ line rel, parseClause conflictResolver line = Ret rel)
            (clauseLines ["-1 2 0"; "c note"; "-2 -4 0"]) [dependsAC; conflictsCC])
    as Hgood.
  { change (clauseLines ["-1 2 0"; "c note"; "-2 -4 0"]) with ["-1 2 0"; "-2 -4 0"].
    repeat constructor; vm_compute; reflexivity. }
  split; [exact Hpre|]. split; [by vm_compute|]. split; [by vm_compute|].
  split; [exact Hpost|]. split; [exact Hgood|]. split; [by vm_compute|].
  apply (X16_core_report conflictResolver ["c core"; ""] ["-1 2 0"; "c note"; "-2 -4 0"]
           "p cnf 4 3" 3 [dependsAC; conflictsCC] None);
    [exact Hpre|by vm_compute|by vm_compute|exact Hpost|exact Hgood|by vm_compute].
Defined.

(** The fields ahead of the first offending one: each is ["0"] or a
    number, and each finds its slot. *)
Lemma parseLits_prefix line toks lits0 negs0 k :
  Forall (λ f, f = "0" ∨ is_Some (ParseInt32 f)) toks →
  (k + length toks ≤ length lits0)%nat →
  ∃ lits negs,
    foldM (λ '(lits, negs) '(x, f),
             if decide (f = "0") then Ret (lits, negs)
             else match ParseInt32 f with
                  | None => Err (ErrParsingInt f line)
                  | Some parsed =>
                      lits ← store AtLits lits x parsed;
                      Ret (lits, if parsed <? 0 then S negs else negs)
                  end)
          (lits0, negs0) (imap (λ x f, ((k + x)%nat, f)) toks) = Ret (lits, negs) ∧
    length lits = length lits0.
Proof.
  intros Htoks. revert lits0 negs0 k.
  induction Htoks as [|f toks Hf Htoks IH]; intros lits0 negs0 k Hroom.
  { by exists lits0, negs0. }
  rewrite imap_cons. cbn [foldM]. simpl in Hroom.
  rewrite (imap_ext _ (λ x f0, ((S k + x)%nat, f0))).
  2:{ intros x f0 _. simpl. f_equal. lia. }
  destruct (decide (f = "0")) as [Hz|Hz]; cbn [mbind outcome_bind].
  - apply IH. lia.
  - destruct Hf as [?|[parsed Hparsed]]; [done|]. rewrite Hparsed.
    rewrite store_in by lia. cbn [mbind outcome_bind].
    destruct (IH (<[(k + 0)%nat := parsed]> lits0)
                (if parsed <? 0 then S negs0 else negs0) (S k))
      as (lits & negs & Heq & Hlen); [rewrite length_insert; lia|].
    exists lits, negs. rewrite length_insert in Hlen. split; [exact Heq|done].
Qed.

(** X18: a clause line whose last field is a number other than the
    text ["0"], after fields that are numbers or ["0"], makes the core
    interpreter panic: the slice of literals has one slot less than the
    line has fields, and the last field is stored at its own index.
    The panic goes through [cnfToPackageRelations] wherever the line
    stands after blank and comment lines. *)
Theorem X18_missing_terminator (r : Resolver) (line : string)
    (toks : list string) (f : string) (l : Z)
    (pre rest : list string) (err : option string) :
  Fields line = toks ++ [f] →
  Forall (λ f, f = "0" ∨ is_Some (ParseInt32 f)) toks →
  f ≠ "0" → ParseInt32 f = Some l →
  parseClause r line =
    Panic (IndexOutOfRange AtLits (Z.of_nat (length toks)) (length toks)) ∧
  (kindOf line = ClauseLine →
   Forall (λ line, kindOf line = BlankLine ∨ kindOf line = CommentLine) pre →
   cnfToPackageRelations r {| lines := pre ++ line :: rest; scanErr := err |} =
     Panic (IndexOutOfRange AtLits (Z.of_nat (length toks)) (length toks))).
Proof.
  intros Hfields Htoks Hf Hl.
  assert (parseClause r line =
          Panic (IndexOutOfRange AtLits (Z.of_nat (length toks)) (length toks))) as Hpanic.
  { unfold parseClause. rewrite Hfields.
    rewrite decide_False by (rewrite length_app; simpl; lia).
    unfold parseLits, make. rewrite length_app. simpl.
    rewrite (proj2 (Z.ltb_ge _ _)) by lia. cbn [mbind outcome_bind].
    replace (Z.to_nat (Z.of_nat (length toks + 1) - 1)) with (length toks) by lia.
    rewrite imap_app, foldM_app.
    change (imap pair toks) with (imap (λ (x : nat) (f : string), ((0 + x)%nat, f)) toks).
    destruct (parseLits_prefix line toks (replicate (length toks) 0) O O Htoks)
      as (lits & negs & -> & Hlen); [rewrite length_replicate; lia|].
    rewrite length_replicate in Hlen.
    cbn [mbind outcome_bind imap foldM]. rewrite decide_False by done. rewrite Hl.
    rewrite store_out by lia. cbn [mbind outcome_bind].
    rewrite Hlen. do 2 f_equal. lia. }
  split; [done|]. intros Hk Hpre. unfold cnfToPackageRelations. simpl.
  rewrite foldM_app, (scan_skip r _ pre Hpre). cbn [mbind outcome_bind foldM].
  rewrite scanLine_clause by done. by rewrite Hpanic.
Qed.

Lemma X18_missing_terminator_witness :
  Fields "-1 2" = ["-1"] ++ ["2"] ∧
  Forall (λ f, f = "0" ∨ is_Some (ParseInt32 f)) ["-1"] ∧
  "2" ≠ "0" ∧ ParseInt32 "2" = Some 2 ∧
  parseClause conflictResolver "-1 2" =
    Panic (IndexOutOfRange AtLits (Z.of_nat (length ["-1"])) (length ["-1"])) ∧
  (kindOf "-1 2" = ClauseLine →
   Forall (λ line, kindOf line = BlankLine ∨ kindOf line = CommentLine) ["c core"] →
   cnfToPackageRelations conflictResolver
     {| lines := ["c core"] ++ "-1 2" :: ["p cnf 4 1"]; scanErr := None |} =
     Panic (IndexOutOfRange AtLits (Z.of_nat (length ["-1"])) (length ["-1"]))).
Proof.
  assert (Forall (λ f, f = "0" ∨ is_Some (ParseInt32 f)) ["-1"]) as Htoks.
  { constructor; [right; by eexists|constructor]. }
  split; [by vm_compute|]. split; [exact Htoks|]. split; [done|].
  split; [by vm_compute|].
  apply (X18_missing_terminator conflictResolver "-1 2" ["-1"] "2" 2
           ["c core"] ["p cnf 4 1"] None);
    [by vm_compute|exact Htoks|done|by vm_compute].
Defined.

(** X19: the first field of a clause line that is neither ["0"] nor a
    32-bit number, after fields that are, is reported as a parsing
    error that names the field and the line; nothing is looked up. *)
Theorem X19_unparsable_field (r : Resolver) (line : string)
    (toks : list string) (f : string) (rest : list string) :
  Fields line = toks ++ f :: rest →
  Forall (λ f, f = "0" ∨ is_Some (ParseInt32 f)) toks →
  ParseInt32 f = None →
  parseClause r line = Err (ErrParsingInt f line).
Proof.
  intros Hfields Htoks Hf.
  assert (f ≠ "0") as Hz by (intros ->; by rewrite ParseInt32_zero in Hf).
  unfold parseClause. rewrite Hfields.
  rewrite decide_False by (rewrite length_app; simpl; lia).
  unfold parseLits, make. rewrite length_app. simpl.
  rewrite (proj2 (Z.ltb_ge _ _)) by lia. cbn [mbind outcome_bind].
  change (f :: rest) with ([f] ++ rest). rewrite imap_app, foldM_app.
  change (imap pair toks) with (imap (λ (x : nat) (f : string), ((0 + x)%nat, f)) toks).
  destruct (parseLits_prefix line toks
              (replicate (Z.to_nat (Z.of_nat (length toks + S (length rest)) - 1)) 0)
              O O Htoks)
    as (lits & negs & -> & Hlen); [rewrite length_replicate; lia|].
  cbn [mbind outcome_bind]. rewrite imap_app, foldM_app.
  cbn [imap foldM]. rewrite decide_False by done. rewrite Hf. done.
Qed.

Lemma X19_unparsable_field_witness :
  Fields "-1 x 2 0" = ["-1"] ++ "x" :: ["2"; "0"] ∧
  Forall (λ f, f = "0" ∨ is_Some (ParseInt32 f)) ["-1"] ∧
  ParseInt32 "x" = None ∧
  parseClause conflictResolver "-1 x 2 0" = Err (ErrParsingInt "x" "-1 x 2 0").
Proof.
  assert (Forall (λ f, f = "0" ∨ is_Some (ParseInt32 f)) ["-1"]) as Htoks.
  { constructor; [right; by eexists|constructor]. }
  split; [by vm_compute|]. split; [exact Htoks|]. split; [by vm_compute|].
  apply (X19_unparsable_field conflictResolver "-1 x 2 0" ["-1"] "x" ["2"; "0"]);
    [by vm_compute|exact Htoks|by vm_compute].
Defined.

Lemma IdToString_beyond m l :
  idmap_wf m → minInt32 ≤ l ≤ maxInt32 → Z.of_nat (Len m) < Z.abs l →
  IdToString l m = "".
Proof.
  intros Hwf Hl Habs. unfold IdToString.
  set (l' := if l <? 0 then wrap32 (l * -1) else l).
  assert (¬ 1 ≤ l' ≤ i m) as Hout.
  { pose proof (wf_len m Hwf). subst l'. destruct (Z.ltb_spec l 0).
    - destruct (decide (l = minInt32)) as [->|].
      + assert (wrap32 (minInt32 * -1) = minInt32) as -> by reflexivity.
        unfold minInt32. lia.
      + rewrite wrap32_id by (unfold minInt32, maxInt32 in *; lia). lia.
    - lia. }
  destruct (i_map m !! l') eqn:E; [|done].
  exfalso. apply Hout, (wf_dense m Hwf). by eexists.
Qed.

Lemma ParseInt32_range f v : ParseInt32 f = Some v → minInt32 ≤ v ≤ maxInt32.
Proof.
  unfold ParseInt32. destruct f as [|c rest]; [done|].
  destruct (if decide (c = "-"%char) then (true, rest)
            else if decide (c = "+"%char) then (false, rest)
            else (false, String c rest)) as [neg body].
  destruct body as [|c' body]; [done|].
  destruct (parseDigits (String c' body) 0) as [n|]; [|done]. simpl.
  by destruct (decide (minInt32 ≤ (if neg then - n else n) ≤ maxInt32)); intros [= <-].
Qed.

Lemma Forall_exists_Forall2 {A B} (R : A → B → Prop) (l : list A) :
  Forall (λ x, ∃ y, R x y) l → ∃ k, Forall2 R l k.
Proof.
  induction 1 as [|x l [y Hy] _ [k Hk]]; [by exists []|].
  exists (y :: k). by constructor.
Qed.

(** X20: on a clause line that ends in ["0"] after non-zero numbers,
    the literals are looked up in ascending order, and the first one
    without a package is reported as an unexpected literal; the later
    ones are not looked up.  On a resolver whose name-id map keeps its
    invariant and whose product map has no package under the empty
    name, every literal beyond the ids in use is such a literal. *)
Theorem X20_unknown_literal (r : Resolver) (line : string) (toks : list string)
    (lits known rest : list Z) (l : Z) :
  Fields line = toks ++ ["0"] →
  Forall2 (λ f l, ParseInt32 f = Some l ∧ l ≠ 0) toks lits →
  sortInts lits = known ++ l :: rest →
  Forall (λ l', ∃ p, literalPackage r l' = inr p) known →
  ((∃ e, literalPackage r l = inl e) →
     parseClause r line = Err (ErrUnexpectedLiteral l line)) ∧
  (idmap_wf (idMap r) → (∃ e, ResolverPackageByName "" r = inl e) →
   Z.of_nat (Len (idMap r)) < Z.abs l →
     parseClause r line = Err (ErrUnexpectedLiteral l line)).
Proof.
  intros Hfields Htoks Hsorted Hknown.
  assert ((∃ e, literalPackage r l = inl e) →
          parseClause r line = Err (ErrUnexpectedLiteral l line)) as Herr.
  { intros [e He]. unfold parseClause. rewrite Hfields.
    rewrite decide_False by (rewrite length_app; simpl; lia).
    rewrite (parseLits_ok line toks lits Htoks). cbn [mbind outcome_bind].
    rewrite Hsorted. unfold lookupLits. rewrite foldM_app.
    destruct (Forall_exists_Forall2 _ _ Hknown) as [paks Hpaks].
    rewrite (lookupLits_gen r line known paks [] Hpaks).
    cbn [mbind outcome_bind foldM]. unfold literalPackage in He. by rewrite He. }
  split; [done|].
  intros Hwf Hempty Hbeyond. apply Herr.
  assert (l ∈ lits) as Hl.
  { rewrite <-(sortInts_perm lits), Hsorted. set_solver. }
  apply list_elem_of_lookup_1 in Hl as [x Hx].
  destruct (Forall2_lookup_r _ _ _ _ _ Htoks Hx) as (f & _ & Hf & _).
  pose proof (ParseInt32_range f l Hf) as Hrange.
  unfold literalPackage. rewrite wrap32_id by done.
  by rewrite IdToString_beyond.
Qed.

Lemma X20_unknown_literal_witness :
  Fields "-1 9 2 0" = ["-1"; "9"; "2"] ++ ["0"] ∧
  Forall2 (λ f l, ParseInt32 f = Some l ∧ l ≠ 0) ["-1"; "9"; "2"] [-1; 9; 2] ∧
  sortInts [-1; 9; 2] = [-1; 2] ++ 9 :: [] ∧
  Forall (λ l', ∃ p, literalPackage conflictResolver l' = inr p) [-1; 2] ∧
  ((∃ e, literalPackage conflictResolver 9 = inl e) →
     parseClause conflictResolver "-1 9 2 0" =
       Err (ErrUnexpectedLiteral 9 "-1 9 2 0")) ∧
  (idmap_wf (idMap conflictResolver) →
   (∃ e, ResolverPackageByName "" conflictResolver = inl e) →
   Z.of_nat (Len (idMap conflictResolver)) < Z.abs 9 →
     parseClause conflictResolver "-1 9 2 0" =
       Err (ErrUnexpectedLiteral 9 "-1 9 2 0")).
Proof.
  assert (Forall2 (λ f l, ParseInt32 f = Some l ∧ l ≠ 0) ["-1"; "9"; "2"] [-1; 9; 2])
    as Htoks by (repeat constructor; by vm_compute).
  assert (Forall (λ l', ∃ p, literalPackage conflictResolver l' = inr p) [-1; 2])
    as Hknown.
  { constructor; [eexists; vm_compute; reflexivity|].
    constructor; [eexists; vm_compute; reflexivity|constructor]. }
  split; [by vm_compute|]. split; [exact Htoks|]. split; [by vm_compute|].
  split; [exact Hknown|].
  apply (X20_unknown_literal conflictResolver "-1 9 2 0" ["-1"; "9"; "2"]
           [-1; 9; 2] [-1; 2] [] 9);
    [by vm_compute|exact Htoks|by vm_compute|exact Hknown].
Defined.

Lemma words_go_nonempty cur s : String.words_go (Some cur) s ≠ [].
Proof.
  revert cur. induction s as [|a s IH]; intros cur; simpl; [done|].
  destruct (Ascii.is_space a); [done|apply IH].
Qed.

Lemma Fields_preamble line :
  kindOf line = PreambleLine → ∃ f, last (Fields line) = Some f.
Proof.
  destruct line as [|c s]; [done|]. unfold kindOf.
  destruct (decide (c = "c"%char)); [done|].
  destruct (decide (c = "p"%char)) as [->|]; [|done]. intros _.
  destruct (last (Fields (String "p" s))) as [f|] eqn:E; [by exists f|].
  apply last_None in E. unfold Fields, String.words in E. simpl in E.
  by apply words_go_nonempty in E.
Qed.

(** X21: a preamble line always has a last field, so reading it never
    goes out of range.  When that field is not a 32-bit number the core
    interpreter returns the conversion error of the field; when it is a
    negative number the allocation of the report panics.  Either way
    the rest of the stream is not read. *)
Theorem X21_preamble_count (r : Resolver) (pre rest : list string) (pline : string)
    (err : option string) :
  Forall (λ line, kindOf line = BlankLine ∨ kindOf line = CommentLine) pre →
  kindOf pline = PreambleLine →
  ∃ f, last (Fields pline) = Some f ∧
    (ParseInt32 f = None →
       cnfToPackageRelations r {| lines := pre ++ pline :: rest; scanErr := err |} =
         Err (ErrStrconv f)) ∧
    (∀ size, ParseInt32 f = Some size → size < 0 →
       cnfToPackageRelations r {| lines := pre ++ pline :: rest; scanErr := err |} =
         Panic MakesliceLenOutOfRange).
Proof.
  intros Hpre Hp. destruct (Fields_preamble pline Hp) as [f Hf].
  exists f. split; [done|].
  assert (∀ o, scanLine r ([], O) pline = o → (∀ st, o ≠ Ret st) →
            ∃ o', cnfToPackageRelations r
                    {| lines := pre ++ pline :: rest; scanErr := err |} = o' ∧
                  match o, o' with
                  | Err e, Err e' => e = e'
                  | Panic pn, Panic pn' => pn = pn'
                  | _, _ => False
                  end) as Hstop.
  { intros o Ho Hne. unfold cnfToPackageRelations. simpl.
    rewrite foldM_app, (scan_skip r _ pre Hpre). cbn [mbind outcome_bind foldM].
    rewrite Ho. destruct o as [st|e|pn]; [by destruct (Hne st)|..];
      cbn [mbind outcome_bind]; by eexists. }
  rewrite scanLine_preamble_cases, Hf in Hstop by done.
  split.
  - intros Hnone. rewrite Hnone in Hstop.
    destruct (Hstop _ eq_refl) as (o' & -> & Ho'); [done|].
    destruct o'; [done| |done]. by subst.
  - intros size Hsize Hneg. rewrite Hsize in Hstop. unfold make in Hstop.
    rewrite (proj2 (Z.ltb_lt _ _)) in Hstop by done. cbn [mbind outcome_bind] in Hstop.
    destruct (Hstop _ eq_refl) as (o' & -> & Ho'); [done|].
    destruct o'; [done|done|]. by subst.
Qed.

Lemma X21_preamble_count_witness :
  Forall (λ line, kindOf line = BlankLine ∨ kindOf line = CommentLine) ["c core"] ∧
  kindOf "p cnf 4 -1" = PreambleLine ∧
  ∃ f, last (Fields "p cnf 4 -1") = Some f ∧
    (ParseInt32 f = None →
       cnfToPackageRelations conflictResolver
         {| lines := ["c core"] ++ "p cnf 4 -1" :: ["-1 2 0"]; scanErr := None |} =
         Err (ErrStrconv f)) ∧
    (∀ size, ParseInt32 f = Some size → size < 0 →
       cnfToPackageRelations conflictResolver
         {| lines := ["c core"] ++ "p cnf 4 -1" :: ["-1 2 0"]; scanErr := None |} =
         Panic MakesliceLenOutOfRange).
Proof.
  assert (Forall (λ line, kindOf line = BlankLine ∨ kindOf line = CommentLine)
            ["c core"]) as Hpre by (repeat constructor; by vm_compute).
  split; [exact Hpre|]. split; [by vm_compute|].
  apply (X21_preamble_count conflictResolver ["c core"] ["-1 2 0"] "p cnf 4 -1" None);
    [exact Hpre|by vm_compute].
Defined.

(** ** Rendering a report *)

Lemma phrases_app a b :
  phrases (a ++ b) =
    match phrases a with
    | inl e => inl e
    | inr sa => match phrases b with
                | inl e => inl e
                | inr sb => inr (sa ++ sb)
                end
    end.
Proof.
  induction a as [|rel a IH]; simpl.
  - by destruct (phrases b).
  - destruct (PackageRelation_String rel) as [e|s]; [done|]. rewrite IH.
    destruct (phrases a) as [e|sa]; [done|]. by destruct (phrases b).
Qed.

Lemma phrase_of_relation r line rel :
  parseClause r line = Ret rel →
  ∃ subject others, relPackages rel = subject :: others ∧
    (others = [] ↔ Relates rel = Required ∨ Relates rel = Restricts) ∧
    PackageRelation_String (Some rel) =
      inr match Relates rel with
          | Required => "Package " +:+ PackageName subject +:+ " is required"
          | Restricts => "Package " +:+ PackageName subject +:+ " is not allowed"
          | Depends =>
              "Package " +:+ PackageName subject +:+ " depends on one of (" +:+
              Join (PackageName <$> others) ", " +:+ ")"
          | Conflicts =>
              "Package " +:+ PackageName subject +:+ " conflicts with (" +:+
              Join (PackageName <$> others) ", " +:+ ")"
          end.
Proof.
  intros (lits & negs & _ & _ & _ & _ & Hshape)%parseClause_shape.
  unfold PackageRelation_String.
  destruct (relPackages rel) as [|subject others] eqn:Hpaks.
  { simpl in Hshape. destruct (Relates rel); lia. }
  exists subject, others. split; [done|]. split; [|done].
  simpl in Hshape. destruct (Relates rel), others; simpl in Hshape;
    (split; [intros ?|intros [?|?]]); try done; try lia; auto.
Qed.

(** X22: rendering a relation that the core interpreter built never
    panics.  The phrase names the first package as its subject; a
    [Required] or [Restricts] relation has no other package, a
    [Depends] or [Conflicts] relation lists the names of the others,
    at least one, separated by a comma and a space. *)
Theorem X22_relation_phrase (r : Resolver) (line : string) (rel : PackageRelation) :
  parseClause r line = Ret rel →
  ∃ subject others, relPackages rel = subject :: others ∧
    (others = [] ↔ Relates rel = Required ∨ Relates rel = Restricts) ∧
    PackageRelation_String (Some rel) =
      inr match Relates rel with
          | Required => "Package " +:+ PackageName subject +:+ " is required"
          | Restricts => "Package " +:+ PackageName subject +:+ " is not allowed"
          | Depends =>
              "Package " +:+ PackageName subject +:+ " depends on one of (" +:+
              Join (PackageName <$> others) ", " +:+ ")"
          | Conflicts =>
              "Package " +:+ PackageName subject +:+ " conflicts with (" +:+
              Join (PackageName <$> others) ", " +:+ ")"
          end.
Proof.
  intros Hrel.
  destruct (phrase_of_relation r line rel Hrel) as (subject & others & Hpaks & Hkind & Hs).
  exists subject, others. split; [exact Hpaks|]. split; [exact Hkind|exact Hs].
Qed.

Lemma X22_relation_phrase_witness :
  parseClause conflictResolver "-2 -4 0" = Ret conflictsCC ∧
  ∃ subject others, relPackages conflictsCC = subject :: others ∧
    (others = [] ↔ Relates conflictsCC = Required ∨ Relates conflictsCC = Restricts) ∧
    PackageRelation_String (Some conflictsCC) =
      inr match Relates conflictsCC with
          | Required => "Package " +:+ PackageName subject +:+ " is required"
          | Restricts => "Package " +:+ PackageName subject +:+ " is not allowed"
          | Depends =>
              "Package " +:+ PackageName subject +:+ " depends on one of (" +:+
              Join (PackageName <$> others) ", " +:+ ")"
          | Conflicts =>
              "Package " +:+ PackageName subject +:+ " conflicts with (" +:+
              Join (PackageName <$> others) ", " +:+ ")"
          end.
Proof.
  split; [vm_compute; reflexivity|].
  apply (X22_relation_phrase conflictResolver "-2 -4 0" conflictsCC).
  vm_compute; reflexivity.
Defined.

(** X23: a report whose entries are all relations that the core
    interpreter built renders as their phrases, one per entry, joined
    by newlines; a report with a nil entry after them (a declared
    clause that the stream did not bring) makes the rendering panic on
    the nil pointer; the nil report renders as the empty string. *)
Theorem X23_report_rendering (r : Resolver) (clauseLines_ : list string)
    (rels : list PackageRelation) (missing : nat) :
  Forall2 (λ line rel, parseClause r line = Ret rel) clauseLines_ rels →
  (∃ strs,
     Forall2 (λ rel s, PackageRelation_String (Some rel) = inr s) rels strs ∧
     PackageRelations_String (Some (Some <$> rels)) = inr (Join strs newline)) ∧
  ((0 < missing)%nat →
     PackageRelations_String (Some ((Some <$> rels) ++ replicate missing None)) =
       inl NilRelation) ∧
  PackageRelations_String None = inr "".
Proof.
  intros Hrels.
  assert (∃ strs,
            Forall2 (λ rel s, PackageRelation_String (Some rel) = inr s) rels strs ∧
            phrases (Some <$> rels) = inr strs) as (strs & Hstrs & Hphr).
  { induction Hrels as [|line rel ls rels Hrel _ (strs & Hstrs & Hphr)].
    - by exists [].
    - destruct (phrase_of_relation r line rel Hrel) as (subject & others & _ & _ & Hs).
      eexists (_ :: strs). split; [constructor; [exact Hs|done]|].
      cbn [fmap list_fmap phrases]. rewrite Hs.
      change (phrases (list_fmap _ _ Some rels)) with (phrases (Some <$> rels)).
      by rewrite Hphr. }
  split; [|split; [|done]].
  - exists strs. split; [done|]. unfold PackageRelations_String. by rewrite Hphr.
  - intros Hmissing. unfold PackageRelations_String.
    rewrite phrases_app, Hphr. by destruct missing; [lia|].
Qed.

Lemma X23_report_rendering_witness :
  Forall2 (λ line rel, parseClause conflictResolver line = Ret rel)
    ["-1 2 0"; "-2 -4 0"] [dependsAC; conflictsCC] ∧
  (∃ strs,
     Forall2 (λ rel s, PackageRelation_String (Some rel) = inr s)
       [dependsAC; conflictsCC] strs ∧
     PackageRelations_String (Some (Some <$> [dependsAC; conflictsCC])) =
       inr (Join strs newline)) ∧
  ((0 < 1)%nat →
     PackageRelations_String (Some ((Some <$> [dependsAC; conflictsCC]) ++
                                    replicate 1 None)) = inl NilRelation) ∧
  PackageRelations_String None = inr "".
Proof.
  assert (Forall2 (λ line rel, parseClause conflictResolver line = Ret rel)
            ["-1 2 0"; "-2 -4 0"] [dependsAC; conflictsCC]) as Hrels
    by (repeat constructor; vm_compute; reflexivity).
  split; [exact Hrels|].
  apply (X23_report_rendering conflictResolver ["-1 2 0"; "-2 -4 0"]
           [dependsAC; conflictsCC] 1 Hrels).
Defined.

(** The report of [Example_conflict], as the example prints it. *)
Example conflict_report_rendering :
  PackageRelations_String
    (Some [Some dependsAC;
           Some {| relPackages := [P "B" "1.0.0"; P "C" "2.0.0"]; Relates := Depends |};
           Some conflictsCC]) =
  inr ("Package A-1.0.0 depends on one of (C-1.0.0)" +:+ newline +:+
       "Package B-1.0.0 depends on one of (C-2.0.0)" +:+ newline +:+
       "Package C-2.0.0 conflicts with (C-1.0.0)").
Proof. reflexivity. Qed.

(** ** Reporting a failed resolve *)

Lemma Solved_set_conflicts c r : Solved (set_conflicts c r) = Solved r.
Proof. done. Qed.

(** X24: [DetailedConflicts] on a solved resolver returns the empty
    report without asking the driver.  On an unsolved one, a report
    that was computed is cached: the next call returns it again and
    does not ask the driver, whatever the driver would then write; a
    call that fails, or that yields the nil report, caches nothing. *)
Theorem X24_detailed_conflicts_cache (writeClausalCore writeAgain : CoreWriter)
    (r : Resolver) :
  (Solved r = true → DetailedConflicts writeClausalCore r = Ret (r, Some [])) ∧
  (∀ cached, Solved r = false → conflicts r = Some cached →
     DetailedConflicts writeClausalCore r = Ret (r, Some cached)) ∧
  (∀ r1 report,
     Solved r = false →
     DetailedConflicts writeClausalCore r = Ret (r1, Some report) →
     conflicts r1 = Some report ∧
     DetailedConflicts writeAgain r1 = Ret (r1, Some report)) ∧
  (∀ r1, DetailedConflicts writeClausalCore r = Ret (r1, None) →
     r1 = r ∧ conflicts r1 = None) ∧
  (∀ e, DetailedConflicts writeClausalCore r = Err e → conflicts r = None).
Proof.
  unfold DetailedConflicts. split_and!.
  - by intros ->.
  - by intros cached -> ->.
  - intros r1 report Hs. rewrite Hs.
    destruct (conflicts r) as [cached|] eqn:Hc.
    { intros [= <- <-]. by rewrite Hs, Hc. }
    destruct (solver r) as [p|]; [|done].
    destruct (writeClausalCore p) as [msg|buf]; [done|].
    destruct (cnfToPackageRelations r buf) as [pkgs|e|pn]; cbn [mbind outcome_bind];
      [|done..].
    destruct (allocates buf); [|done]. intros [= <- <-].
    rewrite Solved_set_conflicts, Hs. done.
  - intros r1. destruct (Solved r); [done|].
    destruct (conflicts r) as [cached|] eqn:Hc; [done|].
    destruct (solver r) as [p|]; [|done].
    destruct (writeClausalCore p) as [msg|buf]; [done|].
    destruct (cnfToPackageRelations r buf) as [pkgs|e|pn]; cbn [mbind outcome_bind];
      [|done..].
    destruct (allocates buf); [done|]. intros [= <-].
    destruct r; simpl in *; by subst.
  - intros e. destruct (Solved r); [done|].
    by destruct (conflicts r).
Qed.

(** X25: the cached conflict report outlives a change of the
    requirements or of the index: until the next [Resolve],
    [DetailedConflicts] on the re-initialized resolver returns the
    report of the previous state, and does not ask the driver. *)
Theorem X25_stale_report (ord : MapOrder) (writeClausalCore : CoreWriter)
    (r : Resolver) (cached : PackageRelations)
    (requires' : Packages) (index' : list Dependency) :
  indexFits (index r) → indexFits index' → conflicts r = Some cached →
  ∃ r1 r2,
    SetRequirements ord requires' r = Ret r1 ∧
    DetailedConflicts writeClausalCore r1 = Ret (r1, Some cached) ∧
    SetPackageIndex ord index' r = Ret r2 ∧
    DetailedConflicts writeClausalCore r2 = Ret (r2, Some cached).
Proof.
  intros Hfits Hfits' Hc.
  unfold SetRequirements, SetPackageIndex.
  rewrite !Initialize_spec by done. simpl.
  eexists _, _. split; [done|]. split; [|split; [done|]].
  - unfold DetailedConflicts, Solved. simpl. by rewrite Hc.
  - unfold DetailedConflicts, Solved. simpl. by rewrite Hc.
Qed.

Lemma X25_stale_report_witness :
  indexFits (index conflictReported) ∧ indexFits solveIndex ∧
  conflicts conflictReported =
    Some [Some dependsAC;
          Some {| relPackages := [P "B" "1.0.0"; P "C" "2.0.0"]; Relates := Depends |};
          Some conflictsCC] ∧
  ∃ r1 r2,
    SetRequirements keyOrder [P "A" "1.0.0"] conflictReported = Ret r1 ∧
    DetailedConflicts conflictCore r1 =
      Ret (r1, Some [Some dependsAC;
                     Some {| relPackages := [P "B" "1.0.0"; P "C" "2.0.0"];
                             Relates := Depends |};
                     Some conflictsCC]) ∧
    SetPackageIndex keyOrder solveIndex conflictReported = Ret r2 ∧
    DetailedConflicts conflictCore r2 =
      Ret (r2, Some [Some dependsAC;
                     Some {| relPackages := [P "B" "1.0.0"; P "C" "2.0.0"];
                             Relates := Depends |};
                     Some conflictsCC]).
Proof.
  split; [by vm_compute|]. split; [by vm_compute|]. split; [vm_compute; reflexivity|].
  apply (X25_stale_report keyOrder conflictCore conflictReported _
           [P "A" "1.0.0"] solveIndex);
    [by vm_compute|by vm_compute|vm_compute; reflexivity].
Defined.

(** A resolver that [Initialize] has set up, with the names of its
    requirements interned as [Resolve] does. *)
Lemma initialized_facts ord r0 r :
  requestFits (index r0) (requires r0) →
  Initialize ord r0 = Ret r →
  let m' := internAll (PackageName <$> requires r0) (idMap r) in
  ∃ p, solver r = Some p ∧ requires r = requires r0 ∧
    prodMap r = addAll (indexPackages (index r0)) NewProductMap ∧
    dom (s_map (idMap r)) = indexNames (index r0) ∖ {[""]} ∧
    idmap_wf m' ∧
    dom (s_map m') =
      (indexNames (index r0) ∪ list_to_set (PackageName <$> requires r0)) ∖ {[""]} ∧
    (∀ q, PackageName q ≠ "" → is_Some (s_map m' !! PackageName q) →
          s_map m' !! PackageName q = Some (idOf m' q)).
Proof.
  intros Hfits Hinit m'.
  assert (indexFits (index r0)) as Hfits0.
  { unfold requestFits, indexFits in *.
    assert (size (indexNames (index r0)) ≤
            size (indexNames (index r0) ∪
                  list_to_set (PackageName <$> requires r0)))%nat
      by (apply subseteq_size; set_solver).
    lia. }
  destruct (Initialize_formula ord r0 Hfits0)
    as (r1 & p & Hinit1 & Hp & Hm & Hpm & _ & _ & _ & _ & Hreq & _).
  rewrite Hinit in Hinit1. injection Hinit1 as <-.
  destruct (index_idMap_wf ord (sortMode r0) (index r0) Hfits0) as [Hwf Hdom].
  rewrite <-Hm in Hwf, Hdom.
  set (N := indexNames (index r0) ∪ list_to_set (PackageName <$> requires r0)) in *.
  destruct (internAll_wf_bounded N (PackageName <$> requires r0) (idMap r)) as [Hwf' _];
    [done|rewrite Hdom; set_solver|set_solver|done|]. fold m' in Hwf'.
  exists p. split_and!; try done.
  - subst m'. rewrite internAll_domain, Hdom. subst N.
    apply set_eq. intros s. rewrite !elem_of_union, !elem_of_difference,
      !elem_of_union, !elem_of_list_to_set, list_elem_of_filter. set_solver.
  - intros q Hne [id Hid]. rewrite Hid. f_equal. unfold idOf.
    by rewrite (StringToId_known m' _ id).
Qed.

(** X26: after a [Resolve] on a freshly initialized resolver,
    [Conflicts] returns one entry per failed assumption of the driver,
    in the order of the driver.  The entry of a requirement that the
    index mentions is a package of the index with the name of the
    requirement; the entry of a requirement that the index does not
    mention is nil.  (Ids are [int32]: index and requirements mention
    at most [maxInt32] names.) *)
Theorem X26_conflicts_entries (ord : MapOrder) (picosat_sat : Engine)
    (failedAssumptions : Pigosat → list Literal) (r0 r : Resolver) :
  requestFits (index r0) (requires r0) →
  Initialize ord r0 = Ret r →
  ∃ p entries,
    solver (Resolve picosat_sat r).1 = Some p ∧
    ResolverConflicts failedAssumptions (Resolve picosat_sat r).1 = Ret entries ∧
    length entries = length (failedAssumptions p) ∧
    ∀ (x : nat) q, q ∈ requires r0 → PackageName q ≠ "" →
      failedAssumptions p !! x = Some (idOf (idMap (Resolve picosat_sat r).1) q) →
      (PackageName q ∈ indexNames (index r0) →
         ∃ pkg, entries !! x = Some (Some pkg) ∧
                PackageName pkg = PackageName q ∧ pkg ∈ indexPackages (index r0)) ∧
      (PackageName q ∉ indexNames (index r0) → entries !! x = Some None).
Proof.
  intros Hfits Hinit.
  destruct (initialized_facts ord r0 r Hfits Hinit)
    as (p0 & Hp0 & Hreq & Hpm & _ & Hwf' & Hdom' & Hids).
  destruct (Resolve_state picosat_sat r p0 Hp0) as (_ & sol & Hr).
  rewrite Hreq in Hr. rewrite Hr. unfold ResolverConflicts. simpl.
  set (m' := internAll (PackageName <$> requires r0) (idMap r)) in *.
  eexists _, _. split; [done|]. split; [done|]. split; [by rewrite length_fmap|].
  intros x q Hq Hne Hx. rewrite list_lookup_fmap, Hx. simpl.
  assert (s_map m' !! PackageName q = Some (idOf m' q)) as Hid.
  { apply Hids; [done|]. apply elem_of_dom. rewrite Hdom'.
    apply elem_of_difference. split; [|set_solver].
    apply elem_of_union. right. apply elem_of_list_to_set.
    by apply list_elem_of_fmap_2. }
  pose proof (proj1 (wf_inverse m' Hwf' _ _) Hid) as Hname.
  destruct (idmap_wf_name_nonempty m' _ _ Hwf' Hname) as [_ Hrange].
  rewrite IdToString_pos by lia. rewrite Hname. simpl.
  unfold PackageByName. rewrite Hpm.
  pose proof (addAll_inv (indexPackages (index r0))) as Hinv.
  split.
  - intros Hin.
    assert (is_Some (pkgs (addAll (indexPackages (index r0)) NewProductMap)
                       !! PackageName q)) as [pkg Hpkg].
    { apply elem_of_dom. by rewrite (inv_names _ _ Hinv). }
    rewrite Hpkg. exists pkg. split; [done|].
    by destruct (inv_pkgs _ _ Hinv _ _ Hpkg) as (? & ? & _).
  - intros Hout.
    assert (pkgs (addAll (indexPackages (index r0)) NewProductMap)
              !! PackageName q = None) as ->; [|done].
    apply not_elem_of_dom. by rewrite (inv_names _ _ Hinv).
Qed.

Lemma X26_conflicts_entries_witness :
  requestFits (index (rawResolver [P "Q" "1.0.0"; P "Z" "1.0.0"] freeIndex ResolveSortNone))
    (requires (rawResolver [P "Q" "1.0.0"; P "Z" "1.0.0"] freeIndex ResolveSortNone)) ∧
  Initialize keyOrder
    (rawResolver [P "Q" "1.0.0"; P "Z" "1.0.0"] freeIndex ResolveSortNone) =
    Ret (constructed (NewResolver keyOrder [P "Q" "1.0.0"; P "Z" "1.0.0"] freeIndex)) ∧
  ∃ p entries,
    solver (Resolve refSolve
              (constructed (NewResolver keyOrder [P "Q" "1.0.0"; P "Z" "1.0.0"]
                              freeIndex))).1 = Some p ∧
    ResolverConflicts (λ _, [2; 1])
      (Resolve refSolve
         (constructed (NewResolver keyOrder [P "Q" "1.0.0"; P "Z" "1.0.0"]
                         freeIndex))).1 = Ret entries ∧
    length entries = length ((λ _ : Pigosat, [2; 1]) p) ∧
    ∀ (x : nat) q,
      q ∈ requires (rawResolver [P "Q" "1.0.0"; P "Z" "1.0.0"] freeIndex ResolveSortNone) →
      PackageName q ≠ "" →
      (λ _ : Pigosat, [2; 1]) p !! x =
        Some (idOf (idMap (Resolve refSolve
                             (constructed (NewResolver keyOrder
                                             [P "Q" "1.0.0"; P "Z" "1.0.0"]
                                             freeIndex))).1) q) →
      (PackageName q ∈
         indexNames (index (rawResolver [P "Q" "1.0.0"; P "Z" "1.0.0"] freeIndex
                              ResolveSortNone)) →
         ∃ pkg, entries !! x = Some (Some pkg) ∧
                PackageName pkg = PackageName q ∧
                pkg ∈ indexPackages
                        (index (rawResolver [P "Q" "1.0.0"; P "Z" "1.0.0"] freeIndex
                                  ResolveSortNone))) ∧
      (PackageName q ∉
         indexNames (index (rawResolver [P "Q" "1.0.0"; P "Z" "1.0.0"] freeIndex
                              ResolveSortNone)) →
         entries !! x = Some None).
Proof.
  split; [by vm_compute|]. split; [vm_compute; reflexivity|].
  apply (X26_conflicts_entries keyOrder refSolve (λ _, [2; 1])
           (rawResolver [P "Q" "1.0.0"; P "Z" "1.0.0"] freeIndex ResolveSortNone)
           (constructed (NewResolver keyOrder [P "Q" "1.0.0"; P "Z" "1.0.0"] freeIndex)));
    [by vm_compute|vm_compute; reflexivity].
Defined.

(** The run behind the witness: Q-1.0.0, outside the index, has id 2
    and a nil entry; Z-1.0.0 has id 1 and its package. *)
Example conflicts_entries_example :
  ResolverConflicts (λ _, [2; 1])
    (Resolve refSolve
       (constructed (NewResolver keyOrder [P "Q" "1.0.0"; P "Z" "1.0.0"] freeIndex))).1 =
  Ret [None; Some (P "Z" "1.0.0")].
Proof. vm_compute; reflexivity. Qed.

(** X27: after a [Resolve] on a freshly initialized resolver,
    [IsPackageConflict] is [IsPackageNameConflict] on the name of the
    package.  For the empty name, and for a name that neither the index
    nor the requirements mention, the answer is false and the driver is
    not asked; for any other name the driver is asked about the id of
    the name, a requirement outside the index included.  (Ids are
    [int32]: index and requirements mention at most [maxInt32] names.) *)
Theorem X27_is_conflict_lookup (ord : MapOrder) (picosat_sat : Engine)
    (failedAssumption : Pigosat → Literal → bool) (r0 r : Resolver)
    (q : Packager) (name : string) :
  requestFits (index r0) (requires r0) →
  Initialize ord r0 = Ret r →
  ∃ p,
    solver (Resolve picosat_sat r).1 = Some p ∧
    IsPackageConflict failedAssumption q (Resolve picosat_sat r).1 =
      IsPackageNameConflict failedAssumption (PackageName q) (Resolve picosat_sat r).1 ∧
    (name = "" ∨
     ((name ∉ indexNames (index r0)) ∧ (name ∉ PackageName <$> requires r0)) →
       IsPackageNameConflict failedAssumption name (Resolve picosat_sat r).1 =
         Ret false) ∧
    (name ≠ "" →
     name ∈ indexNames (index r0) ∨ name ∈ PackageName <$> requires r0 →
       ∃ id, GetId name (idMap (Resolve picosat_sat r).1) = Some id ∧
             1 ≤ id ≤ Z.of_nat (Len (idMap (Resolve picosat_sat r).1)) ∧
             IsPackageNameConflict failedAssumption name (Resolve picosat_sat r).1 =
               Ret (failedAssumption p id)).
Proof.
  intros Hfits Hinit.
  destruct (initialized_facts ord r0 r Hfits Hinit)
    as (p0 & Hp0 & Hreq & Hpm & _ & Hwf' & Hdom' & Hids).
  destruct (Resolve_state picosat_sat r p0 Hp0) as (_ & sol & Hr).
  rewrite Hreq in Hr. rewrite Hr.
  unfold IsPackageConflict, IsPackageNameConflict, GetId. simpl.
  set (m' := internAll (PackageName <$> requires r0) (idMap r)) in *.
  eexists. split; [done|]. split; [done|]. split.
  - intros Hname.
    assert (s_map m' !! name = None) as ->; [|done].
    apply not_elem_of_dom. rewrite Hdom'. set_solver.
  - intros Hne Hname.
    assert (is_Some (s_map m' !! name)) as [id Hid].
    { apply elem_of_dom. rewrite Hdom'. set_solver. }
    exists id. rewrite Hid. split; [done|]. split; [|done].
    by apply (idmap_wf_ids m' id Hwf'); exists name.
Qed.

Lemma X27_is_conflict_lookup_witness :
  requestFits (index (rawResolver [P "Q" "1.0.0"; P "Z" "1.0.0"] freeIndex ResolveSortNone))
    (requires (rawResolver [P "Q" "1.0.0"; P "Z" "1.0.0"] freeIndex ResolveSortNone)) ∧
  Initialize keyOrder
    (rawResolver [P "Q" "1.0.0"; P "Z" "1.0.0"] freeIndex ResolveSortNone) =
    Ret (constructed (NewResolver keyOrder [P "Q" "1.0.0"; P "Z" "1.0.0"] freeIndex)) ∧
  ∃ p,
    solver (Resolve refSolve
              (constructed (NewResolver keyOrder [P "Q" "1.0.0"; P "Z" "1.0.0"]
                              freeIndex))).1 = Some p ∧
    IsPackageConflict (λ _ id, bool_decide (id = 2)) (P "Q" "1.0.0")
      (Resolve refSolve
         (constructed (NewResolver keyOrder [P "Q" "1.0.0"; P "Z" "1.0.0"]
                         freeIndex))).1 =
      IsPackageNameConflict (λ _ id, bool_decide (id = 2)) (PackageName (P "Q" "1.0.0"))
        (Resolve refSolve
           (constructed (NewResolver keyOrder [P "Q" "1.0.0"; P "Z" "1.0.0"]
                           freeIndex))).1 ∧
    ("Q-1.0.0" = "" ∨
     (("Q-1.0.0" ∉ indexNames
                     (index (rawResolver [P "Q" "1.0.0"; P "Z" "1.0.0"] freeIndex
                               ResolveSortNone))) ∧
      ("Q-1.0.0" ∉ PackageName <$>
                     requires (rawResolver [P "Q" "1.0.0"; P "Z" "1.0.0"] freeIndex
                                 ResolveSortNone))) →
       IsPackageNameConflict (λ _ id, bool_decide (id = 2)) "Q-1.0.0"
         (Resolve refSolve
            (constructed (NewResolver keyOrder [P "Q" "1.0.0"; P "Z" "1.0.0"]
                            freeIndex))).1 = Ret false) ∧
    ("Q-1.0.0" ≠ "" →
     "Q-1.0.0" ∈ indexNames
                   (index (rawResolver [P "Q" "1.0.0"; P "Z" "1.0.0"] freeIndex
                             ResolveSortNone)) ∨
     "Q-1.0.0" ∈ PackageName <$>
                   requires (rawResolver [P "Q" "1.0.0"; P "Z" "1.0.0"] freeIndex
                               ResolveSortNone) →
       ∃ id,
         GetId "Q-1.0.0"
           (idMap (Resolve refSolve
                     (constructed (NewResolver keyOrder [P "Q" "1.0.0"; P "Z" "1.0.0"]
                                     freeIndex))).1) = Some id ∧
         1 ≤ id ≤
           Z.of_nat (Len (idMap (Resolve refSolve
                                   (constructed (NewResolver keyOrder
                                                   [P "Q" "1.0.0"; P "Z" "1.0.0"]
                                                   freeIndex))).1)) ∧
         IsPackageNameConflict (λ _ id, bool_decide (id = 2)) "Q-1.0.0"
           (Resolve refSolve
              (constructed (NewResolver keyOrder [P "Q" "1.0.0"; P "Z" "1.0.0"]
                              freeIndex))).1 =
           Ret ((λ (_ : Pigosat) id, bool_decide (id = 2)) p id)).
Proof.
  split; [by vm_compute|]. split; [vm_compute; reflexivity|].
  apply (X27_is_conflict_lookup keyOrder refSolve (λ _ id, bool_decide (id = 2))
           (rawResolver [P "Q" "1.0.0"; P "Z" "1.0.0"] freeIndex ResolveSortNone)
           (constructed (NewResolver keyOrder [P "Q" "1.0.0"; P "Z" "1.0.0"] freeIndex))
           (P "Q" "1.0.0") "Q-1.0.0");
    [by vm_compute|vm_compute; reflexivity].
Defined.

(** ** A lookup that fails in [Resolve], and names that coincide *)

Lemma set_solution_id r : set_solution (solution r) r = r.
Proof. by destruct r. Qed.

Lemma remap_fail r v model good bad rest found err :
  trueVars v model = good ++ bad :: rest →
  Forall2 (λ w pkg, PackageByName (varName (idMap r) w) (prodMap r) = inr pkg) good found →
  PackageByName (varName (idMap r) bad) (prodMap r) = inl err →
  remap r v model =
    (set_solution (solution r ++ found) r,
     (false, Some (ErrResolveLookup (varName (idMap r) bad) err))).
Proof.
  revert r v good found. induction model as [|b model IH]; intros r v good found; simpl.
  { by destruct good. }
  destruct b; [|apply IH].
  intros Hvars Hgood Hbad. destruct Hgood as [|w pkg good found Hw Hgood].
  - simpl in Hvars. injection Hvars as <- _.
    fold (varName (idMap r) v). rewrite Hbad.
    by rewrite app_nil_r, set_solution_id.
  - simpl in Hvars. injection Hvars as <- Hvars.
    fold (varName (idMap r) v). rewrite Hw.
    rewrite (IH _ _ good found Hvars); [|done..].
    simpl. by rewrite <-(assoc_L (++)).
Qed.

(** X14: when the engine answers [Satisfiable] and the name of a
    variable that the model sets has no package in the product map,
    [Resolve] returns [(false, error)] for the first such variable,
    with the name it read back for it; the solution it leaves behind
    holds the packages of the variables before that one, and [Solved]
    answers true. *)
Theorem X14_resolve_lookup_failure (picosat_sat : Engine) (r : Resolver)
    (p' : Pigosat) (model : list bool) (good rest : list nat) (bad : nat)
    (found : Packages) (err : error) :
  solverInput r = Some p' → picosat_sat p' = (Satisfiable, model) →
  trueVars 1 (drop 1 model) = good ++ bad :: rest →
  Forall2 (λ w pkg,
             PackageByName (varName (idMap (Resolve picosat_sat r).1) w) (prodMap r) =
               inr pkg) good found →
  PackageByName (varName (idMap (Resolve picosat_sat r).1) bad) (prodMap r) = inl err →
  (Resolve picosat_sat r).2 =
    (false, Some (ErrResolveLookup (varName (idMap (Resolve picosat_sat r).1) bad) err)) ∧
  Solution (Resolve picosat_sat r).1 = found ∧
  Solved (Resolve picosat_sat r).1 = true.
Proof.
  intros Hin He Hvars.
  destruct (solver r) as [p|] eqn:Hp; [|by unfold solverInput in Hin; rewrite Hp in Hin].
  destruct (Resolve_state picosat_sat r p Hp) as (Hin' & sol & Hr).
  assert (idMap (Resolve picosat_sat r).1 =
          internAll (PackageName <$> requires r) (idMap r)) as Hm by (by rewrite Hr).
  rewrite Hm. clear Hr sol Hm.
  rewrite Hin in Hin'. injection Hin' as Hp'.
  destruct (Resolve_unfold picosat_sat r p Hp) as [_ HR]. cbv zeta in HR.
  rewrite <-Hp' in HR. rewrite He in HR. cbn [fst snd] in HR.
  rewrite decide_False in HR by (by intros ?).
  intros Hgood Hbad. rewrite HR.
  set (r' := set_solver _ _).
  rewrite (remap_fail r' 1 (drop 1 model) good bad rest found err Hvars Hgood Hbad).
  unfold Solved. simpl. done.
Qed.

Lemma X14_resolve_lookup_failure_witness :
  solverInput freeResolver = Some (default pigosatNew (solverInput freeResolver)) ∧
  refSolve (default pigosatNew (solverInput freeResolver)) =
    (Satisfiable, [false; true; true]) ∧
  trueVars 1 (drop 1 [false; true; true]) = [1%nat] ++ 2%nat :: [] ∧
  Forall2 (λ w pkg,
             PackageByName (varName (idMap (Resolve refSolve freeResolver).1) w)
               (prodMap freeResolver) = inr pkg) [1%nat] [P "Z" "1.0.0"] ∧
  PackageByName (varName (idMap (Resolve refSolve freeResolver).1) 2)
    (prodMap freeResolver) = inl (ErrPackageNotExist "Q-1.0.0") ∧
  (Resolve refSolve freeResolver).2 =
    (false, Some (ErrResolveLookup
                    (varName (idMap (Resolve refSolve freeResolver).1) 2)
                    (ErrPackageNotExist "Q-1.0.0"))) ∧
  Solution (Resolve refSolve freeResolver).1 = [P "Z" "1.0.0"] ∧
  Solved (Resolve refSolve freeResolver).1 = true.
Proof.
  assert (Forall2 (λ w pkg,
            PackageByName (varName (idMap (Resolve refSolve freeResolver).1) w)
              (prodMap freeResolver) = inr pkg) [1%nat] [P "Z" "1.0.0"]) as Hgood.
  { constructor; [vm_compute; reflexivity|constructor]. }
  split; [vm_compute; reflexivity|]. split; [vm_compute; reflexivity|].
  split; [reflexivity|]. split; [exact Hgood|]. split; [vm_compute; reflexivity|].
  apply (X14_resolve_lookup_failure refSolve freeResolver
           (default pigosatNew (solverInput freeResolver)) [false; true; true]
           [1%nat] [] 2%nat [P "Z" "1.0.0"] (ErrPackageNotExist "Q-1.0.0"));
    [vm_compute; reflexivity|vm_compute; reflexivity|reflexivity|exact Hgood
    |vm_compute; reflexivity].
Defined.

Lemma append_assoc (a b c : string) : (a +:+ b) +:+ c = a +:+ (b +:+ c).
Proof.
  induction a as [|x a IH]; [reflexivity|].
  change (String x ((a +:+ b) +:+ c) = String x (a +:+ (b +:+ c))). by rewrite IH.
Qed.

Lemma append_length (a b : string) :
  String.length (a +:+ b) = (String.length a + String.length b)%nat.
Proof.
  induction a as [|x a IH]; [reflexivity|].
  change (S (String.length (a +:+ b)) = S (String.length a + String.length b)).
  by rewrite IH.
Qed.

(** X17: the name of a package is its product name, a hyphen and its
    version, so the package of product [a-b] and version [c] and the
    package of product [a] and version [b-c] bear one name although
    they differ.  The resolver tells packages apart by name only: both
    receive the same id, and a product map that was given both answers
    the later one under that name. *)
Theorem X17_name_aliasing (a b c : string) (m : stringIdMap) (pm : ProductMap) :
  let p1 := NewPackage (a +:+ "-" +:+ b) c in
  let p2 := NewPackage a (b +:+ "-" +:+ c) in
  p1 ≠ p2 ∧
  PackageName p1 = PackageName p2 ∧
  packagesToIds [p1; p2] m =
    ([(StringToId (PackageName p1) m).1; (StringToId (PackageName p1) m).1],
     (StringToId (PackageName p1) m).2) ∧
  PackageByName (PackageName p1) (Add p2 (Add p1 pm)) = inr p2.
Proof.
  intros p1 p2.
  assert (PackageName p1 = PackageName p2) as Hname.
  { unfold p1, p2, NewPackage. cbn [PackageName]. by rewrite !append_assoc. }
  assert (p1 ≠ p2) as Hdiff.
  { intros Heq. apply (f_equal (λ p, String.length (ProductName p))) in Heq.
    unfold p1, p2, NewPackage in Heq. cbn [ProductName] in Heq.
    rewrite !append_length in Heq. simpl in Heq. lia. }
  clearbody p1 p2. split; [done|]. split; [done|]. split.
  - unfold packagesToIds. simpl.
    pose proof (StringToId_again m (PackageName p1) []) as Hst. simpl in Hst.
    destruct (StringToId (PackageName p1) m) as [id m1]. simpl in Hst |- *.
    by rewrite <-Hname, Hst.
  - rewrite Hname. unfold PackageByName, Add. simpl. by rewrite lookup_insert_eq.
Qed.
